(** * A shallow embedding of [advanced-vector/vector.h]

    The header defines two class templates: [RawMemory<T>], an owner of one
    block of raw storage, and [Vector<T>], a growable array built on it with
    placement construction and explicit destruction.

    The embedding keeps what the C++ code manipulates:

    - the free store is a finite map from block identifiers to arrays of
      slots; a slot is raw storage or holds a live object of type [T];
    - a [T*] is null, or a block with an offset, or a wild pointer obtained by
      arithmetic outside any array;
    - [Vector] objects live in an object store indexed by their address, so
      that [this != &other] is a comparison of addresses and two references
      can alias the same object;
    - a member function is a state transformer with three outcomes: normal
      return, a propagating exception, or undefined behaviour;
    - every operation of the element type that may throw consults a fault
      plan, a function from the number of fallible operations executed so
      far to a boolean: the operation throws when the plan says so.

    [size_t] has 64 bits and [int] has 32. The two places where a value
    supplied by the caller meets them are modelled with their wrap-around:
    the product [n * sizeof(T)] in [RawMemory::Allocate], and the
    conversion [int pos_index = pos - begin()] in [Emplace] and [Erase],
    together with what is computed from [pos_index]. Sizes and capacities
    stored in a vector are naturals: the representation invariant bounds
    them by what [operator new] can supply, so that the remaining
    arithmetic on them does not wrap (lemma [grown_no_wrap]). An
    argument of type [size_t] is a natural as well: one from [2 ^ 64] on
    is not an input of the program, and a theorem stated for every natural
    says more than is needed. The [assert]s of [RawMemory] compile away
    under [NDEBUG] and are not modelled. The argument of a push or an
    insertion is passed by value: it is an object outside any vector, and
    an rvalue argument, which the call leaves moved-from, is not
    modelled. *)

From stdpp Require Import base option list gmap fin_maps.

(** ** Machine integers *)

(** The largest size of an object, [PTRDIFF_MAX]. *)
Definition ptrdiff_max : N := 2 ^ 63 - 1.

(** A product computed in [size_t]. *)
Definition size_t_mul (a b : N) : N := (a * b) mod 2 ^ 64.

(** The conversion of a [ptrdiff_t] to [int]. *)
Definition to_int (z : Z) : Z := ((z + 2 ^ 31) mod 2 ^ 32 - 2 ^ 31)%Z.

(** The conversion of a signed value to [size_t]. *)
Definition to_size_t (z : Z) : nat := Z.to_nat (z mod 2 ^ 64).

Global Arguments size_t_mul : simpl never.
Global Arguments to_int : simpl never.
Global Arguments to_size_t : simpl never.

(** ** Element types *)

(** What the container needs to know about [T]: the value produced by value
    initialisation, the state in which a move leaves its source, the two
    type traits tested by [if constexpr], and [sizeof(T)], which is at
    least 1 and at most the largest size of an object. *)
Class Element (T : Type) := {
  value_init : T;
  moved_from : T → T;
  is_nothrow_move_constructible : bool;
  is_copy_constructible : bool;
  sizeof_T : positive;
  sizeof_T_max : (N.pos sizeof_T <=? ptrdiff_max)%N = true;
}.

(** ** Memory *)

Inductive slot (T : Type) : Type :=
| Raw
| Live (x : T).
Arguments Raw {T}.
Arguments Live {T} x.

Inductive ptr : Type :=
| Null
| Ptr (b : nat) (off : nat)
| Wild.

Global Instance ptr_eq_dec : EqDecision ptr.
Proof. solve_decision. Defined.

Definition ptr_add (p : ptr) (n : nat) : ptr :=
  match p with
  | Null => if n is 0 then Null else Wild
  | Ptr b off => Ptr b (off + n)
  | Wild => Wild
  end.

Definition ptr_sub (p : ptr) (n : nat) : ptr :=
  match p with
  | Null => if n is 0 then Null else Wild
  | Ptr b off => if decide (n ≤ off) then Ptr b (off - n) else Wild
  | Wild => Wild
  end.

(** [p + z] for a signed [z]. *)
Definition ptr_offset (p : ptr) (z : Z) : ptr :=
  if decide (0 ≤ z)%Z then ptr_add p (Z.to_nat z) else ptr_sub p (Z.to_nat (- z)).

Global Arguments ptr_offset : simpl never.

(** [last - first] for two pointers into the same array. *)
Definition ptr_diff (last first : ptr) : option nat :=
  match last, first with
  | Null, Null => Some 0
  | Ptr b1 o1, Ptr b2 o2 =>
      if decide (b1 = b2 ∧ o2 ≤ o1) then Some (o1 - o2) else None
  | _, _ => None
  end.

(** ** Objects *)

Record RawMemory : Type := mkRawMemory {
  buffer_ : ptr;
  capacity_ : nat;
}.

Record Vector : Type := mkVector {
  data_ : RawMemory;
  size_ : nat;
}.

Record state (T : Type) : Type := mkState {
  heap : gmap nat (list (slot T));
  vecs : gmap nat Vector;
  next_block : nat;
  ticks : nat;
}.
Arguments mkState {T}.
Arguments heap {T}.
Arguments vecs {T}.
Arguments next_block {T}.
Arguments ticks {T}.

Definition set_heap {T} (h : gmap nat (list (slot T))) (st : state T) : state T :=
  mkState h (vecs st) (next_block st) (ticks st).
Definition set_vecs {T} (v : gmap nat Vector) (st : state T) : state T :=
  mkState (heap st) v (next_block st) (ticks st).

(** ** Outcomes and the monad of member functions *)

Inductive outcome (T A : Type) : Type :=
| Ret (a : A) (st : state T)
| Throw (st : state T)
| Undef.
Arguments Ret {T A}.
Arguments Throw {T A}.
Arguments Undef {T A}.

Definition M (T A : Type) : Type := state T → outcome T A.

Definition ret {T A} (a : A) : M T A := λ st, Ret a st.

Definition bind {T A B} (m : M T A) (f : A → M T B) : M T B :=
  λ st, match m st with
        | Ret a st' => f a st'
        | Throw st' => Throw st'
        | Undef => Undef
        end.

Definition throw {T A} : M T A := λ st, Throw st.
Definition undef {T A} : M T A := λ _, Undef.

(** [try { m } catch (...) { h }] *)
Definition try_catch {T A} (m : M T A) (h : M T A) : M T A :=
  λ st, match m st with
        | Throw st' => h st'
        | r => r
        end.

(** Stack unwinding: [cleanup] is the destructor of a local object that is
    in scope while [m] runs; it is executed when an exception leaves [m]. *)
Definition unwinding {T A} (m : M T A) (cleanup : M T unit) : M T A :=
  try_catch m (bind cleanup (λ _, throw)).

Declare Scope cpp_scope.
Delimit Scope cpp_scope with cpp.
Notation "x ← m ; k" := (bind m (λ x, k))
  (at level 20, m at level 100, k at level 200, only parsing) : cpp_scope.
Notation "m ;; k" := (bind m (λ _, k))
  (at level 100, k at level 200, right associativity) : cpp_scope.

Section Model.
Context {T : Type} {ET : Element T}.

(** The fault plan: [plan k = true] makes the [k]-th fallible operation
    (counted from 0 over the whole run) throw. *)
Variable plan : nat → bool.

Local Open Scope cpp_scope.

(** *** Fallible steps *)

Definition may_throw : M T unit := λ st,
  let st' := mkState (heap st) (vecs st) (next_block st) (S (ticks st)) in
  if plan (ticks st) then Throw st' else Ret () st'.

(** *** The free store *)

(** [operator new(bytes)]: a request above [PTRDIFF_MAX] is refused with
    [std::bad_alloc], no object being that large; any other request throws
    [std::bad_alloc] when the plan says so, or returns a fresh block, which
    has room for [bytes / sizeof(T)] objects. *)
Definition operator_new (bytes : N) : M T ptr :=
  if decide (ptrdiff_max < bytes)%N then throw
  else
    may_throw ;;
    λ st, Ret (Ptr (next_block st) 0)
              (mkState (<[next_block st :=
                            replicate (N.to_nat (bytes / N.pos sizeof_T)) Raw]>
                          (heap st))
                       (vecs st) (S (next_block st)) (ticks st)).

(** [operator delete(p)]: a no-op on the null pointer, releases the block
    when [p] is the address returned by [operator new], and is undefined
    for any other argument. No destructor runs. *)
Definition operator_delete (p : ptr) : M T unit := λ st,
  match p with
  | Null => Ret () st
  | Ptr b 0 =>
      if heap st !! b is Some _
      then Ret () (set_heap (delete b (heap st)) st)
      else Undef
  | _ => Undef
  end.

Definition load_slot (p : ptr) : M T (slot T) := λ st,
  match p with
  | Ptr b i =>
      match heap st !! b ≫= (.!! i) with
      | Some s => Ret s st
      | None => Undef
      end
  | _ => Undef
  end.

Definition store_slot (p : ptr) (s : slot T) : M T unit := λ st,
  match p with
  | Ptr b i =>
      match heap st !! b with
      | Some l =>
          if decide (i < length l)
          then Ret () (set_heap (<[b := <[i := s]> l]> (heap st)) st)
          else Undef
      | None => Undef
      end
  | _ => Undef
  end.

(** Reading through a pointer needs a live object. *)
Definition read (p : ptr) : M T T :=
  s ← load_slot p; if s is Live x then ret x else undef.

(** [std::destroy_at(p)] *)
Definition destroy_at (p : ptr) : M T unit :=
  _ ← read p; store_slot p Raw.

(** *** Operations of the element type *)

(** [new (p) T(args...)]: [x] is the value the constructor builds from its
    arguments. *)
Definition construct (p : ptr) (x : T) : M T unit :=
  may_throw ;; store_slot p (Live x).

(** [new (p) T()] *)
Definition T_value_construct (p : ptr) : M T unit :=
  may_throw ;; store_slot p (Live value_init).

(** [new (dst) T(v)] where [v] is the object at [src] *)
Definition T_copy_construct (dst src : ptr) : M T unit :=
  x ← read src; may_throw ;; store_slot dst (Live x).

(** [new (dst) T(std::move(v))] where [v] is the object at [src] *)
Definition T_move_construct (dst src : ptr) : M T unit :=
  x ← read src;
  (if is_nothrow_move_constructible then ret () else may_throw) ;;
  store_slot dst (Live x) ;;
  store_slot src (Live (moved_from x)).

(** Copy assignment from the object at [src] to the object at [dst]. *)
Definition T_copy_assign (dst src : ptr) : M T unit :=
  x ← read src; _ ← read dst; may_throw ;; store_slot dst (Live x).

(** Move assignment from the object at [src] to the object at [dst]. *)
Definition T_move_assign (dst src : ptr) : M T unit :=
  x ← read src; _ ← read dst; may_throw ;;
  store_slot dst (Live x) ;;
  store_slot src (Live (moved_from x)).

(** Move assignment to the object at [dst] from a local [temp] holding [x]. *)
Definition T_move_assign_temp (dst : ptr) (x : T) : M T unit :=
  _ ← read dst; may_throw ;; store_slot dst (Live x).

(** *** Algorithms of [<memory>] and [<algorithm>] *)

(** The [uninitialized_*] algorithms destroy what they have constructed
    when an element operation throws, then rethrow. [step d s] constructs
    the object at [d] from the one at [s]. *)
Fixpoint uninitialized_n (step : ptr → ptr → M T unit)
    (first : ptr) (count : nat) (d_first : ptr) : M T unit :=
  match count with
  | 0 => ret ()
  | S k =>
      step d_first first ;;
      unwinding (uninitialized_n step (ptr_add first 1) k (ptr_add d_first 1))
                (destroy_at d_first)
  end.

(** [std::uninitialized_copy_n(first, count, d_first)] *)
Definition uninitialized_copy_n : ptr → nat → ptr → M T unit :=
  uninitialized_n T_copy_construct.

(** [std::uninitialized_move_n(first, count, d_first)] *)
Definition uninitialized_move_n : ptr → nat → ptr → M T unit :=
  uninitialized_n T_move_construct.

(** [std::uninitialized_value_construct_n(first, count)] *)
Fixpoint uninitialized_value_construct_n (first : ptr) (count : nat) : M T unit :=
  match count with
  | 0 => ret ()
  | S k =>
      T_value_construct first ;;
      unwinding (uninitialized_value_construct_n (ptr_add first 1) k)
                (destroy_at first)
  end.

(** [std::destroy_n(first, count)] *)
Fixpoint destroy_n (first : ptr) (count : nat) : M T unit :=
  match count with
  | 0 => ret ()
  | S k => destroy_at first ;; destroy_n (ptr_add first 1) k
  end.

Fixpoint copy_n (first : ptr) (count : nat) (d_first : ptr) : M T unit :=
  match count with
  | 0 => ret ()
  | S k => T_copy_assign d_first first ;; copy_n (ptr_add first 1) k (ptr_add d_first 1)
  end.

(** [std::copy(first, last, d_first)] *)
Definition std_copy (first last d_first : ptr) : M T unit :=
  match ptr_diff last first with
  | Some n => copy_n first n d_first
  | None => undef
  end.

Fixpoint move_n (first : ptr) (count : nat) (d_first : ptr) : M T unit :=
  match count with
  | 0 => ret ()
  | S k => T_move_assign d_first first ;; move_n (ptr_add first 1) k (ptr_add d_first 1)
  end.

(** [std::move(first, last, d_first)], the algorithm: front to back. *)
Definition std_move (first last d_first : ptr) : M T unit :=
  match ptr_diff last first with
  | Some n => move_n first n d_first
  | None => undef
  end.

Fixpoint move_backward_n (last : ptr) (count : nat) (d_last : ptr) : M T unit :=
  match count with
  | 0 => ret ()
  | S k =>
      T_move_assign (ptr_sub d_last 1) (ptr_sub last 1) ;;
      move_backward_n (ptr_sub last 1) k (ptr_sub d_last 1)
  end.

(** [std::move_backward(first, last, d_last)]: back to front. *)
Definition std_move_backward (first last d_last : ptr) : M T unit :=
  match ptr_diff last first with
  | Some n => move_backward_n last n d_last
  | None => undef
  end.

(** *** The object store *)

Definition load (a : nat) : M T Vector := λ st,
  match vecs st !! a with
  | Some v => Ret v st
  | None => Undef
  end.

Definition store (a : nat) (v : Vector) : M T unit := λ st,
  Ret () (set_vecs (<[a := v]> (vecs st)) st).

Definition set_buffer_ (a : nat) (p : ptr) : M T unit :=
  v ← load a; store a (mkVector (mkRawMemory p (capacity_ (data_ v))) (size_ v)).

Definition set_capacity_ (a : nat) (c : nat) : M T unit :=
  v ← load a; store a (mkVector (mkRawMemory (buffer_ (data_ v)) c) (size_ v)).

Definition set_data_ (a : nat) (r : RawMemory) : M T unit :=
  v ← load a; store a (mkVector r (size_ v)).

Definition set_size_ (a : nat) (n : nat) : M T unit :=
  v ← load a; store a (mkVector (data_ v) n).

Definition get_size_ (a : nat) : M T nat := v ← load a; ret (size_ v).

(** *** [RawMemory<T>]

    A [RawMemory] that is a local variable is a value; one that is the
    member [data_] of a [Vector] is reached through the address of that
    vector. A function that takes a reference to a local returns the
    local's new value. *)

(** [static T* Allocate(size_t n)]: the product [n * sizeof(T)] is computed
    in [size_t]. *)
Definition Allocate (n : nat) : M T ptr :=
  if decide (n ≠ 0)
  then operator_new (size_t_mul (N.of_nat n) (N.pos sizeof_T))
  else ret Null.

(** [static void Deallocate(T* buf) noexcept] *)
Definition Deallocate (buf : ptr) : M T unit := operator_delete buf.

(** [explicit RawMemory(size_t capacity)] *)
Definition RawMemory_ctor (capacity : nat) : M T RawMemory :=
  buf ← Allocate capacity; ret (mkRawMemory buf capacity).

(** [~RawMemory()] *)
Definition RawMemory_dtor (r : RawMemory) : M T unit := Deallocate (buffer_ r).

(** [size_t Capacity() const] and [T* GetAddress()] of the member [data_]. *)
Definition Capacity (a : nat) : M T nat := v ← load a; ret (capacity_ (data_ v)).
Definition GetAddress (a : nat) : M T ptr := v ← load a; ret (buffer_ (data_ v)).

(** [RawMemory& operator=(RawMemory&& rhs) noexcept] between the members
    [data_] of the vectors at [this] and [rhs]; the two members are the same
    object exactly when the two vectors are. *)
Definition RawMemory_move_assign (this rhs : nat) : M T unit :=
  if decide (this ≠ rhs) then
    b ← GetAddress rhs; set_buffer_ this b ;;
    c ← Capacity rhs; set_capacity_ this c ;;
    set_buffer_ rhs Null ;;
    set_capacity_ rhs 0
  else ret ().

(** [void Swap(RawMemory& other) noexcept] between the member [data_] of the
    vector at [this] and a local. *)
Definition RawMemory_Swap_local (this : nat) (other : RawMemory) : M T RawMemory :=
  v ← load this;
  set_data_ this other ;;
  ret (data_ v).

(** The same between the members of two vectors. *)
Definition RawMemory_Swap (this other : nat) : M T unit :=
  v ← load this; o ← load other;
  set_data_ this (data_ o) ;;
  set_data_ other (data_ v).

(** *** [Vector<T>] *)

Definition begin_ (this : nat) : M T ptr := GetAddress this.

Definition end_ (this : nat) : M T ptr :=
  b ← GetAddress this; n ← get_size_ this; ret (ptr_add b n).

(** [Vector() = default] *)
Definition Vector_ctor (this : nat) : M T unit :=
  store this (mkVector (mkRawMemory Null 0) 0).


(** [Vector(const Vector& other)], building a local. *)
Definition Vector_copy_local (other : nat) : M T Vector :=
  o ← load other;
  data ← RawMemory_ctor (size_ o);
  unwinding (uninitialized_copy_n (buffer_ (data_ o)) (size_ o) (buffer_ data))
            (RawMemory_dtor data) ;;
  ret (mkVector data (size_ o)).

(** [Vector(const Vector& other)] *)
Definition Vector_ctor_copy (this other : nat) : M T unit :=
  v ← Vector_copy_local other; store this v.

(** [~Vector()] of a local, followed by the destructor of its member. *)
Definition Vector_dtor_local (v : Vector) : M T unit :=
  destroy_n (buffer_ (data_ v)) (size_ v) ;;
  RawMemory_dtor (data_ v).

(** [~Vector()] *)
Definition Vector_dtor (this : nat) : M T unit :=
  v ← load this;
  Vector_dtor_local v ;;
  λ st, Ret () (set_vecs (delete this (vecs st)) st).

(** [void Swap(Vector& other) noexcept] *)
Definition Swap (this other : nat) : M T unit :=
  RawMemory_Swap this other ;;
  v ← load this; o ← load other;
  set_size_ this (size_ o) ;;
  set_size_ other (size_ v).

(** [Swap] with a local. *)
Definition Swap_local (this : nat) (other : Vector) : M T Vector :=
  d ← RawMemory_Swap_local this (data_ other);
  n ← get_size_ this;
  set_size_ this (size_ other) ;;
  ret (mkVector d n).

(** [Vector& operator=(const Vector& other)] *)
Definition Vector_copy_assign (this other : nat) : M T unit :=
  if decide (this ≠ other) then
    t ← load this; o ← load other;
    if decide (size_ o ≤ capacity_ (data_ t)) then
      (if decide (size_ t ≤ size_ o) then
         std_copy (buffer_ (data_ o)) (ptr_add (buffer_ (data_ o)) (size_ t))
                  (buffer_ (data_ t)) ;;
         uninitialized_copy_n (ptr_add (buffer_ (data_ o)) (size_ t))
                              (size_ o - size_ t)
                              (ptr_add (buffer_ (data_ t)) (size_ t))
       else
         std_copy (buffer_ (data_ o)) (ptr_add (buffer_ (data_ o)) (size_ o))
                  (buffer_ (data_ t)) ;;
         destroy_n (ptr_add (buffer_ (data_ t)) (size_ o)) (size_ t - size_ o)) ;;
      set_size_ this (size_ o)
    else
      other_copy ← Vector_copy_local other;
      other_copy' ← Swap_local this other_copy;
      Vector_dtor_local other_copy'
  else ret ().

(** [Vector& operator=(Vector&& other) noexcept] *)
Definition Vector_move_assign (this other : nat) : M T unit :=
  RawMemory_move_assign this other ;;
  n ← get_size_ other; set_size_ this n ;;
  set_size_ other 0.

(** [Vector(Vector&& other) noexcept] *)
Definition Vector_ctor_move (this other : nat) : M T unit :=
  Vector_ctor this ;;
  Vector_move_assign this other.

(** The relocation policy chosen by [if constexpr]:
    [std::is_nothrow_move_constructible_v<T> || !std::is_copy_constructible_v<T>]
    selects the move. *)
Definition relocate_by_move : bool :=
  is_nothrow_move_constructible || negb is_copy_constructible.

Definition relocate_n (first : ptr) (count : nat) (d_first : ptr) : M T unit :=
  if relocate_by_move
  then uninitialized_move_n first count d_first
  else uninitialized_copy_n first count d_first.

(** [void Reserve(size_t new_capacity)] *)
Definition Reserve (this : nat) (new_capacity : nat) : M T unit :=
  t ← load this;
  if decide (new_capacity ≤ capacity_ (data_ t)) then ret ()
  else
    new_data ← RawMemory_ctor new_capacity;
    unwinding (relocate_n (buffer_ (data_ t)) (size_ t) (buffer_ new_data))
              (RawMemory_dtor new_data) ;;
    destroy_n (buffer_ (data_ t)) (size_ t) ;;
    new_data' ← RawMemory_Swap_local this new_data;
    RawMemory_dtor new_data'.

(** [void Resize(size_t new_size)] *)
Definition Resize (this : nat) (new_size : nat) : M T unit :=
  t ← load this;
  if decide (new_size = size_ t) then ret ()
  else if decide (new_size < size_ t) then
    destroy_n (ptr_add (buffer_ (data_ t)) new_size) (size_ t - new_size) ;;
    set_size_ this new_size
  else
    Reserve this new_size ;;
    b ← GetAddress this; n ← get_size_ this;
    uninitialized_value_construct_n (ptr_add b n) (new_size - n) ;;
    set_size_ this new_size.

(** The capacity of the buffer allocated on growth. *)
Definition grown (size : nat) : nat := if decide (size = 0) then 1 else size * 2.

(** [template<typename M> void PushBack(M&& value)]: [value] is the object
    the new element is constructed from. *)
Definition PushBack (this : nat) (value : T) : M T unit :=
  t ← load this;
  (if decide (capacity_ (data_ t) = size_ t) then
     new_data ← RawMemory_ctor (grown (size_ t));
     unwinding (construct (ptr_add (buffer_ new_data) (size_ t)) value ;;
                relocate_n (buffer_ (data_ t)) (size_ t) (buffer_ new_data))
               (RawMemory_dtor new_data) ;;
     destroy_n (buffer_ (data_ t)) (size_ t) ;;
     new_data' ← RawMemory_Swap_local this new_data;
     RawMemory_dtor new_data'
   else
     construct (ptr_add (buffer_ (data_ t)) (size_ t)) value) ;;
  n ← get_size_ this; set_size_ this (S n).

(** [template<typename... Args> T& EmplaceBack(Args&&... args)]: the result
    is the address of the new element. *)
Definition EmplaceBack (this : nat) (args : T) : M T ptr :=
  t ← load this;
  (if decide (capacity_ (data_ t) = size_ t) then
     new_data ← RawMemory_ctor (grown (size_ t));
     unwinding (construct (ptr_add (buffer_ new_data) (size_ t)) args ;;
                relocate_n (buffer_ (data_ t)) (size_ t) (buffer_ new_data))
               (RawMemory_dtor new_data) ;;
     destroy_n (buffer_ (data_ t)) (size_ t) ;;
     new_data' ← RawMemory_Swap_local this new_data;
     RawMemory_dtor new_data'
   else
     construct (ptr_add (buffer_ (data_ t)) (size_ t)) args) ;;
  b ← GetAddress this; n ← get_size_ this;
  set_size_ this (S n) ;;
  ret (ptr_add b n).

(** [template<typename... Args> iterator Emplace(const_iterator pos, Args&&... args)]:
    [int pos_index = pos - begin()] narrows the difference. As the count of
    the first relocation [pos_index] is an [int], and a negative count
    relocates nothing; in [size_ - pos_index] it is converted to
    [size_t]. *)
Definition Emplace (this : nat) (pos : ptr) (args : T) : M T ptr :=
  t ← load this;
  b ← begin_ this;
  match ptr_diff pos b with
  | None => undef
  | Some d =>
      let pos_index := to_int (Z.of_nat d) in
      (if decide (capacity_ (data_ t) = size_ t) then
         new_data ← RawMemory_ctor (grown (size_ t));
         unwinding
           (construct (ptr_offset (buffer_ new_data) pos_index) args ;;
            relocate_n (buffer_ (data_ t)) (Z.to_nat pos_index) (buffer_ new_data) ;;
            relocate_n (ptr_offset (buffer_ (data_ t)) pos_index)
                       (to_size_t (Z.of_nat (size_ t) - pos_index))
                       (ptr_add (ptr_offset (buffer_ new_data) pos_index) 1))
           (RawMemory_dtor new_data) ;;
         destroy_n (buffer_ (data_ t)) (size_ t) ;;
         new_data' ← RawMemory_Swap_local this new_data;
         RawMemory_dtor new_data'
       else
         e ← end_ this;
         try_catch
           (if decide (pos = e) then
              construct e args
            else
              may_throw ;;
              T_move_construct e (ptr_add (buffer_ (data_ t)) (size_ t - 1)) ;;
              std_move_backward (ptr_offset b pos_index) (ptr_sub e 1) e ;;
              T_move_assign_temp (ptr_offset b pos_index) args)
           (operator_delete e ;; throw)) ;;
      n ← get_size_ this; set_size_ this (S n) ;;
      b' ← begin_ this; ret (ptr_offset b' pos_index)
  end.

(** [iterator Insert(const_iterator pos, const T& item)] and its rvalue
    overload both forward to [Emplace]. *)
Definition Insert (this : nat) (pos : ptr) (item : T) : M T ptr :=
  Emplace this pos item.

(** [iterator Erase(const_iterator pos)], with the same narrowing to
    [int]. *)
Definition Erase (this : nat) (pos : ptr) : M T ptr :=
  b ← begin_ this;
  match ptr_diff pos b with
  | None => undef
  | Some d =>
      let pos_index := to_int (Z.of_nat d) in
      e ← end_ this;
      std_move (ptr_add (ptr_offset b pos_index) 1) e (ptr_offset b pos_index) ;;
      destroy_at (ptr_sub e 1) ;;
      n ← get_size_ this; set_size_ this (n - 1) ;;
      b' ← begin_ this; ret (ptr_offset b' pos_index)
  end.

(** [void PopBack() noexcept] *)
Definition PopBack (this : nat) : M T unit :=
  b ← GetAddress this; n ← get_size_ this;
  destroy_at (ptr_sub (ptr_add b n) 1) ;;
  set_size_ this (n - 1).

(** [size_t Size() const noexcept] *)
Definition Size (this : nat) : M T nat := get_size_ this.

(** [T& operator[](size_t index) noexcept], read through. *)
Definition at_ (this : nat) (index : nat) : M T T :=
  b ← GetAddress this; read (ptr_add b index).

End Model.

(** ** Specifications of outcomes *)

(** [spec m st Q E U]: running [m] from [st] returns in a state satisfying
    [Q], or throws in a state satisfying [E]; undefined behaviour is possible
    only when [U] holds. *)
Definition spec {T A} (m : M T A) (st : state T)
    (Q : A → state T → Prop) (E : state T → Prop) (U : Prop) : Prop :=
  match m st with
  | Ret a s => Q a s
  | Throw s => E s
  | Undef => U
  end.

(** Some fallible operation is scheduled to fail. *)
Definition has_fault (plan : nat → bool) : Prop := ∃ k, plan k = true.

(** The plan under which nothing ever fails. *)
Definition no_faults : nat → bool := λ _, false.

(** Blocks are handed out in increasing order: nothing is allocated at or
    above the next identifier. *)
Definition heap_ok {T} (st : state T) : Prop :=
  ∀ b, next_block st ≤ b → heap st !! b = None.

(** [buffer_holds h p l]: the storage starting at [p] is the array [l]. *)
Definition buffer_holds {T} (h : gmap nat (list (slot T))) (p : ptr)
    (l : list (slot T)) : Prop :=
  match p with
  | Null => l = []
  | Ptr b 0 => h !! b = Some l
  | _ => False
  end.

(** An array of [n] objects is no larger than the largest object: it is
    what [operator new] can supply. *)
Definition fits {T} {ET : Element T} (n : nat) : Prop :=
  (N.of_nat n * N.pos sizeof_T ≤ ptrdiff_max)%N.

(** The representation invariant of a [Vector]: the object at address [a]
    has buffer [p] of capacity [cap], an array that fits; slots [0, size)
    hold the live elements [xs], slots [size, cap) are raw. *)
Definition vec_repr {T} {ET : Element T} (st : state T) (a : nat) (p : ptr)
    (cap : nat) (xs : list T) : Prop :=
  vecs st !! a = Some (mkVector (mkRawMemory p cap) (length xs)) ∧
  (length xs ≤ cap ∧ fits cap) ∧
  buffer_holds (heap st) p (map Live xs ++ replicate (cap - length xs) Raw).

(** Relocation cannot fail half-way with elements already moved out. *)
Definition strong_relocation (T : Type) {ET : Element T} : Prop :=
  is_nothrow_move_constructible = true ∨ is_copy_constructible = true.

Section Rules.
Context {T : Type} {ET : Element T}.
Variable plan : nat → bool.
Local Open Scope cpp_scope.

Implicit Types (h : gmap nat (list (slot T))) (v : gmap nat Vector).
Implicit Types (st s : state T) (U : Prop) (E : state T → Prop).

Lemma spec_ret {A} (a : A) st (Q : A → state T → Prop) E U :
  Q a st → spec (ret a) st Q E U.
Proof. done. Qed.

Lemma spec_bind {A B} (m : M T A) (f : A → M T B) st (Q : B → state T → Prop) E U :
  spec m st (λ a s, spec (f a) s Q E U) E U → spec (bind m f) st Q E U.
Proof. unfold spec, bind. by destruct (m st). Qed.

Lemma spec_try_catch {A} (m hd : M T A) st (Q : A → state T → Prop) E U :
  spec m st Q (λ s, spec hd s Q E U) U → spec (try_catch m hd) st Q E U.
Proof. unfold spec, try_catch. by destruct (m st). Qed.

Lemma spec_unwinding {A} (m : M T A) (c : M T unit) st (Q : A → state T → Prop) E U :
  spec m st Q (λ s, spec c s (λ _ s', E s') E U) U →
  spec (unwinding m c) st Q E U.
Proof.
  intros Hm. apply spec_try_catch. unfold spec in *.
  destruct (m st) as [a s|s|]; [done| |done].
  unfold bind. by destruct (c s).
Qed.

Lemma spec_mono {A} (m : M T A) st (Q Q' : A → state T → Prop) E E' U U' :
  spec m st Q E U →
  (∀ a s, Q a s → Q' a s) → (∀ s, E s → E' s) → (U → U') →
  spec m st Q' E' U'.
Proof. unfold spec. destruct (m st); eauto. Qed.

(** Evaluation of a sequence whose first part is known. *)
Lemma bind_Ret_eq {A B} (m : M T A) (f : A → M T B) st a s :
  m st = Ret a s → bind m f st = f a s.
Proof. unfold bind. by intros ->. Qed.

Lemma bind_Throw_eq {A B} (m : M T A) (f : A → M T B) st s :
  m st = Throw s → bind m f st = Throw s.
Proof. unfold bind. by intros ->. Qed.

Lemma load_eq st a t : vecs st !! a = Some t → load a st = Ret t st.
Proof. unfold load. by intros ->. Qed.

(** *** Primitive steps *)

Lemma may_throw_spec h v n k (Q : unit → state T → Prop) E U :
  (∀ k', Q () (mkState h v n k')) →
  (has_fault plan → ∀ k', E (mkState h v n k')) →
  spec (may_throw plan) (mkState h v n k) Q E U.
Proof.
  intros HQ HE. unfold spec, may_throw. simpl.
  destruct (plan k) eqn:Hk; [apply HE; by exists k|apply HQ].
Qed.

Lemma read_spec h v n k b i l x (Q : T → state T → Prop) E U :
  h !! b = Some l → l !! i = Some (Live x) →
  Q x (mkState h v n k) →
  spec (read (Ptr b i)) (mkState h v n k) Q E U.
Proof.
  intros Hb Hi HQ. unfold spec, read, bind, load_slot. simpl.
  rewrite Hb. simpl. by rewrite Hi.
Qed.

Lemma store_slot_spec h v n k b i l x (Q : unit → state T → Prop) E U :
  h !! b = Some l → i < length l →
  Q () (mkState (<[b := <[i := x]> l]> h) v n k) →
  spec (store_slot (Ptr b i) x) (mkState h v n k) Q E U.
Proof.
  intros Hb Hi HQ. unfold spec, store_slot. simpl.
  rewrite Hb. by rewrite decide_True.
Qed.

Lemma destroy_at_spec h v n k b i l x (Q : unit → state T → Prop) E U :
  h !! b = Some l → l !! i = Some (Live x) →
  Q () (mkState (<[b := <[i := Raw]> l]> h) v n k) →
  spec (destroy_at (Ptr b i)) (mkState h v n k) Q E U.
Proof.
  intros Hb Hi HQ. apply spec_bind. eapply read_spec; [done..|].
  eapply store_slot_spec; [done| |done]. by eapply lookup_lt_Some.
Qed.

Lemma construct_spec h v n k b i l x (Q : unit → state T → Prop) E U :
  h !! b = Some l → i < length l →
  (∀ k', Q () (mkState (<[b := <[i := Live x]> l]> h) v n k')) →
  (has_fault plan → ∀ k', E (mkState h v n k')) →
  spec (construct plan (Ptr b i) x) (mkState h v n k) Q E U.
Proof.
  intros Hb Hi HQ HE. apply spec_bind, may_throw_spec; [|done].
  intros k'. by eapply store_slot_spec.
Qed.


(** Construction of one element from another in a different block: the
    destination receives the value, the source is left holding [g x]; the
    step may throw only when [C] holds, and then changes nothing. *)
Definition relocation_step (step : ptr → ptr → M T unit) (g : T → T) (C : Prop) : Prop :=
  ∀ h v n k bs bd sl dl os od x (Q : unit → state T → Prop) E U,
    bs ≠ bd → h !! bs = Some sl → h !! bd = Some dl →
    sl !! os = Some (Live x) → od < length dl →
    (∀ k', Q () (mkState (<[bs := <[os := Live (g x)]> sl]>
                            (<[bd := <[od := Live x]> dl]> h)) v n k')) →
    (has_fault plan → C → ∀ k', E (mkState h v n k')) →
    spec (step (Ptr bd od) (Ptr bs os)) (mkState h v n k) Q E U.

Lemma T_copy_construct_step :
  relocation_step (T_copy_construct plan) (λ x, x) True.
Proof.
  intros h v n k bs bd sl dl os od x Q E U Hne Hs Hd Hx Hod HQ HE.
  apply spec_bind. eapply read_spec; [done..|].
  apply spec_bind, may_throw_spec; [|auto].
  intros k'. eapply store_slot_spec; [done..|].
  specialize (HQ k'). rewrite list_insert_id in HQ by done.
  rewrite insert_id in HQ; [done|]. by rewrite lookup_insert_ne.
Qed.

Lemma T_move_construct_step :
  relocation_step (T_move_construct plan) moved_from
                  (is_nothrow_move_constructible = false).
Proof.
  intros h v n k bs bd sl dl os od x Q E U Hne Hs Hd Hx Hod HQ HE.
  apply spec_bind. eapply read_spec; [done..|].
  assert (∀ k', spec (store_slot (Ptr bd od) (Live x) ;;
                      store_slot (Ptr bs os) (Live (moved_from x)))
                     (mkState h v n k') Q E U) as Hrest.
  { intros k'. apply spec_bind. eapply store_slot_spec; [done..|].
    eapply store_slot_spec; [by rewrite lookup_insert_ne| |done].
    by eapply lookup_lt_Some. }
  apply spec_bind. destruct is_nothrow_move_constructible eqn:Hnt.
  - apply spec_ret, Hrest.
  - apply may_throw_spec; [done|]. intros Hf k'. by apply HE.
Qed.

(** *** Arrays as segments *)

Lemma seg_lookup {A} (pre post : list A) x i :
  i = length pre → (pre ++ x :: post) !! i = Some x.
Proof. intros ->. by apply list_lookup_middle. Qed.

Lemma seg_insert {A} (pre post : list A) x y i :
  i = length pre → <[i := y]> (pre ++ x :: post) = pre ++ y :: post.
Proof.
  intros ->. rewrite insert_app_r_alt by done. by rewrite Nat.sub_diag.
Qed.

Lemma seg_lt {A} (pre post : list A) x i :
  i = length pre → i < length (pre ++ x :: post).
Proof. intros ->. rewrite length_app. simpl. lia. Qed.

Lemma seg_snoc {A} (pre post : list A) x :
  (pre ++ [x]) ++ post = pre ++ x :: post.
Proof. by rewrite <-app_assoc. Qed.

Lemma length_snoc {A} (pre : list A) x i :
  i = length pre → i + 1 = length (pre ++ [x]).
Proof. intros ->. rewrite length_app. simpl. lia. Qed.

(** Two heaps are equal when they agree on the blocks [bs] and [bd] and on
    all the others. *)
Ltac heap_eq bs bd :=
  let j := fresh "j" in
  apply map_eq; intros j;
  destruct (decide (j = bs)) as [->|?];
  [|destruct (decide (j = bd)) as [->|?]];
  repeat first
    [ rewrite lookup_insert_eq
    | rewrite lookup_insert_ne by done
    | rewrite lookup_delete_eq
    | rewrite lookup_delete_ne by done ];
  try done.

(** *** Loops *)

(** After an interrupted relocation each source object is as it was or as
    [g] leaves it. *)
Definition left_as_or (g : T → T) (x y : T) : Prop := y = x ∨ y = g x.

Lemma left_as_or_refl g xs : Forall2 (left_as_or g) xs xs.
Proof. induction xs; constructor; [by left|done]. Qed.

Lemma left_as_or_id xs ys : Forall2 (left_as_or (λ x, x)) xs ys → ys = xs.
Proof. induction 1 as [|x y xs ys [->| ->] _ ->]; done. Qed.

Lemma left_as_or_length g xs ys :
  Forall2 (left_as_or g) xs ys → length ys = length xs.
Proof. intros Hf. symmetry. by eapply Forall2_length. Qed.

Lemma uninitialized_n_spec step g C :
  relocation_step step g C →
  ∀ xs h v n k bs bd spre spost dpre dpost os od
    (Q : unit → state T → Prop) E U,
    bs ≠ bd →
    h !! bs = Some (spre ++ map Live xs ++ spost) →
    h !! bd = Some (dpre ++ replicate (length xs) Raw ++ dpost) →
    os = length spre → od = length dpre →
    (∀ k', Q () (mkState (<[bs := spre ++ map Live (g <$> xs) ++ spost]>
                            (<[bd := dpre ++ map Live xs ++ dpost]> h)) v n k')) →
    (has_fault plan → C → ∀ k' ys, Forall2 (left_as_or g) xs ys →
       E (mkState (<[bs := spre ++ map Live ys ++ spost]> h) v n k')) →
    spec (uninitialized_n step (Ptr bs os) (length xs) (Ptr bd od))
         (mkState h v n k) Q E U.
Proof.
  intros Hstep. induction xs as [|x xs IH];
    intros h v n k bs bd spre spost dpre dpost os od Q E U Hne Hs Hd Hos Hod HQ HE.
  - simpl in *. apply spec_ret. specialize (HQ k).
    rewrite (insert_id h bd) in HQ by done. by rewrite insert_id in HQ.
  - simpl in *. apply spec_bind.
    eapply Hstep; [done|done|done|by apply seg_lookup|by apply seg_lt| |].
    + intros k1. rewrite !seg_insert by done.
      apply spec_unwinding.
      apply (IH _ v n k1 bs bd (spre ++ [Live (g x)]) spost
                (dpre ++ [Live x]) dpost).
      * done.
      * by rewrite lookup_insert_eq, seg_snoc.
      * rewrite lookup_insert_ne by done.
        by rewrite lookup_insert_eq, seg_snoc.
      * by apply length_snoc.
      * by apply length_snoc.
      * intros k2. specialize (HQ k2). rewrite !seg_snoc.
        match goal with
        | H : Q _ (mkState ?h1 _ _ _) |- Q _ (mkState ?h2 _ _ _) =>
            replace h2 with h1; [done|]
        end.
        heap_eq bs bd.
      * intros Hf HC k2 ys Hys.
        eapply destroy_at_spec.
        { rewrite lookup_insert_ne by done. rewrite lookup_insert_ne by done.
          by rewrite lookup_insert_eq. }
        { by apply seg_lookup. }
        rewrite seg_insert by done.
        specialize (HE Hf HC k2 (g x :: ys)). simpl in HE.
        rewrite seg_snoc.
        match goal with
        | H : ?P → E (mkState ?h1 _ _ _) |- E (mkState ?h2 _ _ _) =>
            replace h2 with h1; [apply H; constructor; [by right|done]|]
        end.
        heap_eq bs bd.
    + intros Hf HC k1.
      specialize (HE Hf HC k1 (x :: xs) (left_as_or_refl g _)).
      simpl in HE. by rewrite insert_id in HE.
Qed.

Lemma destroy_n_spec xs :
  ∀ h v n k b pre post o (Q : unit → state T → Prop) E U,
    h !! b = Some (pre ++ map Live xs ++ post) →
    o = length pre →
    Q () (mkState (<[b := pre ++ replicate (length xs) Raw ++ post]> h) v n k) →
    spec (destroy_n (Ptr b o) (length xs)) (mkState h v n k) Q E U.
Proof.
  induction xs as [|x xs IH]; intros h v n k b pre post o Q E U Hb Ho HQ.
  - simpl in *. apply spec_ret. by rewrite insert_id in HQ.
  - simpl in *. apply spec_bind.
    eapply destroy_at_spec; [done|by apply seg_lookup|].
    rewrite seg_insert by done.
    apply (IH _ v n k b (pre ++ [Raw]) post).
    + by rewrite lookup_insert_eq, seg_snoc.
    + by apply length_snoc.
    + rewrite insert_insert_eq. by rewrite seg_snoc.
Qed.






(** *** Objects and allocation *)

Lemma load_spec h v n k a t (Q : Vector → state T → Prop) E U :
  v !! a = Some t → Q t (mkState h v n k) →
  spec (load a) (mkState h v n k) Q E U.
Proof. intros Ha HQ. unfold spec, load. simpl. by rewrite Ha. Qed.

Lemma store_spec h v n k a t (Q : unit → state T → Prop) E U :
  Q () (mkState h (<[a := t]> v) n k) →
  spec (store a t) (mkState h v n k) Q E U.
Proof. done. Qed.

Lemma get_size__spec h v n k a t (Q : nat → state T → Prop) E U :
  v !! a = Some t → Q (size_ t) (mkState h v n k) →
  spec (get_size_ a) (mkState h v n k) Q E U.
Proof. intros Ha HQ. apply spec_bind. by eapply load_spec. Qed.

Lemma set_size__spec h v n k a t m (Q : unit → state T → Prop) E U :
  v !! a = Some t →
  Q () (mkState h (<[a := mkVector (data_ t) m]> v) n k) →
  spec (set_size_ a m) (mkState h v n k) Q E U.
Proof. intros Ha HQ. apply spec_bind. by eapply load_spec. Qed.

Lemma GetAddress_spec h v n k a t (Q : ptr → state T → Prop) E U :
  v !! a = Some t → Q (buffer_ (data_ t)) (mkState h v n k) →
  spec (GetAddress a) (mkState h v n k) Q E U.
Proof. intros Ha HQ. apply spec_bind. by eapply load_spec. Qed.

Lemma end__spec h v n k a t (Q : ptr → state T → Prop) E U :
  v !! a = Some t →
  Q (ptr_add (buffer_ (data_ t)) (size_ t)) (mkState h v n k) →
  spec (end_ a) (mkState h v n k) Q E U.
Proof.
  intros Ha HQ. apply spec_bind. eapply GetAddress_spec; [done|].
  apply spec_bind. by eapply get_size__spec.
Qed.

Lemma RawMemory_Swap_local_spec h v n k a t r (Q : RawMemory → state T → Prop) E U :
  v !! a = Some t →
  Q (data_ t) (mkState h (<[a := mkVector r (size_ t)]> v) n k) →
  spec (RawMemory_Swap_local a r) (mkState h v n k) Q E U.
Proof.
  intros Ha HQ. apply spec_bind. eapply load_spec; [done|].
  apply spec_bind, spec_bind. by eapply load_spec.
Qed.

(** *** Sizes *)

Lemma sizeof_T_bound : (N.pos sizeof_T ≤ ptrdiff_max)%N.
Proof. apply N.leb_le, sizeof_T_max. Qed.

Lemma fits_0 : fits 0.
Proof. unfold fits. simpl. by vm_compute. Qed.

Lemma fits_1 : fits 1.
Proof. unfold fits. pose proof sizeof_T_bound. lia. Qed.

Lemma fits_mono n m : n ≤ m → fits m → fits n.
Proof. unfold fits. intros. nia. Qed.


(** The byte size of an array that fits is computed without wrapping, and
    is the size of a block of that many objects. *)
Lemma size_t_mul_fits n :
  fits n →
  size_t_mul (N.of_nat n) (N.pos sizeof_T) = (N.of_nat n * N.pos sizeof_T)%N.
Proof.
  unfold fits, ptrdiff_max, size_t_mul. intros. apply N.mod_small. lia.
Qed.

Lemma slots_of_bytes n :
  N.to_nat (N.of_nat n * N.pos sizeof_T / N.pos sizeof_T) = n.
Proof. rewrite N.div_mul by done. apply Nat2N.id. Qed.




Lemma fits_no_wrap n : fits n → (N.of_nat n * N.pos sizeof_T < 2 ^ 64)%N.
Proof. unfold fits, ptrdiff_max. lia. Qed.

(** Doubling the capacity of an array that fits does not wrap. *)
Lemma grown_no_wrap n :
  fits n → (N.of_nat (grown n) * N.pos sizeof_T < 2 ^ 64)%N.
Proof.
  unfold fits, ptrdiff_max, grown. intros Hn. pose proof sizeof_T_bound as Hs.
  unfold ptrdiff_max in Hs. case_decide; nia.
Qed.

(** [RawMemory(c)] for a byte size that does not wrap: a block of [c]
    slots when the array fits and the plan lets the allocation succeed; a
    refusal otherwise. *)
Lemma RawMemory_ctor_spec h v n k c (Q : RawMemory → state T → Prop) E U :
  c ≠ 0 →
  (N.of_nat c * N.pos sizeof_T < 2 ^ 64)%N →
  (fits c → ∀ k', Q (mkRawMemory (Ptr n 0) c)
                    (mkState (<[n := replicate c Raw]> h) v (S n) k')) →
  (has_fault plan ∨ ¬ fits c → ∀ k', E (mkState h v n k')) →
  spec (RawMemory_ctor plan c) (mkState h v n k) Q E U.
Proof.
  intros Hc Hw HQ HE. apply spec_bind. unfold Allocate, operator_new.
  rewrite decide_True by done.
  unfold size_t_mul. rewrite N.mod_small by done.
  case_decide as Hbig.
  - apply HE. right. unfold fits. lia.
  - assert (fits c) as Hfit by (unfold fits; lia).
    apply spec_bind, may_throw_spec; [|by intros Hf; apply HE; left].
    intros k'. unfold spec. simpl. rewrite slots_of_bytes. by apply HQ.
Qed.

(** The same when the array is known to fit: only the plan can make the
    allocation fail. *)
Lemma RawMemory_ctor_fits_spec h v n k c (Q : RawMemory → state T → Prop) E U :
  c ≠ 0 → fits c →
  (∀ k', Q (mkRawMemory (Ptr n 0) c)
           (mkState (<[n := replicate c Raw]> h) v (S n) k')) →
  (has_fault plan → ∀ k', E (mkState h v n k')) →
  spec (RawMemory_ctor plan c) (mkState h v n k) Q E U.
Proof.
  intros Hc Hfit HQ HE.
  apply RawMemory_ctor_spec; [done|by apply fits_no_wrap|by intros _|].
  intros [Hf|Hr] k'; [by apply HE|done].
Qed.

(** The heap once the block at [p] is released, and once it is overwritten. *)
Definition release (p : ptr) h : gmap nat (list (slot T)) :=
  match p with
  | Ptr b 0 => delete b h
  | _ => h
  end.

Definition update (p : ptr) (l : list (slot T)) h : gmap nat (list (slot T)) :=
  match p with
  | Ptr b 0 => <[b := l]> h
  | _ => h
  end.

Lemma RawMemory_dtor_spec h v n k p c l (Q : unit → state T → Prop) E U :
  buffer_holds h p l →
  Q () (mkState (release p h) v n k) →
  spec (RawMemory_dtor (mkRawMemory p c)) (mkState h v n k) Q E U.
Proof.
  intros Hp HQ. unfold spec, RawMemory_dtor, Deallocate, operator_delete.
  destruct p as [|b [|o]|]; simpl in *; try done. by rewrite Hp.
Qed.

Lemma buffer_holds_update h p l l' :
  buffer_holds h p l → length l' = length l →
  buffer_holds (update p l' h) p l'.
Proof.
  destruct p as [|b [|o]|]; simpl; try done.
  - intros -> Hl. by destruct l'.
  - intros _ _. by rewrite lookup_insert_eq.
Qed.

Lemma update_update h p l l' : update p l (update p l' h) = update p l h.
Proof.
  destruct p as [|b [|o]|]; simpl; try done. by rewrite insert_insert_eq.
Qed.

(** Relocation of the elements [xs] of the buffer at [p] into the raw slots
    of another block. The sources are left holding [ys], which are the
    original elements when the policy is the copy; when relocation throws
    and the policy is strong, the policy was the copy. *)
Lemma relocate_n_spec h v n k p bd spre xs spost dpre dpost src od
    (Q : unit → state T → Prop) E U :
  buffer_holds h p (spre ++ map Live xs ++ spost) →
  h !! bd = Some (dpre ++ replicate (length xs) Raw ++ dpost) →
  p ≠ Ptr bd 0 →
  src = ptr_add p (length spre) → od = length dpre →
  (∀ k' ys, length ys = length xs →
     (relocate_by_move = false → ys = xs) →
     Q () (mkState (update p (spre ++ map Live ys ++ spost)
                      (<[bd := dpre ++ map Live xs ++ dpost]> h)) v n k')) →
  (has_fault plan → ∀ k' ys, length ys = length xs →
     (strong_relocation T → relocate_by_move = false ∧ ys = xs) →
     E (mkState (update p (spre ++ map Live ys ++ spost) h) v n k')) →
  spec (relocate_n plan src (length xs) (Ptr bd od)) (mkState h v n k) Q E U.
Proof.
  intros Hp Hd Hne -> -> HQ HE.
  destruct p as [|bs [|o]|]; simpl in Hp; try done.
  - apply app_eq_nil in Hp as [-> [Hxs ->]%app_eq_nil].
    apply map_eq_nil in Hxs as ->. simpl in *.
    specialize (HQ k [] eq_refl (λ _, eq_refl)). simpl in HQ.
    rewrite insert_id in HQ by done.
    unfold relocate_n. by destruct relocate_by_move.
  - assert (bs ≠ bd) by congruence. simpl ptr_add. simpl update in *.
    unfold relocate_n. destruct relocate_by_move eqn:Hpol.
    + unfold uninitialized_move_n.
      eapply (uninitialized_n_spec _ _ _ T_move_construct_step); try done.
      * intros k'. apply HQ; [by rewrite length_fmap|done].
      * intros Hf Hnt k' ys Hys. apply HE; [done| |].
        { by eapply left_as_or_length. }
        unfold relocate_by_move in Hpol.
        intros [Hs|Hs]; rewrite Hnt in *; [done|].
        by rewrite Hs in Hpol.
    + unfold uninitialized_copy_n.
      eapply (uninitialized_n_spec _ _ _ T_copy_construct_step); try done.
      * intros k'. rewrite list_fmap_id. by apply HQ.
      * intros Hf _ k' ys ->%left_as_or_id. by apply HE.
Qed.

Lemma destroy_n_buffer h v n k p ys post (Q : unit → state T → Prop) E U :
  buffer_holds h p (map Live ys ++ post) →
  Q () (mkState (update p (replicate (length ys) Raw ++ post) h) v n k) →
  spec (destroy_n p (length ys)) (mkState h v n k) Q E U.
Proof.
  intros Hp HQ. destruct p as [|b [|o]|]; simpl in Hp; try done.
  - apply app_eq_nil in Hp as [->%map_eq_nil ->]. by apply spec_ret.
  - by eapply (destroy_n_spec ys _ _ _ _ _ []).
Qed.

Lemma release_update h p l : release p (update p l h) = release p h.
Proof.
  destruct p as [|b [|o]|]; simpl; try done. by rewrite delete_insert_eq.
Qed.

Lemma release_insert_lookup h p l b L :
  buffer_holds h p l → h !! b = None →
  release p (<[b := L]> h) !! b = Some L.
Proof.
  destruct p as [|bs [|o]|]; simpl; try done;
    intros Hp Hb; [by rewrite lookup_insert_eq|].
  rewrite lookup_delete_ne by congruence. by rewrite lookup_insert_eq.
Qed.

Lemma release_insert_fresh h p n L b :
  (∀ b, n ≤ b → h !! b = None) → S n ≤ b →
  release p (<[n := L]> h) !! b = None.
Proof.
  intros Hok Hb.
  assert (<[n := L]> h !! b = None) as Hi.
  { rewrite lookup_insert_ne by lia. apply Hok. lia. }
  destruct p as [|bs [|o]|]; simpl; try done.
  destruct (decide (bs = b)) as [->|]; [by rewrite lookup_delete_eq|].
  by rewrite lookup_delete_ne.
Qed.

Lemma release_insert_id h p l n L :
  buffer_holds h p l → h !! n = None →
  release (Ptr n 0) (update p l (<[n := L]> h)) = h.
Proof.
  intros Hp Hn. destruct p as [|bs [|o]|]; simpl in *; try done.
  - by rewrite delete_insert_id.
  - assert (bs ≠ n) by congruence.
    rewrite insert_insert_ne by done. rewrite delete_insert_id.
    + by rewrite insert_id.
    + by rewrite lookup_insert_ne.
Qed.

Lemma buffer_holds_fresh h p l n :
  buffer_holds h p l → h !! n = None → p ≠ Ptr n 0.
Proof. intros Hp Hn ->. simpl in Hp. congruence. Qed.

Lemma grown_gt sz : sz < grown sz.
Proof. unfold grown. case_decide; lia. Qed.


Lemma insert_replicate_seg {A} (r y : A) c i :
  i < c → <[i := y]> (replicate c r) = replicate i r ++ y :: replicate (c - S i) r.
Proof.
  intros Hi. replace c with (i + S (c - S i)) at 1 by lia.
  rewrite replicate_add. simpl. apply seg_insert. by rewrite length_replicate.
Qed.

(** The end of every reallocation: destroy the old elements, swap the
    buffers, release the old buffer. *)
Lemma install_spec h v n k a p cap sz ys post r (Q : unit → state T → Prop) E U :
  v !! a = Some (mkVector (mkRawMemory p cap) sz) →
  length ys = sz →
  buffer_holds h p (map Live ys ++ post) →
  Q () (mkState (release p h) (<[a := mkVector r sz]> v) n k) →
  spec (destroy_n p sz ;;
        new_data' ← RawMemory_Swap_local a r;
        RawMemory_dtor new_data')
       (mkState h v n k) Q E U.
Proof.
  intros Ha <- Hp HQ. apply spec_bind. eapply destroy_n_buffer; [done|].
  apply spec_bind. eapply RawMemory_Swap_local_spec; [done|]. simpl.
  eapply RawMemory_dtor_spec.
  - eapply buffer_holds_update; [done|].
    by rewrite !length_app, length_replicate, length_map.
  - by rewrite release_update.
Qed.

(** Growth for an append: the new element is built first, at index
    [length xs] of the new block. *)
Lemma grow_append_spec h v n k a p xs x (Q : unit → state T → Prop) E U :
  v !! a = Some (mkVector (mkRawMemory p (length xs)) (length xs)) →
  buffer_holds h p (map Live xs) →
  fits (length xs) →
  (∀ b, n ≤ b → h !! b = None) →
  (fits (grown (length xs)) →
   ∀ k' h', h' !! n = Some (map Live (xs ++ [x]) ++
                             replicate (grown (length xs) - length (xs ++ [x])) Raw) →
     (∀ b, S n ≤ b → h' !! b = None) →
     Q () (mkState h' (<[a := mkVector (mkRawMemory (Ptr n 0) (grown (length xs)))
                                       (length xs)]> v) (S n) k')) →
  (has_fault plan ∨ ¬ fits (grown (length xs)) →
   ∀ k' n' h', (strong_relocation T → h' = h) → E (mkState h' v n' k')) →
  spec (new_data ← RawMemory_ctor plan (grown (length xs));
        unwinding (construct plan (ptr_add (buffer_ new_data) (length xs)) x ;;
                   relocate_n plan p (length xs) (buffer_ new_data))
                  (RawMemory_dtor new_data) ;;
        destroy_n p (length xs) ;;
        new_data' ← RawMemory_Swap_local a new_data;
        RawMemory_dtor new_data')
       (mkState h v n k) Q E U.
Proof.
  intros Ha Hp Hfit Hok HQ HE.
  pose proof (grown_gt (length xs)) as Hg.
  assert (h !! n = None) as Hn by (by apply Hok).
  apply spec_bind, RawMemory_ctor_spec;
    [lia|by apply grown_no_wrap| |by intros Hr k'; apply HE].
  intros Hfit' k1. simpl buffer_. simpl ptr_add.
  apply spec_bind, spec_unwinding, spec_bind.
  eapply construct_spec.
  { by rewrite lookup_insert_eq. }
  { by rewrite length_replicate. }
  - intros k2. rewrite insert_insert_eq.
    rewrite insert_replicate_seg by done.
    eapply (relocate_n_spec _ _ _ _ p n [] xs [] []); simpl.
    + rewrite app_nil_r. destruct p as [|b [|o]|]; simpl in *; try done.
      rewrite lookup_insert_ne by congruence. done.
    + by rewrite lookup_insert_eq.
    + by eapply buffer_holds_fresh.
    + destruct p as [|b [|o]|]; simpl; try done.
    + done.
    + intros k3 ys Hys _. rewrite insert_insert_eq. rewrite app_nil_r.
      eapply (install_spec _ _ _ _ _ _ _ _ ys []); [done|done| |].
      * rewrite app_nil_r. eapply buffer_holds_update.
        -- destruct p as [|b [|o]|]; simpl in *; try done.
           rewrite lookup_insert_ne by congruence. done.
        -- by rewrite !length_map.
      * rewrite release_update. apply HQ; [done| |].
        -- erewrite release_insert_lookup; [|done..].
           rewrite map_app, <-app_assoc. simpl.
           do 3 f_equal. rewrite length_app. simpl. f_equal. lia.
        -- intros b Hb. by apply release_insert_fresh.
    + intros Hf k3 ys Hys Hstrong. rewrite app_nil_r.
      eapply RawMemory_dtor_spec.
      * destruct p as [|b [|o]|]; simpl; by rewrite ?lookup_insert_ne, lookup_insert_eq
          by congruence.
      * apply HE; [by left|]. intros Hs. destruct (Hstrong Hs) as [_ ->].
        by eapply release_insert_id.
  - intros Hf k2. eapply RawMemory_dtor_spec.
    { simpl. by rewrite lookup_insert_eq. }
    apply HE; [by left|]. intros _. simpl. by rewrite delete_insert_id.
Qed.

(** When the allocation or the construction of the new element is the
    operation that fails, growth stops before any relocation and leaves
    the heap and the objects as they were, whatever the element type. *)
Lemma grow_append_early_fault h v n k a p sz x :
  h !! n = None →
  plan k = true ∨ plan (S k) = true →
  ∃ n' k',
    (new_data ← RawMemory_ctor plan (grown sz);
     unwinding (construct plan (ptr_add (buffer_ new_data) sz) x ;;
                relocate_n plan p sz (buffer_ new_data))
               (RawMemory_dtor new_data) ;;
     destroy_n p sz ;;
     new_data' ← RawMemory_Swap_local a new_data;
     RawMemory_dtor new_data')
      (mkState h v n k)
    = Throw (mkState h v n' k').
Proof.
  intros Hn Hplan. pose proof (grown_gt sz) as Hg.
  cbv beta delta [bind RawMemory_ctor Allocate operator_new may_throw
    unwinding try_catch construct RawMemory_dtor Deallocate operator_delete
    ret throw].
  rewrite decide_True by lia. case_decide; [by eexists _, _|]. simpl.
  destruct (plan k) eqn:Hk; [by eexists _, _|].
  destruct Hplan as [?|HSk]; [done|]. simpl. rewrite HSk. simpl.
  rewrite lookup_insert_eq. unfold set_heap. simpl.
  rewrite delete_insert_id by done. by eexists _, _.
Qed.

Lemma append_slot (xs : list T) x cap :
  length xs < cap →
  <[length xs := Live x]> (map Live xs ++ replicate (cap - length xs) Raw)
  = map Live (xs ++ [x]) ++ replicate (cap - length (xs ++ [x])) Raw.
Proof.
  intros Hlt. replace (cap - length xs) with (S (cap - S (length xs))) by lia.
  simpl. rewrite seg_insert by (by rewrite length_map).
  rewrite map_app, <-app_assoc. simpl. do 3 f_equal.
  rewrite length_app. simpl. lia.
Qed.

(** Without growth the vector has a buffer. *)
Lemma buffer_holds_room h p (xs : list T) cap :
  buffer_holds h p (map Live xs ++ replicate (cap - length xs) Raw) →
  length xs < cap →
  ∃ b, p = Ptr b 0.
Proof.
  destruct p as [|b [|o]|]; simpl; try done; [|by eauto].
  intros [_ Hr]%app_eq_nil Hlt.
  apply (f_equal length) in Hr. rewrite length_replicate in Hr. simpl in Hr. lia.
Qed.

(** The two branches shared by [PushBack] and [EmplaceBack]. *)
Lemma append_body_spec h v n k a p cap xs x (Q : unit → state T → Prop) E U :
  v !! a = Some (mkVector (mkRawMemory p cap) (length xs)) →
  length xs ≤ cap ∧ fits cap →
  buffer_holds h p (map Live xs ++ replicate (cap - length xs) Raw) →
  (∀ b, n ≤ b → h !! b = None) →
  (∀ k' h' n' p' cap',
     cap' = (if decide (cap = length xs) then grown cap else cap) →
     fits cap' →
     p' = (if decide (cap = length xs) then Ptr n 0 else p) →
     n' = (if decide (cap = length xs) then S n else n) →
     buffer_holds h' p' (map Live (xs ++ [x]) ++
                         replicate (cap' - length (xs ++ [x])) Raw) →
     (∀ b, n' ≤ b → h' !! b = None) →
     Q () (mkState h' (<[a := mkVector (mkRawMemory p' cap') (length xs)]> v) n' k')) →
  (has_fault plan ∨ (cap = length xs ∧ ¬ fits (grown cap)) →
   ∀ k' n' h', (strong_relocation T → h' = h) → E (mkState h' v n' k')) →
  spec (if decide (cap = length xs) then
          new_data ← RawMemory_ctor plan (grown (length xs));
          unwinding (construct plan (ptr_add (buffer_ new_data) (length xs)) x ;;
                     relocate_n plan p (length xs) (buffer_ new_data))
                    (RawMemory_dtor new_data) ;;
          destroy_n p (length xs) ;;
          new_data' ← RawMemory_Swap_local a new_data;
          RawMemory_dtor new_data'
        else construct plan (ptr_add p (length xs)) x)
       (mkState h v n k) Q E U.
Proof.
  intros Ha [Hle Hfit] Hp Hok HQ HE. case_decide as Hc.
  - subst cap. rewrite Nat.sub_diag, app_nil_r in Hp.
    apply grow_append_spec; [done..| |].
    + intros Hfit' k' h' Hn Hok'. by apply HQ.
    + intros [Hf|Hr]; apply HE; [by left|by right].
  - destruct (buffer_holds_room _ _ _ _ Hp) as [b ->]; [lia|].
    simpl in Hp. simpl ptr_add.
    eapply construct_spec; [done| | |intros Hf k'; apply HE; [by left|done]].
    { rewrite length_app, length_map, length_replicate. lia. }
    intros k'. rewrite append_slot by lia.
    rewrite <-(insert_id v a _ Ha). apply HQ; try done.
    + simpl. by rewrite lookup_insert_eq.
    + intros b' Hb'. destruct (decide (b = b')) as [->|].
      * rewrite Hok in Hp; done.
      * rewrite lookup_insert_ne by done. by apply Hok.
Qed.

Lemma PushBack_spec st a p cap xs x :
  heap_ok st → vec_repr st a p cap xs →
  spec (PushBack plan a x) st
    (λ _ s,
       heap_ok s ∧
       vec_repr s a (if decide (cap = length xs) then Ptr (next_block st) 0 else p)
                    (if decide (cap = length xs) then grown cap else cap)
                    (xs ++ [x]))
    (λ s, (has_fault plan ∨ (cap = length xs ∧ ¬ fits (grown cap))) ∧
          vecs s = vecs st ∧
          (strong_relocation T → heap s = heap st))
    False.
Proof.
  destruct st as [h v n k]. intros Hok (Ha & Hle & Hp). simpl in *.
  apply spec_bind. eapply load_spec; [done|]. simpl.
  apply spec_bind. apply append_body_spec; try done.
  intros k' h' n' p' cap' Hcap' Hfit' Hp' Hn' Hb' Hok'.
    apply spec_bind. eapply get_size__spec; [by rewrite lookup_insert_eq|].
    eapply set_size__spec; [by rewrite lookup_insert_eq|]. simpl.
    rewrite insert_insert_eq. subst cap' p'. split; [done|].
    split_and!; simpl.
    + rewrite lookup_insert_eq. do 2 f_equal. rewrite length_app. simpl. lia.
    + rewrite length_app. simpl. pose proof (grown_gt cap).
      case_decide; lia.
    + done.
    + done.
Qed.

Lemma EmplaceBack_spec st a p cap xs x :
  heap_ok st → vec_repr st a p cap xs →
  spec (EmplaceBack plan a x) st
    (λ r s,
       heap_ok s ∧
       vec_repr s a (if decide (cap = length xs) then Ptr (next_block st) 0 else p)
                    (if decide (cap = length xs) then grown cap else cap)
                    (xs ++ [x]) ∧
       r = ptr_add (if decide (cap = length xs) then Ptr (next_block st) 0 else p)
                   (length xs))
    (λ s, (has_fault plan ∨ (cap = length xs ∧ ¬ fits (grown cap))) ∧
          vecs s = vecs st ∧
          (strong_relocation T → heap s = heap st))
    False.
Proof.
  destruct st as [h v n k]. intros Hok (Ha & Hle & Hp). simpl in *.
  apply spec_bind. eapply load_spec; [done|]. simpl.
  apply spec_bind. apply append_body_spec; try done.
  intros k' h' n' p' cap' Hcap' Hfit' Hp' Hn' Hb' Hok'.
    apply spec_bind. eapply GetAddress_spec; [by rewrite lookup_insert_eq|].
    apply spec_bind. eapply get_size__spec; [by rewrite lookup_insert_eq|].
    apply spec_bind.
    eapply set_size__spec; [by rewrite lookup_insert_eq|]. simpl.
    apply spec_ret.
    rewrite insert_insert_eq. subst cap' p'. split; [done|].
    split; [|done]. split_and!; simpl.
    + rewrite lookup_insert_eq. do 2 f_equal. rewrite length_app. simpl. lia.
    + rewrite length_app. simpl. pose proof (grown_gt cap).
      case_decide; lia.
    + done.
    + done.
Qed.





(** *** Insertion *)



Lemma buffer_holds_insert_ne h p l n L :
  buffer_holds h p l → p ≠ Ptr n 0 → buffer_holds (<[n := L]> h) p l.
Proof.
  intros Hp Hne. destruct p as [|b [|o]|]; simpl in *; try done.
  rewrite lookup_insert_ne; [done|congruence].
Qed.






Lemma ptr_diff_add h p (l : list (slot T)) i :
  buffer_holds h p l → i ≤ length l → ptr_diff (ptr_add p i) p = Some i.
Proof.
  destruct p as [|b [|o]|]; simpl; try done.
  - intros -> Hi. simpl in Hi. by replace i with 0 by lia.
  - intros _ _. rewrite decide_True by (split; [done|lia]).
    f_equal. lia.
Qed.



(** *** Removal *)



End Rules.

(** ** What a caller observes *)

Definition buffer_of {T} (st : state T) (a : nat) : option ptr :=
  (λ t, buffer_ (data_ t)) <$> vecs st !! a.

Definition capacity_of {T} (st : state T) (a : nat) : option nat :=
  (λ t, capacity_ (data_ t)) <$> vecs st !! a.

Definition size_of {T} (st : state T) (a : nat) : option nat :=
  size_ <$> vecs st !! a.


Definition returns {T A} (o : outcome T A) : Prop := ∃ r s, o = Ret r s.


Section Outcomes.
Context {T : Type} {ET : Element T}.

Lemma spec_Ret {A} (m : M T A) st Q E U r s :
  spec m st Q E U → m st = Ret r s → Q r s.
Proof. unfold spec. intros H Heq. by rewrite Heq in H. Qed.

Lemma spec_Throw {A} (m : M T A) st Q E U s :
  spec m st Q E U → m st = Throw s → E s.
Proof. unfold spec. intros H Heq. by rewrite Heq in H. Qed.

Lemma spec_returns {A} (m : M T A) st Q E U :
  spec m st Q E U → (∀ s, ¬ E s) → ¬ U → returns (m st).
Proof.
  unfold spec, returns. destruct (m st) as [r s|s|]; [by eauto|..].
  - intros H HE _. by destruct (HE s).
  - by intros H _ HU.
Qed.






End Outcomes.

(** ** Concrete element types and vectors *)

(** [int]: trivially copyable, nothing throws in practice. *)
Definition int_elem : Element nat :=
  {| value_init := 0; moved_from := λ x, x;
     is_nothrow_move_constructible := true; is_copy_constructible := true;
     sizeof_T := 4; sizeof_T_max := eq_refl |}.

(** A copyable type whose constructors may throw and whose move constructor
    is not [noexcept]: relocation copies. *)
Definition throwing_copy_elem : Element nat :=
  {| value_init := 0; moved_from := λ x, x;
     is_nothrow_move_constructible := false; is_copy_constructible := true;
     sizeof_T := 8; sizeof_T_max := eq_refl |}.

(** A move-only handle whose move constructor may throw; a moved-from
    handle is empty. Relocation moves. *)
Definition move_only_elem : Element (option nat) :=
  {| value_init := None; moved_from := λ _, None;
     is_nothrow_move_constructible := false; is_copy_constructible := false;
     sizeof_T := 8; sizeof_T_max := eq_refl |}.

(** One vector at address 0 whose buffer is block 0. *)
Definition vec_state {T} (slots : list (slot T)) (cap size : nat) : state T :=
  mkState {[0 := slots]} {[0 := mkVector (mkRawMemory (Ptr 0 0) cap) size]} 1 0.

Lemma vec_state_ok {T} (slots : list (slot T)) cap size :
  heap_ok (vec_state slots cap size).
Proof. intros b Hb. simpl in *. apply lookup_singleton_ne. lia. Qed.

Lemma vec_state_repr {T} {ET : Element T} (xs : list T) cap :
  length xs ≤ cap → fits cap →
  vec_repr (vec_state (map Live xs ++ replicate (cap - length xs) Raw)
                      cap (length xs))
           0 (Ptr 0 0) cap xs.
Proof.
  intros Hle Hfit. split_and!; simpl; [apply lookup_singleton_eq|done..|].
  apply lookup_singleton_eq.
Qed.

(** The plan that fails the [k]-th fallible operation only. *)
Definition fail_at (k : nat) : nat → bool := λ i, Nat.eqb i k.

(** ** The claims about single operations *)

Section Claims.
Context {T : Type} {ET : Element T}.
Variable plan : nat → bool.




(** An index from [2 ^ 31] on that still fits 32 bits becomes negative in
    [int pos_index]: [begin() + pos_index] leaves the array, and [Erase] is
    undefined. *)
Lemma Erase_narrowed_is_undefined (st : state T) a b cap xs i :
  vec_repr st a (Ptr b 0) cap xs → i < length xs →
  (2 ^ 31 ≤ Z.of_nat i < 2 ^ 32)%Z →
  Erase plan a (ptr_add (Ptr b 0) i) st = Undef.
Proof.
  intros (Ha & [Hle Hfit] & Hp) Hi Hint.
  enough (spec (Erase plan a (ptr_add (Ptr b 0) i)) st
            (λ _ _, False) (λ _, False) True) as Hspec.
  { unfold spec in Hspec. by destruct (Erase _ _ _ _). }
  destruct st as [h v n k]. simpl in *.
  apply spec_bind. eapply GetAddress_spec; [done|]. simpl.
  rewrite decide_True by (split; [done|lia]).
  cbv zeta. rewrite Nat.sub_0_r.
  assert (to_int (Z.of_nat i) = (Z.of_nat i - 2 ^ 32)%Z) as ->.
  { unfold to_int.
    replace (Z.of_nat i + 2 ^ 31)%Z
      with ((Z.of_nat i - 2 ^ 31) + 1 * 2 ^ 32)%Z by lia.
    rewrite Z.mod_add by lia. rewrite Z.mod_small by lia. lia. }
  assert (ptr_offset (Ptr b 0) (Z.of_nat i - 2 ^ 32) = Wild) as ->.
  { unfold ptr_offset. rewrite decide_False by lia. simpl.
    rewrite decide_False by lia. done. }
  apply spec_bind. eapply end__spec; [done|]. simpl.
  apply spec_bind. by unfold spec, std_move.
Qed.

(** On a full vector [Insert] at such an index goes through the growth
    path, where the new element is constructed at
    [new_data.GetAddress() + pos_index], before the start of the new
    block. *)
Lemma Insert_narrowed_is_undefined (st : state T) a b xs i x :
  heap_ok st → vec_repr st a (Ptr b 0) (length xs) xs → i < length xs →
  (2 ^ 31 ≤ Z.of_nat i < 2 ^ 32)%Z →
  ¬ has_fault plan → fits (grown (length xs)) →
  Insert plan a (ptr_add (Ptr b 0) i) x st = Undef.
Proof.
  intros Hok (Ha & [Hle Hfit] & Hp) Hi Hint Hnf Hroom.
  enough (spec (Emplace plan a (ptr_add (Ptr b 0) i) x) st
            (λ _ _, False) (λ _, False) True) as Hspec.
  { unfold Insert. unfold spec in Hspec. by destruct (Emplace _ _ _ _ _). }
  destruct st as [h v n k]. simpl in *.
  apply spec_bind. eapply load_spec; [done|]. simpl.
  apply spec_bind. eapply GetAddress_spec; [done|]. simpl.
  rewrite decide_True by (split; [done|lia]).
  cbv zeta. rewrite Nat.sub_0_r.
  assert (to_int (Z.of_nat i) = (Z.of_nat i - 2 ^ 32)%Z) as ->.
  { unfold to_int.
    replace (Z.of_nat i + 2 ^ 31)%Z
      with ((Z.of_nat i - 2 ^ 31) + 1 * 2 ^ 32)%Z by lia.
    rewrite Z.mod_add by lia. rewrite Z.mod_small by lia. lia. }
  rewrite decide_True by done.
  apply spec_bind, spec_bind.
  apply RawMemory_ctor_fits_spec;
    [pose proof (grown_gt (length xs)); lia|done| |by intros Hf].
  intros k1. simpl buffer_.
  assert (ptr_offset (Ptr n 0) (Z.of_nat i - 2 ^ 32) = Wild) as ->.
  { unfold ptr_offset. rewrite decide_False by lia. simpl.
    rewrite decide_False by lia. done. }
  apply spec_bind, spec_unwinding, spec_bind, spec_bind.
  apply may_throw_spec; [|by intros Hf]. intros k2. done.
Qed.

(** Steps through the object store. *)
Ltac obj_lookup :=
  repeat first [ rewrite lookup_insert_eq | rewrite lookup_insert_ne by done ];
  first [ reflexivity | eassumption ].

Ltac obj_step :=
  first [ apply spec_bind
        | eapply load_spec; [obj_lookup|]
        | apply store_spec
        | apply spec_ret ];
  simpl.

(** Move assignment between two distinct vectors, as a transformation of
    the object store: it consults no fault plan and touches no block. *)
Lemma Vector_move_assign_distinct (st : state T) d s td ts :
  d ≠ s → vecs st !! d = Some td → vecs st !! s = Some ts →
  ∃ st', Vector_move_assign d s st = Ret () st' ∧
         heap st' = heap st ∧
         vecs st' !! d = Some ts ∧
         vecs st' !! s = Some (mkVector (mkRawMemory Null 0) 0).
Proof.
  intros Hne Hd Hs. destruct st as [h v n k]. simpl in *.
  assert (spec (Vector_move_assign d s) (mkState h v n k)
            (λ _ st', heap st' = h ∧ vecs st' !! d = Some ts ∧
                      vecs st' !! s = Some (mkVector (mkRawMemory Null 0) 0))
            (λ _, False) False) as Hspec.
  { unfold Vector_move_assign, RawMemory_move_assign, GetAddress, Capacity,
      set_buffer_, set_capacity_, get_size_, set_size_.
    rewrite decide_True by done. destruct ts as [[bs cs] ns].
    repeat obj_step. split_and!; [done|by obj_lookup..]. }
  unfold spec in Hspec.
  destruct (Vector_move_assign d s _) as [[] st'|?|]; [|done..].
  by exists st'.
Qed.

(** C5. Move assignment from [s] to a distinct [d] always returns; [d] then
    has the buffer, the capacity and the elements that [s] had, and [s] is
    the empty vector. *)
Theorem move_assign_transfers (st : state T) d s td ps caps xss :
  d ≠ s → vecs st !! d = Some td → vec_repr st s ps caps xss →
  ∃ st', Vector_move_assign d s st = Ret () st' ∧
         vec_repr st' d ps caps xss ∧
         vec_repr st' s Null 0 [] ∧
         size_of st' s = Some 0.
Proof.
  intros Hne Hd (Hs & [Hle Hfit] & Hp).
  destruct (Vector_move_assign_distinct st d s _ _ Hne Hd Hs)
    as (st' & Hrun & Hh & Hd' & Hs').
  exists st'. split; [done|]. unfold vec_repr, size_of.
  rewrite Hh, Hd', Hs'. simpl. split_and!; first [done|apply fits_0].
Qed.

(** C8. Copy assignment of a vector to itself returns at once and changes
    nothing, whatever the state and the fault plan. *)
Theorem self_copy_assign_noop (st : state T) c :
  Vector_copy_assign plan c c st = Ret () st.
Proof. unfold Vector_copy_assign. by rewrite decide_False by tauto. Qed.


(** C2, amended. A [PushBack] or an [EmplaceBack] on a full vector that
    throws leaves every block and every vector object as it was, so that
    size, capacity and elements of the vector are unchanged, in each of
    these cases: the element type is copy constructible or its move
    constructor cannot throw; the allocation of the new buffer is the
    operation that fails; the construction of the new element is the
    operation that fails. What is left out is a failing relocation for a
    type that can only be moved and whose move constructor can throw. *)
Theorem growth_push_strong_guarantee st a p cap xs x s :
  heap_ok st → vec_repr st a p cap xs → cap = length xs →
  strong_relocation T ∨ plan (ticks st) = true ∨ plan (S (ticks st)) = true →
  PushBack plan a x st = Throw s ∨ EmplaceBack plan a x st = Throw s →
  heap s = heap st ∧ vecs s = vecs st ∧ vec_repr s a p cap xs.
Proof.
  intros Hok Hrep Hfull Hcase Hthrow.
  assert (vecs s = vecs st ∧ heap s = heap st) as [Hv Hh].
  { destruct Hcase as [Hstrong|Hearly].
    - destruct Hthrow as [Hr|Hr].
      + pose proof (PushBack_spec plan st a p cap xs x Hok Hrep) as HP.
        destruct (spec_Throw _ _ _ _ _ _ HP Hr) as (_ & Hv & Hh). auto.
      + pose proof (EmplaceBack_spec plan st a p cap xs x Hok Hrep) as HB.
        destruct (spec_Throw _ _ _ _ _ _ HB Hr) as (_ & Hv & Hh). auto.
    - destruct Hrep as (Ha & _ & _). destruct st as [h v n k]. simpl in *.
      destruct (grow_append_early_fault plan h v n k a p (length xs) x)
        as (n' & k' & Hbody); [by apply Hok|done|].
      destruct Hthrow as [Hr|Hr]; unfold PushBack, EmplaceBack in Hr;
        erewrite bind_Ret_eq in Hr by (apply load_eq; exact Ha);
        simpl in Hr; rewrite decide_True in Hr by done;
        erewrite bind_Throw_eq in Hr by exact Hbody;
        by injection Hr as <-. }
  split_and!; [done..|]. unfold vec_repr. by rewrite Hv, Hh.
Qed.

(** Once the element is in place, the size is incremented and the position
    returned: none of this throws. *)
Lemma Emplace_tail_no_throw a (z : Z) (s : state T) :
  spec (n ← get_size_ a; set_size_ a (S n) ;;
        b' ← begin_ a; ret (ptr_offset b' z))%cpp
       s (λ _ _, True) (λ _, False) True.
Proof.
  destruct s as [h v n k]. destruct (v !! a) as [t|] eqn:Ht.
  - apply spec_bind. eapply get_size__spec; [done|].
    apply spec_bind. eapply set_size__spec; [done|]. simpl.
    apply spec_bind. eapply GetAddress_spec; [by rewrite lookup_insert_eq|].
    by apply spec_ret.
  - apply spec_bind, spec_bind. unfold spec, load. cbn [vecs]. by rewrite Ht.
Qed.

(** C1. Insertion before a live element without growth: no failure ever
    propagates as an exception. The handler passes [end()], an address
    inside the buffer, to [operator delete]; the behaviour is undefined and
    no destructor runs for the slot at index [size]. This is already the
    outcome when the first step, the construction of the temporary, fails. *)
Theorem interior_insert_failure_is_undefined st a p cap xs i x :
  heap_ok st → vec_repr st a p cap xs → length xs < cap → i < length xs →
  (∀ s, Emplace plan a (ptr_add p i) x st ≠ Throw s) ∧
  (plan (ticks st) = true → Emplace plan a (ptr_add p i) x st = Undef).
Proof.
  intros Hok Hrep Hcap Hi.
  destruct Hrep as (Ha & [Hle Hfit] & Hp).
  destruct (buffer_holds_room _ _ _ _ Hp) as [b ->]; [lia|].
  destruct st as [h v n k]. simpl in *.
  destruct (length xs) as [|j] eqn:Hlen; [lia|].
  split.
  - intros s Hs.
    enough (spec (Emplace plan a (Ptr b i) x) (mkState h v n k)
              (λ _ _, True) (λ _, False) True) as Hspec.
    { unfold spec in Hspec. by rewrite Hs in Hspec. }
    apply spec_bind. eapply load_spec; [done|]. simpl.
    apply spec_bind. eapply GetAddress_spec; [done|]. simpl.
    rewrite decide_True by (split; [done|lia]). cbv zeta.
    apply spec_bind. rewrite decide_False by lia.
    apply spec_bind. eapply end__spec; [done|]. simpl.
    unfold spec at 1, try_catch.
    match goal with |- match match ?m with _ => _ end with _ => _ end =>
      destruct m as [r s1|s1|] end; [apply Emplace_tail_no_throw|done..].
  - intros Hplan.
    enough (spec (Emplace plan a (Ptr b i) x) (mkState h v n k)
              (λ _ _, False) (λ _, False) True) as Hspec.
    { unfold spec in Hspec. by destruct (Emplace _ _ _ _ _). }
    apply spec_bind. eapply load_spec; [done|]. simpl.
    apply spec_bind. eapply GetAddress_spec; [done|]. simpl.
    rewrite decide_True by (split; [done|lia]). cbv zeta.
    apply spec_bind. rewrite decide_False by lia.
    apply spec_bind. eapply end__spec; [done|]. simpl.
    rewrite decide_False by (intros [= ?]; lia).
    unfold spec, try_catch, bind, may_throw. simpl. by rewrite Hplan.
Qed.

End Claims.

(** ** Concrete runs *)

(** The vector [1, 2, 3] with capacity 4, and the full vector [1, 2]. *)
Definition st_123 : state nat := vec_state [Live 1; Live 2; Live 3; Raw] 4 3.
Definition st_12 : state nat := vec_state [Live 1; Live 2] 2 2.

Lemma st_123_repr {ET : Element nat} (H : fits 4) :
  vec_repr st_123 0 (Ptr 0 0) 4 [1; 2; 3].
Proof. apply (vec_state_repr [1; 2; 3] 4); [simpl; lia|done]. Qed.

Lemma st_12_repr {ET : Element nat} (H : fits 2) :
  vec_repr st_12 0 (Ptr 0 0) 2 [1; 2].
Proof. apply (vec_state_repr [1; 2] 2); [simpl; lia|done]. Qed.

(** Arrays of a few [int]s, or of a few objects of 8 bytes, fit. *)
Lemma fits_int n : n ≤ 1000 → fits (ET := int_elem) n.
Proof. unfold fits, ptrdiff_max. simpl. lia. Qed.

Lemma fits_throwing_copy n : n ≤ 1000 → fits (ET := throwing_copy_elem) n.
Proof. unfold fits, ptrdiff_max. simpl. lia. Qed.

Lemma fits_move_only n : n ≤ 1000 → fits (ET := move_only_elem) n.
Proof. unfold fits, ptrdiff_max. simpl. lia. Qed.


(** A capacity whose byte size wraps: [(2 ^ 62 + 1) * sizeof(int)] is 4
    modulo [2 ^ 64]. *)
Definition wrapping_capacity : nat := N.to_nat (2 ^ 62 + 1).

(** [Reserve(c)] on [1, 2] for a [c] whose byte size wraps to 4: the block
    allocated has one slot, and the relocation of the second element
    writes past it. *)
Lemma Reserve_wrapped_is_undefined c :
  2 < c → size_t_mul (N.of_nat c) 4 = 4%N →
  Reserve (ET := int_elem) no_faults 0 c st_12 = Undef.
Proof.
  intros Hc Hw.
  enough (spec (Reserve (ET := int_elem) no_faults 0 c) st_12
            (λ _ _, False) (λ _, False) True) as Hspec.
  { unfold spec in Hspec. by destruct (Reserve _ _ _ _). }
  unfold Reserve. apply spec_bind. unfold st_12, vec_state.
  eapply load_spec; [apply lookup_singleton_eq|]. cbn [capacity_ data_].
  rewrite decide_False by lia.
  unfold RawMemory_ctor, Allocate. rewrite decide_True by lia.
  change (N.pos sizeof_T) with 4%N. rewrite Hw.
  vm_compute. exact I.
Qed.

(** The same call on [7]: it returns, and the vector then reports the
    capacity [c] over a block of one slot. *)
Definition st_7 : state nat := vec_state [Live 7] 1 1.

Lemma Reserve_wrapped_returns c :
  2 < c → size_t_mul (N.of_nat c) 4 = 4%N →
  Reserve (ET := int_elem) no_faults 0 c st_7
  = Ret () (mkState {[1 := [Live 7]]}
                    {[0 := mkVector (mkRawMemory (Ptr 1 0) c) 1]} 2 1).
Proof.
  intros Hc Hw.
  enough (spec (Reserve (ET := int_elem) no_faults 0 c) st_7
            (λ _ s, s = mkState {[1 := [Live 7]]}
                          {[0 := mkVector (mkRawMemory (Ptr 1 0) c) 1]} 2 1)
            (λ _, False) False) as Hspec.
  { unfold spec in Hspec.
    destruct (Reserve _ _ _ _) as [[] s| |]; [by subst s|done..]. }
  unfold Reserve. apply spec_bind. unfold st_7, vec_state.
  eapply load_spec; [apply lookup_singleton_eq|]. cbn [capacity_ data_].
  rewrite decide_False by lia.
  unfold RawMemory_ctor, Allocate. rewrite decide_True by lia.
  change (N.pos sizeof_T) with 4%N. rewrite Hw.
  vm_compute. reflexivity.
Qed.

(** C4 as stated fails for a requested capacity whose byte size wraps in
    [size_t]. On the full vector [1, 2], [Reserve(2 ^ 62 + 1)] with no
    fault scheduled is undefined. On [7] it returns and [Capacity()] is the
    requested capacity, but the buffer is a block of one slot: the vector
    does not have that capacity. *)
Lemma Reserve_wrapped_counterexample :
  heap_ok st_12 ∧
  vec_repr (ET := int_elem) st_12 0 (Ptr 0 0) 2 [1; 2] ∧
  2 < wrapping_capacity ∧
  ¬ has_fault no_faults ∧
  ¬ returns (Reserve (ET := int_elem) no_faults 0 wrapping_capacity st_12) ∧
  vec_repr (ET := int_elem) st_7 0 (Ptr 0 0) 1 [7] ∧
  ∃ s, Reserve (ET := int_elem) no_faults 0 wrapping_capacity st_7 = Ret () s ∧
       capacity_of s 0 = Some wrapping_capacity ∧
       heap s !! 1 = Some [Live 7] ∧
       ¬ ∃ p', vec_repr (ET := int_elem) s 0 p' wrapping_capacity [7].
Proof.
  assert (2 < wrapping_capacity) as Hc by (unfold wrapping_capacity; lia).
  assert (size_t_mul (N.of_nat wrapping_capacity) 4 = 4%N) as Hw.
  { unfold wrapping_capacity. rewrite N2Nat.id. reflexivity. }
  revert Hc Hw. generalize wrapping_capacity. intros c Hc Hw.
  split; [apply vec_state_ok|].
  split; [apply st_12_repr, fits_int; lia|].
  split; [exact Hc|].
  split; [intros [k Hk]; discriminate Hk|].
  split.
  { rewrite (Reserve_wrapped_is_undefined _ Hc Hw).
    intros (r & s & Hs). discriminate Hs. }
  split.
  { apply (vec_state_repr (ET := int_elem) [7] 1); [simpl; lia|].
    apply fits_int. lia. }
  eexists. split; [exact (Reserve_wrapped_returns _ Hc Hw)|].
  split; [|split].
  - unfold capacity_of. cbn [vecs]. rewrite lookup_singleton_eq. reflexivity.
  - cbn [heap]. apply lookup_singleton_eq.
  - intros (p' & Hv & _ & Hp). cbn [vecs heap] in *.
    rewrite lookup_singleton_eq in Hv. injection Hv as <-.
    cbn [buffer_holds] in Hp. rewrite lookup_singleton_eq in Hp.
    injection Hp as Hp. apply (f_equal length) in Hp.
    rewrite length_replicate in Hp. cbn [length] in Hp. lia.
Qed.


(** [Resize(m)] on [1, 2] for an [m] whose byte size wraps to 4 goes
    through [Reserve(m)]. *)
Lemma Resize_wrapped_is_undefined m :
  2 < m → size_t_mul (N.of_nat m) 4 = 4%N →
  Resize (ET := int_elem) no_faults 0 m st_12 = Undef.
Proof.
  intros Hm Hw. unfold Resize.
  erewrite bind_Ret_eq by (apply load_eq; apply lookup_singleton_eq).
  cbn [size_ data_].
  rewrite decide_False by lia. rewrite decide_False by lia.
  unfold bind at 1. by rewrite (Reserve_wrapped_is_undefined m Hm Hw).
Qed.

(** C6 as stated fails for a new size whose byte size wraps in [size_t]:
    on the vector [1, 2], [Resize(2 ^ 62 + 1)] with no fault scheduled is
    undefined, where the claim has it append elements. *)
Lemma Resize_wrapped_counterexample :
  heap_ok st_12 ∧
  vec_repr (ET := int_elem) st_12 0 (Ptr 0 0) 2 [1; 2] ∧
  length [1; 2] < wrapping_capacity ∧
  ¬ has_fault no_faults ∧
  ¬ returns (Resize (ET := int_elem) no_faults 0 wrapping_capacity st_12).
Proof.
  assert (2 < wrapping_capacity) as Hc by (unfold wrapping_capacity; lia).
  assert (size_t_mul (N.of_nat wrapping_capacity) 4 = 4%N) as Hw.
  { unfold wrapping_capacity. rewrite N2Nat.id. reflexivity. }
  revert Hc Hw. generalize wrapping_capacity. intros c Hc Hw.
  split; [apply vec_state_ok|].
  split; [apply st_12_repr, fits_int; lia|].
  split; [simpl; lia|].
  split; [intros [k Hk]; discriminate Hk|].
  rewrite (Resize_wrapped_is_undefined _ Hc Hw).
  intros (r & s & Hs). discriminate Hs.
Qed.




(** A vector of [2 ^ 31 + 1] zeros, full. *)
Definition wide_size : nat := N.to_nat (2 ^ 31 + 1).
Definition wide_index : nat := N.to_nat (2 ^ 31).
Definition st_wide : state nat :=
  vec_state (replicate wide_size (Live 0)) wide_size wide_size.

Lemma vec_state_full_repr {T} {ET : Element T} n (x : T) :
  fits n →
  vec_repr (vec_state (replicate n (Live x)) n n) 0 (Ptr 0 0) n (replicate n x).
Proof.
  intros Hfit. split_and!; simpl.
  - rewrite length_replicate. apply lookup_singleton_eq.
  - by rewrite length_replicate.
  - done.
  - rewrite length_replicate, Nat.sub_diag, app_nil_r.
    rewrite lookup_singleton_eq. f_equal.
    induction n as [|n IH]; simpl; [done|].
    f_equal. apply IH. revert Hfit. unfold fits. lia.
Qed.

(** C7 as stated fails from index [2 ^ 31] on: in a vector of
    [2 ^ 31 + 1] elements, [Insert(begin() + 2 ^ 31, 9)] and
    [Erase(begin() + 2 ^ 31)] with no fault scheduled are undefined, the
    index being negative as an [int]. *)
Lemma Insert_Erase_narrowing_counterexample :
  heap_ok st_wide ∧
  vec_repr (ET := int_elem) st_wide 0 (Ptr 0 0) wide_size
           (replicate wide_size 0) ∧
  wide_index < length (replicate wide_size 0) ∧
  ¬ has_fault no_faults ∧
  ¬ returns (Insert (ET := int_elem) no_faults 0
               (ptr_add (Ptr 0 0) wide_index) 9 st_wide) ∧
  ¬ returns (Erase (ET := int_elem) no_faults 0
               (ptr_add (Ptr 0 0) wide_index) st_wide).
Proof.
  assert (fits (ET := int_elem) wide_size) as Hfit.
  { unfold fits, wide_size, ptrdiff_max. rewrite N2Nat.id.
    change (N.pos sizeof_T) with 4%N. lia. }
  assert (wide_index < wide_size) as Hlt
    by (unfold wide_index, wide_size; lia).
  assert (2 ^ 31 ≤ Z.of_nat wide_index < 2 ^ 32)%Z as Hint
    by (unfold wide_index; lia).
  assert (fits (ET := int_elem) (grown wide_size)) as Hroom.
  { unfold fits, grown, ptrdiff_max. rewrite decide_False
      by (unfold wide_size; lia).
    change (N.pos sizeof_T) with 4%N. unfold wide_size. lia. }
  unfold st_wide.
  revert Hfit Hlt Hint Hroom. generalize wide_size, wide_index.
  intros n i Hfit Hlt Hint Hroom.
  pose proof (vec_state_full_repr (ET := int_elem) n 0 Hfit) as Hrep.
  assert (length (replicate n 0) = n) as Hlen by apply length_replicate.
  assert (i < length (replicate n 0)) as Hi by (by rewrite Hlen).
  assert (¬ has_fault no_faults) as Hnf by (intros [k Hk]; discriminate Hk).
  split; [apply vec_state_ok|].
  split; [exact Hrep|].
  split; [exact Hi|].
  split; [exact Hnf|].
  split.
  - rewrite (Insert_narrowed_is_undefined (ET := int_elem) no_faults
               _ 0 0 (replicate n 0) i 9 (vec_state_ok _ _ _)).
    + intros (r & s & Hs). discriminate Hs.
    + by rewrite Hlen.
    + exact Hi.
    + exact Hint.
    + exact Hnf.
    + by rewrite Hlen.
  - rewrite (Erase_narrowed_is_undefined (ET := int_elem) no_faults
               _ 0 0 n (replicate n 0) i Hrep Hi Hint).
    intros (r & s & Hs). discriminate Hs.
Qed.

(** Two vectors: [1, 2, 3] with capacity 4 at address 0, and [7] with
    capacity 1 at address 1. *)
Definition st_two : state nat :=
  mkState (<[1 := [Live 7]]> {[0 := [Live 1; Live 2; Live 3; Raw]]})
          (<[1 := mkVector (mkRawMemory (Ptr 1 0) 1) 1]>
             {[0 := mkVector (mkRawMemory (Ptr 0 0) 4) 3]})
          2 0.

Lemma st_two_repr {ET : Element nat} (H : fits 4) :
  vec_repr st_two 0 (Ptr 0 0) 4 [1; 2; 3].
Proof.
  split_and!; simpl; [|lia|done|].
  - rewrite lookup_insert_ne by done. apply lookup_singleton_eq.
  - rewrite lookup_insert_ne by done. apply lookup_singleton_eq.
Qed.

(** Moving the vector at 0 into the vector at 1. *)
Lemma move_assign_transfers_witness :
  ∃ st', Vector_move_assign 1 0 st_two = Ret () st' ∧
         vec_repr (ET := int_elem) st' 1 (Ptr 0 0) 4 [1; 2; 3] ∧
         vec_repr (ET := int_elem) st' 0 Null 0 [] ∧
         size_of st' 0 = Some 0.
Proof.
  apply (move_assign_transfers (ET := int_elem) st_two 1 0
           (mkVector (mkRawMemory (Ptr 1 0) 1) 1) (Ptr 0 0) 4 [1; 2; 3]).
  - lia.
  - simpl. apply lookup_insert_eq.
  - apply st_two_repr, fits_int. lia.
Defined.


(** A copying element type, the full vector [1, 2], and a push whose second
    relocation copy throws (fallible operations 0 to 3 are the allocation,
    the construction of the new element and the two copies). *)
Lemma growth_push_strong_guarantee_witness :
  ∃ s, PushBack (ET := throwing_copy_elem) (fail_at 3) 0 3 st_12 = Throw s ∧
       heap s = heap st_12 ∧ vecs s = vecs st_12 ∧
       vec_repr (ET := throwing_copy_elem) s 0 (Ptr 0 0) 2 [1; 2].
Proof.
  eexists. split; [vm_compute; reflexivity|].
  apply (growth_push_strong_guarantee (ET := throwing_copy_elem) (fail_at 3)
           st_12 0 (Ptr 0 0) 2 [1; 2] 3).
  - apply vec_state_ok.
  - apply st_12_repr, fits_throwing_copy. lia.
  - reflexivity.
  - left. right. reflexivity.
  - left. vm_compute. reflexivity.
Defined.

(** The full vector of handles [Some 1, Some 2]. *)
Definition st_handles : state (option nat) :=
  vec_state [Live (Some 1); Live (Some 2)] 2 2.

(** The same vector once the push has thrown: the first handle is empty. *)
Definition st_handles_thrown : state (option nat) :=
  mkState {[0 := [Live None; Live (Some 2)]]}
          {[0 := mkVector (mkRawMemory (Ptr 0 0) 2) 2]} 2 4.

(** C2 as stated fails for a move-only element type whose move constructor
    throws: the push on the full vector of handles grows, the move of the
    second element throws, and the exception leaves the first element
    moved-from. Size and capacity are unchanged, the element at index 0 is
    not. *)
Lemma growth_push_move_only_counterexample :
  heap_ok st_handles ∧
  vec_repr (ET := move_only_elem) st_handles 0 (Ptr 0 0) 2 [Some 1; Some 2] ∧
  PushBack (ET := move_only_elem) (fail_at 3) 0 (Some 3) st_handles
  = Throw st_handles_thrown ∧
  at_ 0 0 st_handles = Ret (Some 1) st_handles ∧
  at_ 0 0 st_handles_thrown = Ret None st_handles_thrown ∧
  ¬ vec_repr (ET := move_only_elem) st_handles_thrown 0 (Ptr 0 0) 2
      [Some 1; Some 2].
Proof.
  split; [apply vec_state_ok|].
  split.
  { apply (vec_state_repr (ET := move_only_elem) [Some 1; Some 2] 2);
      [simpl; lia|apply fits_move_only; lia]. }
  split; [vm_compute; reflexivity|].
  split; [vm_compute; reflexivity|].
  split; [vm_compute; reflexivity|].
  intros (_ & _ & Hp). simpl in Hp.
  rewrite lookup_singleton_eq in Hp. discriminate Hp.
Qed.

(** Inserting 9 before the second element of [1, 2, 3] (capacity 4) when the
    construction of the temporary throws. *)
Lemma interior_insert_failure_is_undefined_witness :
  Emplace (ET := throwing_copy_elem) (fail_at 0) 0 (Ptr 0 1) 9 st_123 = Undef.
Proof.
  apply (interior_insert_failure_is_undefined (ET := throwing_copy_elem)
           (fail_at 0) st_123 0 (Ptr 0 0) 4 [1; 2; 3] 1 9).
  - apply vec_state_ok.
  - apply st_123_repr, fits_throwing_copy. lia.
  - simpl. lia.
  - simpl. lia.
  - reflexivity.
Defined.

(** An empty vector with capacity 1, reached through the public interface. *)
Definition st_reserved : state nat := mkState {[0 := [Raw]]}
  {[0 := mkVector (mkRawMemory (Ptr 0 0) 1) 0]} 1 1.

(** The same vector after [Emplace(end(), 7)] failed: the block is gone. *)
Definition st_dangling : state nat := mkState ∅
  {[0 := mkVector (mkRawMemory (Ptr 0 0) 1) 0]} 1 2.

(** [1, 2, 3] after [v = std::move(v)]. *)
Definition st_self_moved : state nat :=
  vec_state [Live 1; Live 2; Live 3; Raw] 4 0.

(** C10 as stated fails: after [v = std::move(v)] on [1, 2, 3] the size is
    0, yet the three former elements are read through [operator[]], a
    public member that does not consult the size: they are not
    unreachable. *)
Lemma self_move_elements_reachable_counterexample :
  vec_repr (ET := int_elem) st_123 0 (Ptr 0 0) 4 [1; 2; 3] ∧
  Vector_move_assign 0 0 st_123 = Ret () st_self_moved ∧
  Size 0 st_self_moved = Ret 0 st_self_moved ∧
  at_ 0 0 st_self_moved = Ret 1 st_self_moved ∧
  at_ 0 1 st_self_moved = Ret 2 st_self_moved ∧
  at_ 0 2 st_self_moved = Ret 3 st_self_moved ∧
  ¬ (∀ i x, at_ 0 i st_self_moved ≠ Ret x st_self_moved).
Proof.
  split; [apply st_123_repr, fits_int; lia|].
  split_and!; try (vm_compute; reflexivity).
  intros Hno. apply (Hno 0 1). vm_compute. reflexivity.
Qed.

(** C9. The invariant is broken by two operations called within their
    preconditions. (1) An empty vector with capacity 1, as the default
    constructor and [Reserve(1)] leave it: [Emplace(end(), 7)] whose
    constructor throws. The handler gives the buffer itself to
    [operator delete]; the exception propagates and the vector still refers
    to the released block with capacity 1. (2) [v = std::move(v)] on
    [1, 2, 3]: the size becomes 0 while slots 0 to 2 still hold live
    objects. In both final states no list of elements represents the
    vector. *)
Theorem invariant_broken_by_emplace_and_self_move :
  ((Vector_ctor 0 ;; Reserve (ET := throwing_copy_elem) no_faults 0 1)%cpp
     (mkState ∅ ∅ 0 0) = Ret () st_reserved ∧
   vec_repr (ET := throwing_copy_elem) st_reserved 0 (Ptr 0 0) 1 [] ∧
   Emplace (ET := throwing_copy_elem) (fail_at 1) 0 (Ptr 0 0) 7 st_reserved
   = Throw st_dangling ∧
   ¬ ∃ p cap xs, vec_repr (ET := throwing_copy_elem) st_dangling 0 p cap xs) ∧
  (vec_repr (ET := throwing_copy_elem) st_123 0 (Ptr 0 0) 4 [1; 2; 3] ∧
   Vector_move_assign 0 0 st_123 = Ret () st_self_moved ∧
   ¬ ∃ p cap xs, vec_repr (ET := throwing_copy_elem) st_self_moved 0 p cap xs).
Proof.
  split; split_and!.
  - vm_compute. reflexivity.
  - split_and!; simpl; [apply lookup_singleton_eq|lia| |].
    + apply fits_throwing_copy. lia.
    + apply lookup_singleton_eq.
  - vm_compute. reflexivity.
  - intros (p & cap & xs & Hv & _ & Hp). simpl in *.
    rewrite lookup_singleton_eq in Hv. injection Hv as <- <- _.
    simpl in Hp. by rewrite lookup_empty in Hp.
  - apply st_123_repr, fits_throwing_copy. lia.
  - vm_compute. reflexivity.
  - intros (p & cap & xs & Hv & _ & Hp). simpl in *.
    rewrite lookup_singleton_eq in Hv. injection Hv as <- <- Hlen.
    destruct xs; [|done]. simpl in Hp.
    rewrite lookup_singleton_eq in Hp. discriminate Hp.
Qed.

(** ** Further properties of the container

    The rest of this file covers the member functions that the theorems
    above do not reach: element access, [PopBack], the constructors and the
    destructor, [Swap], copy assignment between two vectors, and how the
    operations compose. *)

Section MoreRules.
Context {T : Type} {ET : Element T}.
Variable plan : nat → bool.
Local Open Scope cpp_scope.

Implicit Types (h : gmap nat (list (slot T))) (v : gmap nat Vector).
Implicit Types (st s : state T).

(** A run with a known result and final state. *)
Lemma spec_eval {A} (m : M T A) st (r : A) s :
  spec m st (λ r' s', r' = r ∧ s' = s) (λ _, False) False → m st = Ret r s.
Proof.
  unfold spec. destruct (m st) as [r' s'|?|]; [|done..]. by intros [-> ->].
Qed.

Lemma spec_lambda {A} (f : state T → outcome T A) st
    (Q : A → state T → Prop) E U :
  match f st with Ret a s => Q a s | Throw s => E s | Undef => U end →
  spec f st Q E U.
Proof. done. Qed.

(** Overwriting an allocated block allocates nothing. *)
Lemma fresh_above_insert h n b l l' :
  h !! b = Some l → (∀ b', n ≤ b' → h !! b' = None) →
  ∀ b', n ≤ b' → <[b := l']> h !! b' = None.
Proof.
  intros Hb Hok b' Hb'. destruct (decide (b = b')) as [->|].
  - rewrite Hok in Hb; done.
  - rewrite lookup_insert_ne by done. by apply Hok.
Qed.

Lemma fresh_above_release h n p :
  (∀ b', n ≤ b' → h !! b' = None) →
  ∀ b', n ≤ b' → release p h !! b' = None.
Proof.
  intros Hok b' Hb'. destruct p as [|b [|o]|]; simpl; try by apply Hok.
  destruct (decide (b = b')) as [->|]; [by rewrite lookup_delete_eq|].
  rewrite lookup_delete_ne by done. by apply Hok.
Qed.

(** A vector with at least one element has a buffer. *)
Lemma buffer_holds_nonempty h p (xs : list T) (tail : list (slot T)) :
  buffer_holds h p (map Live xs ++ tail) → xs ≠ [] → ∃ b, p = Ptr b 0.
Proof.
  destruct p as [|b [|o]|]; simpl; try done; [|by eauto].
  intros [Hxs _]%app_eq_nil Hne. by apply map_eq_nil in Hxs.
Qed.

(** The slots of a vector, read by index. *)
Lemma slots_lookup (xs : list T) cap i :
  (map Live xs ++ replicate (cap - length xs) Raw) !! i
  = match xs !! i with
    | Some x => Some (Live x)
    | None => if decide (i < cap) then Some Raw else None
    end.
Proof.
  destruct (xs !! i) as [x|] eqn:Hx.
  - apply lookup_app_l_Some. by rewrite list_lookup_fmap, Hx.
  - apply lookup_ge_None in Hx.
    rewrite lookup_app_r by (by rewrite length_map).
    rewrite length_map. case_decide.
    + apply lookup_replicate_2. lia.
    + apply lookup_replicate_None. lia.
Qed.

Lemma pop_slots (xs : list T) x cap :
  length (xs ++ [x]) ≤ cap →
  map Live (xs ++ [x]) ++ replicate (cap - length (xs ++ [x])) Raw
  = map Live xs ++ Live x :: replicate (cap - length (xs ++ [x])) Raw
  ∧ map Live xs ++ Raw :: replicate (cap - length (xs ++ [x])) Raw
    = map Live xs ++ replicate (cap - length xs) Raw.
Proof.
  rewrite length_app. simpl. intros Hle. split.
  - by rewrite map_app, <-app_assoc.
  - f_equal. rewrite <-replicate_S. f_equal. lia.
Qed.

Lemma PopBack_spec st a p cap xs x :
  vec_repr st a p cap (xs ++ [x]) →
  spec (PopBack a) st
    (λ _ s, vec_repr s a p cap xs ∧ (heap_ok st → heap_ok s) ∧
            next_block s = next_block st ∧ ticks s = ticks st)
    (λ _, False) False.
Proof.
  destruct st as [h v n k]. intros (Ha & [Hle Hfit] & Hp). simpl in *.
  destruct (pop_slots xs x cap Hle) as [Hl1 Hl2].
  destruct (buffer_holds_nonempty _ _ _ _ Hp) as [b ->]; [by destruct xs|].
  simpl in Hp. rewrite Hl1 in Hp.
  assert (length (xs ++ [x]) = S (length xs)) as Hlen
    by (rewrite length_app; simpl; lia).
  apply spec_bind. eapply GetAddress_spec; [done|]. simpl.
  apply spec_bind. eapply get_size__spec; [done|]. simpl.
  rewrite decide_True by lia.
  apply spec_bind. eapply destroy_at_spec; [done| |].
  { apply seg_lookup. rewrite length_map. lia. }
  rewrite seg_insert by (rewrite length_map; lia). rewrite Hl2.
  eapply set_size__spec; [done|]. simpl.
  split_and!;
    [|intros Hok b' Hb'; eapply fresh_above_insert; [done|exact Hok|done]
     |done..].
  split_and!; simpl.
  - rewrite lookup_insert_eq. do 2 f_equal. lia.
  - lia.
  - done.
  - by rewrite lookup_insert_eq.
Qed.

Lemma Vector_dtor_spec st a p cap xs :
  vec_repr st a p cap xs →
  spec (Vector_dtor a) st
    (λ _ s, heap s = release p (heap st) ∧ vecs s = delete a (vecs st) ∧
            next_block s = next_block st)
    (λ _, False) False.
Proof.
  destruct st as [h v n k]. intros (Ha & Hle & Hp). simpl in *.
  apply spec_bind. eapply load_spec; [done|]. simpl.
  apply spec_bind, spec_bind.
  eapply destroy_n_buffer; [done|].
  eapply RawMemory_dtor_spec.
  - eapply buffer_holds_update; [done|].
    by rewrite !length_app, length_replicate, length_map.
  - rewrite release_update. by apply spec_lambda.
Qed.


(** *** Copies *)

(** Copy assignment between two live objects of different arrays. *)
Lemma T_copy_assign_spec h v n k bs bd sl dl os od x y
    (Q : unit → state T → Prop) E U :
  bs ≠ bd → h !! bs = Some sl → h !! bd = Some dl →
  sl !! os = Some (Live x) → dl !! od = Some (Live y) →
  (∀ k', Q () (mkState (<[bd := <[od := Live x]> dl]> h) v n k')) →
  (has_fault plan → ∀ k', E (mkState h v n k')) →
  spec (T_copy_assign plan (Ptr bd od) (Ptr bs os)) (mkState h v n k) Q E U.
Proof.
  intros Hne Hs Hd Hx Hy HQ HE.
  apply spec_bind. eapply read_spec; [done..|].
  apply spec_bind. eapply read_spec; [done..|].
  apply spec_bind, may_throw_spec; [|done].
  intros k'. eapply store_slot_spec; [done|by eapply lookup_lt_Some|done].
Qed.

(** [std::copy] over live objects: the destination receives the source
    elements; when an assignment throws, the destination still holds as
    many live objects as before. *)
Lemma copy_n_spec xs :
  ∀ ys h v n k bs bd spre spost dpre dpost os od
    (Q : unit → state T → Prop) E U,
    bs ≠ bd → length ys = length xs →
    h !! bs = Some (spre ++ map Live xs ++ spost) →
    h !! bd = Some (dpre ++ map Live ys ++ dpost) →
    os = length spre → od = length dpre →
    (∀ k', Q () (mkState (<[bd := dpre ++ map Live xs ++ dpost]> h) v n k')) →
    (has_fault plan → ∀ k' zs, length zs = length xs →
       E (mkState (<[bd := dpre ++ map Live zs ++ dpost]> h) v n k')) →
    spec (copy_n plan (Ptr bs os) (length xs) (Ptr bd od)) (mkState h v n k) Q E U.
Proof.
  induction xs as [|x xs IH];
    intros [|y ys] h v n k bs bd spre spost dpre dpost os od Q E U
           Hne Hlen Hs Hd Hos Hod HQ HE; try done.
  - simpl in *. apply spec_ret. specialize (HQ k). by rewrite insert_id in HQ.
  - simpl in *. apply spec_bind.
    eapply T_copy_assign_spec;
      [done|done|done|by apply seg_lookup|by apply seg_lookup| |].
    + intros k1. rewrite seg_insert by done.
      apply (IH ys _ v n k1 bs bd (spre ++ [Live x]) spost
                (dpre ++ [Live x]) dpost).
      * done.
      * by injection Hlen.
      * rewrite lookup_insert_ne by done. by rewrite seg_snoc.
      * by rewrite lookup_insert_eq, seg_snoc.
      * by apply length_snoc.
      * by apply length_snoc.
      * intros k2. rewrite insert_insert_eq, seg_snoc. apply HQ.
      * intros Hf k2 zs Hzs. rewrite insert_insert_eq, seg_snoc.
        apply (HE Hf k2 (x :: zs)). simpl. by rewrite Hzs.
    + intros Hf k1. specialize (HE Hf k1 (y :: ys)).
      simpl in HE. rewrite insert_id in HE by done. apply HE. by rewrite Hlen.
Qed.

(** [std::uninitialized_copy_n] from the buffer of a vector into raw slots
    of another block: all or nothing. *)
Lemma uninitialized_copy_n_spec h v n k p bd spre xs spost dpre dpost src od
    (Q : unit → state T → Prop) E U :
  buffer_holds h p (spre ++ map Live xs ++ spost) →
  h !! bd = Some (dpre ++ replicate (length xs) Raw ++ dpost) →
  p ≠ Ptr bd 0 →
  src = ptr_add p (length spre) → od = length dpre →
  (∀ k', Q () (mkState (<[bd := dpre ++ map Live xs ++ dpost]> h) v n k')) →
  (has_fault plan → ∀ k', E (mkState h v n k')) →
  spec (uninitialized_copy_n plan src (length xs) (Ptr bd od))
       (mkState h v n k) Q E U.
Proof.
  intros Hp Hd Hne -> -> HQ HE.
  destruct p as [|bs [|o]|]; simpl in Hp; try done.
  - apply app_eq_nil in Hp as [-> [Hxs ->]%app_eq_nil].
    apply map_eq_nil in Hxs as ->. simpl in *.
    specialize (HQ k). rewrite insert_id in HQ by done. by apply spec_ret.
  - assert (bs ≠ bd) by congruence. simpl ptr_add.
    unfold uninitialized_copy_n.
    eapply (uninitialized_n_spec _ _ _ _ (T_copy_construct_step plan));
      try done.
    + intros k'. rewrite list_fmap_id. specialize (HQ k').
      rewrite insert_id; [done|]. by rewrite lookup_insert_ne.
    + intros Hf _ k' ys ->%left_as_or_id. specialize (HE Hf k').
      by rewrite insert_id.
Qed.

(** *** Two buffers *)

(** Two vectors never share a block. *)
Definition separate (p q : ptr) : Prop := ∀ b, p = Ptr b 0 → q ≠ Ptr b 0.

Lemma separate_sym p q : separate p q → separate q p.
Proof. intros Hpq b -> ->. by eapply Hpq. Qed.

Lemma update_same h p l : buffer_holds h p l → update p l h = h.
Proof.
  destruct p as [|b [|o]|]; simpl; try done. intros Hb. by rewrite insert_id.
Qed.

Lemma buffer_holds_update_other h p q l l' :
  separate p q → buffer_holds h q l' → buffer_holds (update p l h) q l'.
Proof.
  intros Hsep Hq. destruct p as [|b [|o]|]; simpl; try done.
  destruct q as [|b' [|o']|]; simpl in *; try done.
  rewrite lookup_insert_ne; [done|]. intros ->. by eapply Hsep.
Qed.

Lemma buffer_holds_release_other h p q l' :
  separate p q → buffer_holds h q l' → buffer_holds (release p h) q l'.
Proof.
  intros Hsep Hq. destruct p as [|b [|o]|]; simpl; try done.
  destruct q as [|b' [|o']|]; simpl in *; try done.
  rewrite lookup_delete_ne; [done|]. intros ->. by eapply Hsep.
Qed.

Lemma fresh_above_update h n p l l' :
  buffer_holds h p l → (∀ b', n ≤ b' → h !! b' = None) →
  ∀ b', n ≤ b' → update p l' h !! b' = None.
Proof.
  intros Hp Hok. destruct p as [|b [|o]|]; simpl in *; try done.
  by eapply fresh_above_insert.
Qed.

(** [std::copy(first, first + cnt, d_first)] from the live elements of one
    buffer onto the live elements of another. *)
Lemma std_copy_buffers h v n k ps pd xs ys spost dpost cnt
    (Q : unit → state T → Prop) E U :
  buffer_holds h ps (map Live xs ++ spost) →
  buffer_holds h pd (map Live ys ++ dpost) →
  separate ps pd → length ys = length xs → cnt = length xs →
  (∀ k', Q () (mkState (update pd (map Live xs ++ dpost) h) v n k')) →
  (has_fault plan → ∀ k' zs, length zs = length xs →
     E (mkState (update pd (map Live zs ++ dpost) h) v n k')) →
  spec (std_copy plan ps (ptr_add ps cnt) pd) (mkState h v n k) Q E U.
Proof.
  intros Hs Hd Hsep Hlen -> HQ HE. unfold std_copy.
  erewrite ptr_diff_add; [|done|rewrite length_app, length_map; lia].
  destruct xs as [|x xs].
  - destruct ys; [|done]. simpl in *. apply spec_ret.
    specialize (HQ k). by rewrite update_same in HQ.
  - destruct (buffer_holds_nonempty _ _ _ _ Hs) as [bs ->]; [done|].
    destruct (buffer_holds_nonempty _ _ _ _ Hd) as [bd ->]; [by destruct ys|].
    simpl in Hs, Hd.
    eapply (copy_n_spec (x :: xs) ys _ _ _ _ bs bd [] spost [] dpost);
      try done.
    intros ->. by eapply Hsep.
Qed.

(** [std::uninitialized_copy_n] between two buffers, at offsets. *)
Lemma uninitialized_copy_buffers h v n k ps pd spre xs spost dpre dpost
    os od cnt (Q : unit → state T → Prop) E U :
  buffer_holds h ps (spre ++ map Live xs ++ spost) →
  buffer_holds h pd (dpre ++ replicate (length xs) Raw ++ dpost) →
  separate ps pd → os = length spre → od = length dpre → cnt = length xs →
  (∀ k', Q () (mkState (update pd (dpre ++ map Live xs ++ dpost) h) v n k')) →
  (has_fault plan → ∀ k', E (mkState h v n k')) →
  spec (uninitialized_copy_n plan (ptr_add ps os) cnt (ptr_add pd od))
       (mkState h v n k) Q E U.
Proof.
  intros Hs Hd Hsep -> -> -> HQ HE. destruct xs as [|x xs].
  - simpl in *. apply spec_ret. specialize (HQ k).
    by rewrite update_same in HQ.
  - destruct pd as [|bd [|o]|]; cbn [buffer_holds] in Hd; try done.
    { apply app_eq_nil in Hd as [_ Hd]. done. }
    simpl ptr_add.
    eapply uninitialized_copy_n_spec; try done.
    intros ->. by eapply Hsep.
Qed.

(** [std::destroy_n] at an offset of a buffer. *)
Lemma destroy_n_offset h v n k p pre xs post o cnt
    (Q : unit → state T → Prop) E U :
  buffer_holds h p (pre ++ map Live xs ++ post) →
  o = length pre → cnt = length xs →
  Q () (mkState (update p (pre ++ replicate (length xs) Raw ++ post) h) v n k) →
  spec (destroy_n (ptr_add p o) cnt) (mkState h v n k) Q E U.
Proof.
  intros Hp -> -> HQ. destruct xs as [|x xs].
  - simpl in *. apply spec_ret. by rewrite update_same in HQ.
  - destruct p as [|b [|o]|]; cbn [buffer_holds] in Hp; try done.
    { apply app_eq_nil in Hp as [_ Hp]. done. }
    simpl ptr_add. by eapply destroy_n_spec.
Qed.

(** The local copy made by the copy constructor: no block for an empty
    source, else a fresh block of exactly [length xs] slots. *)
Lemma Vector_copy_local_spec h v n k o po capo xs
    (Q : Vector → state T → Prop) E U :
  v !! o = Some (mkVector (mkRawMemory po capo) (length xs)) →
  buffer_holds h po (map Live xs ++ replicate (capo - length xs) Raw) →
  (∀ b, n ≤ b → h !! b = None) → fits (length xs) →
  (xs = [] → Q (mkVector (mkRawMemory Null 0) 0) (mkState h v n k)) →
  (xs ≠ [] → ∀ k',
     Q (mkVector (mkRawMemory (Ptr n 0) (length xs)) (length xs))
       (mkState (<[n := map Live xs]> h) v (S n) k')) →
  (has_fault plan → xs ≠ [] → ∀ k' n', n ≤ n' → E (mkState h v n' k')) →
  spec (Vector_copy_local plan o) (mkState h v n k) Q E U.
Proof.
  intros Ho Hp Hok Hfit HQ0 HQ HE.
  apply spec_bind. eapply load_spec; [done|]. simpl.
  apply spec_bind. destruct xs as [|x xs].
  - unfold RawMemory_ctor, Allocate. simpl.
    apply spec_bind, spec_ret, spec_ret. simpl.
    apply spec_bind, spec_unwinding, spec_ret, spec_ret. by apply HQ0.
  - assert (h !! n = None) as Hn by (by apply Hok).
    apply RawMemory_ctor_fits_spec; [done|done| |by auto].
    intros k1. simpl buffer_. apply spec_bind, spec_unwinding.
    eapply (uninitialized_copy_n_spec _ _ _ _ po n [] (x :: xs) _ [] []).
    + apply buffer_holds_insert_ne; [exact Hp|].
      by eapply buffer_holds_fresh.
    + by rewrite lookup_insert_eq, app_nil_r.
    + by eapply buffer_holds_fresh.
    + destruct po as [|b [|?]|]; simpl in *; done.
    + done.
    + intros k2. rewrite insert_insert_eq. apply spec_ret.
      rewrite app_nil_r. by apply HQ.
    + intros Hf k2. eapply RawMemory_dtor_spec.
      { simpl. by rewrite lookup_insert_eq. }
      simpl. rewrite delete_insert_id by done. apply HE; [done..|lia].
Qed.

Lemma Vector_ctor_copy_spec st a o po capo xs :
  heap_ok st → a ≠ o → vec_repr st o po capo xs →
  spec (Vector_ctor_copy plan a o) st
    (λ _ s,
       heap_ok s ∧ vec_repr s o po capo xs ∧
       vec_repr s a (if decide (xs = []) then Null else Ptr (next_block st) 0)
                (length xs) xs)
    (λ s, has_fault plan ∧ xs ≠ [] ∧ heap s = heap st ∧ vecs s = vecs st)
    False.
Proof.
  destruct st as [h v n k]. intros Hok Hne (Ho & [Hle Hfit] & Hp). simpl in *.
  assert (fits (length xs)) as Hfit' by (by apply (fits_mono _ capo)).
  apply spec_bind. eapply Vector_copy_local_spec; [done..| | |].
  - intros ->. apply store_spec. rewrite decide_True by done.
    split_and!; [done| |].
    + split_and!; simpl; [by rewrite lookup_insert_ne|done..].
    + split_and!; simpl; [by rewrite lookup_insert_eq|done..].
  - intros Hxs k'. apply store_spec. rewrite decide_False by done.
    assert (h !! n = None) as Hn by (by apply Hok).
    split_and!.
    + intros b Hb. simpl in *. rewrite lookup_insert_ne by lia.
      apply Hok. simpl. lia.
    + split_and!; simpl; [by rewrite lookup_insert_ne|done|done|].
      apply buffer_holds_insert_ne; [done|]. by eapply buffer_holds_fresh.
    + split_and!; simpl; [by rewrite lookup_insert_eq|done|done|].
      by rewrite Nat.sub_diag, app_nil_r, lookup_insert_eq.
  - intros Hf Hxs k' n' _. by split_and!.
Qed.

(** The slots of the destination of a copy assignment, cut where the two
    sizes differ. *)
Lemma assign_longer_slots (xso xst : list T) capt :
  length xst ≤ length xso → length xso ≤ capt →
  map Live (take (length xst) xso) ++ replicate (capt - length xst) Raw
  = map Live (take (length xst) xso)
      ++ replicate (length (drop (length xst) xso)) Raw
      ++ replicate (capt - length xso) Raw
  ∧ map Live (take (length xst) xso) ++ map Live (drop (length xst) xso)
      ++ replicate (capt - length xso) Raw
    = map Live xso ++ replicate (capt - length xso) Raw.
Proof.
  intros H1 H2. split.
  - f_equal. rewrite <-replicate_add. f_equal. rewrite length_drop. lia.
  - by rewrite app_assoc, <-map_app, take_drop.
Qed.

Lemma assign_shorter_slots (xso xst : list T) capt :
  length xso < length xst → length xst ≤ capt →
  map Live xst ++ replicate (capt - length xst) Raw
  = map Live (take (length xso) xst)
      ++ map Live (drop (length xso) xst) ++ replicate (capt - length xst) Raw
  ∧ map Live xso ++ replicate (length (drop (length xso) xst)) Raw
      ++ replicate (capt - length xst) Raw
    = map Live xso ++ replicate (capt - length xso) Raw.
Proof.
  intros H1 H2. split.
  - by rewrite app_assoc, <-map_app, take_drop.
  - f_equal. rewrite <-replicate_add. f_equal. rewrite length_drop. lia.
Qed.

Lemma Vector_copy_assign_spec st a o pt capt xst po capo xso :
  heap_ok st → a ≠ o →
  vec_repr st a pt capt xst → vec_repr st o po capo xso → separate pt po →
  spec (Vector_copy_assign plan a o) st
    (λ _ s,
       heap_ok s ∧ vec_repr s o po capo xso ∧
       vec_repr s a
         (if decide (length xso ≤ capt) then pt else Ptr (next_block st) 0)
         (if decide (length xso ≤ capt) then capt else length xso) xso)
    (λ s,
       has_fault plan ∧ heap_ok s ∧ vec_repr s o po capo xso ∧
       if decide (length xso ≤ capt)
       then ∃ zs, length zs = length xst ∧ vec_repr s a pt capt zs
       else heap s = heap st ∧ vecs s = vecs st)
    False.
Proof.
  destruct st as [h v n k].
  intros Hok Hne (Ha & [Hlt Hfitt] & Hpt) (Ho & [Hlo Hfito] & Hpo) Hsep.
  simpl in *.
  assert (fits (length xso)) as Hfit' by (by apply (fits_mono _ capo)).
  unfold Vector_copy_assign. rewrite decide_True by done.
  apply spec_bind. eapply load_spec; [done|].
  apply spec_bind. eapply load_spec; [done|]. simpl.
  (* the in-place results *)
  assert (∀ L zs, length zs ≤ capt →
            L = map Live zs ++ replicate (capt - length zs) Raw →
            heap_ok (mkState (update pt L h) v n k) ∧
            buffer_holds (update pt L h) po
              (map Live xso ++ replicate (capo - length xso) Raw) ∧
            buffer_holds (update pt L h) pt L) as Hin.
  { intros L zs Hzs ->. split_and!.
    - intros b Hb. by eapply fresh_above_update.
    - by apply buffer_holds_update_other.
    - eapply buffer_holds_update; [done|].
      rewrite !length_app, !length_map, !length_replicate. lia. }
  case_decide as Hfit.
  - apply spec_bind. case_decide as Hcmp.
    + destruct (assign_longer_slots xso xst capt) as [Hl1 Hl2]; [done..|].
      assert (length (take (length xst) xso) = length xst) as Htk
        by (rewrite length_take; lia).
      apply spec_bind.
      eapply (std_copy_buffers _ _ _ _ po pt (take (length xst) xso) xst
                (map Live (drop (length xst) xso)
                 ++ replicate (capo - length xso) Raw)
                (replicate (capt - length xst) Raw)).
      * by rewrite app_assoc, <-map_app, take_drop.
      * done.
      * by apply separate_sym.
      * by rewrite Htk.
      * by rewrite Htk.
      * intros k1.
        destruct (Hin _ (take (length xst) xso) ltac:(lia) eq_refl)
          as (_ & Hpo1 & Hpt1).
        rewrite Htk, Hl1 in Hpo1, Hpt1. rewrite Hl1.
        eapply (uninitialized_copy_buffers _ _ _ _ po pt
                  (map Live (take (length xst) xso)) (drop (length xst) xso)
                  (replicate (capo - length xso) Raw)
                  (map Live (take (length xst) xso))).
        -- rewrite (app_assoc _ (map Live (drop (length xst) xso))).
           by rewrite <-map_app, take_drop.
        -- done.
        -- by apply separate_sym.
        -- by rewrite length_map.
        -- by rewrite length_map.
        -- rewrite length_drop. lia.
        -- intros k2. rewrite update_update, Hl2.
           eapply set_size__spec; [done|]. simpl.
           destruct (Hin _ xso ltac:(lia) eq_refl) as (Hok2 & Hpo2 & Hpt2).
           split_and!; [done| |].
           ++ split_and!; simpl; [by rewrite lookup_insert_ne|done..].
           ++ split_and!; simpl; [by rewrite lookup_insert_eq|done..].
        -- intros Hf k2. rewrite <-Hl1.
           destruct (Hin _ (take (length xst) xso) ltac:(lia) eq_refl)
             as (Hok2 & Hpo2 & Hpt2).
           rewrite Htk in Hok2, Hpo2, Hpt2.
           split_and!; [done|done|by split_and!|].
           exists (take (length xst) xso). split; [done|].
           split_and!; simpl; [by rewrite Htk|lia|done|by rewrite Htk].
      * intros Hf k1 zs Hzs. rewrite Htk in Hzs.
        destruct (Hin (map Live zs ++ replicate (capt - length xst) Raw) zs
                    ltac:(lia) ltac:(by rewrite Hzs)) as (Hok2 & Hpo2 & Hpt2).
        split_and!; [done|done|by split_and!|].
        exists zs. split; [done|].
        split_and!; simpl; [by rewrite Hzs|lia|done|by rewrite Hzs].
    + destruct (assign_shorter_slots xso xst capt) as [Hl1 Hl2]; [lia..|].
      assert (length (take (length xso) xst) = length xso) as Htk
        by (rewrite length_take; lia).
      rewrite Hl1 in Hpt.
      apply spec_bind.
      eapply (std_copy_buffers _ _ _ _ po pt xso (take (length xso) xst));
        [done|done|by apply separate_sym|done|done| |].
      * intros k1.
        eapply (destroy_n_offset _ _ _ _ pt (map Live xso)
                  (drop (length xso) xst));
          [|by rewrite length_map|by rewrite length_drop|].
        { eapply buffer_holds_update; [done|].
          by rewrite !length_app, !length_map, Htk. }
        rewrite update_update, Hl2.
        eapply set_size__spec; [done|]. simpl.
        rewrite <-Hl1 in Hpt.
        destruct (Hin _ xso ltac:(lia) eq_refl) as (Hok2 & Hpo2 & Hpt2).
        split_and!; [done| |].
        -- split_and!; simpl; [by rewrite lookup_insert_ne|done..].
        -- split_and!; simpl; [by rewrite lookup_insert_eq|done..].
      * intros Hf k1 zs Hzs.
        assert (length (zs ++ drop (length xso) xst) = length xst) as Hzl.
        { rewrite length_app, length_drop. lia. }
        rewrite <-Hl1 in Hpt.
        destruct (Hin (map Live zs ++ map Live (drop (length xso) xst)
                       ++ replicate (capt - length xst) Raw)
                      (zs ++ drop (length xso) xst) ltac:(lia))
          as (Hok2 & Hpo2 & Hpt2).
        { by rewrite map_app, <-app_assoc, Hzl. }
        split_and!; [done|done|by split_and!|].
        exists (zs ++ drop (length xso) xst). split; [done|].
        split_and!; simpl; [by rewrite Hzl|lia|done|].
        by rewrite map_app, <-app_assoc, Hzl.
  - assert (xso ≠ []) as Hxso by (intros ->; simpl in *; lia).
    assert (h !! n = None) as Hn by (by apply Hok).
    apply spec_bind.
    eapply Vector_copy_local_spec; [done|done|by apply Hok|done|done| |].
    + intros _ k1. apply spec_bind, spec_bind.
      eapply RawMemory_Swap_local_spec; [done|]. simpl.
      apply spec_bind. eapply get_size__spec; [by rewrite lookup_insert_eq|].
      apply spec_bind.
      eapply set_size__spec; [by rewrite lookup_insert_eq|]. simpl.
      rewrite insert_insert_eq. apply spec_ret. apply spec_bind.
      eapply destroy_n_buffer.
      { apply buffer_holds_insert_ne; [done|]. by eapply buffer_holds_fresh. }
      eapply RawMemory_dtor_spec.
      { eapply buffer_holds_update.
        - apply buffer_holds_insert_ne; [done|]. by eapply buffer_holds_fresh.
        - by rewrite !length_app, length_replicate, length_map. }
      rewrite release_update. split_and!.
      * intros b Hb. by apply release_insert_fresh.
      * split_and!; simpl; [by rewrite lookup_insert_ne|done|done|].
        apply buffer_holds_release_other; [done|].
        apply buffer_holds_insert_ne; [done|]. by eapply buffer_holds_fresh.
      * split_and!; simpl; [by rewrite lookup_insert_eq|done|done|].
        erewrite release_insert_lookup; [|done..].
        by rewrite Nat.sub_diag, app_nil_r.
    + intros Hf _ k1 n' Hn'. split_and!; [done| |by split_and!|done..].
      intros b Hb. simpl in *. apply Hok. simpl. lia.
Qed.

(** *** Whole objects *)

Ltac vec_lookup :=
  repeat first [ rewrite lookup_insert_eq | rewrite lookup_insert_ne by done ];
  first [ reflexivity | eassumption ].

Ltac vec_step :=
  first [ apply spec_bind
        | eapply load_spec; [vec_lookup|]
        | apply store_spec
        | apply spec_ret ];
  simpl.

(** [Swap] exchanges the two objects and nothing else. *)
Lemma Swap_eval h v n k a b ta tb :
  a ≠ b → v !! a = Some ta → v !! b = Some tb →
  Swap a b (mkState h v n k)
  = Ret () (mkState h (<[b := ta]> (<[a := tb]> v)) n k).
Proof.
  intros Hne Ha Hb. apply spec_eval.
  unfold Swap, RawMemory_Swap, set_data_, set_size_.
  destruct ta as [[pa ca] na], tb as [[pb cb] nb].
  repeat vec_step. split; [done|]. f_equal.
  apply map_eq. intros j.
  destruct (decide (j = b)) as [->|]; [by vec_lookup|].
  destruct (decide (j = a)) as [->|]; by vec_lookup.
Qed.

Lemma Swap_self_eval st a t :
  vecs st !! a = Some t → Swap a a st = Ret () st.
Proof.
  destruct st as [h v n k]. simpl. intros Ha. apply spec_eval.
  unfold Swap, RawMemory_Swap, set_data_, set_size_.
  destruct t as [[pa ca] na].
  repeat vec_step. split; [done|]. f_equal.
  rewrite !insert_insert_eq. by apply insert_id.
Qed.

Lemma swap_back v a b (ta tb : Vector) :
  v !! a = Some ta → v !! b = Some tb →
  <[b := tb]> (<[a := ta]> (<[b := ta]> (<[a := tb]> v))) = v.
Proof.
  intros Ha Hb. apply map_eq. intros j.
  destruct (decide (j = b)) as [->|]; [by rewrite lookup_insert_eq|].
  rewrite lookup_insert_ne by done.
  destruct (decide (j = a)) as [->|]; [by rewrite lookup_insert_eq|].
  by rewrite !lookup_insert_ne by done.
Qed.

(** The default constructor followed by a move assignment. *)
Lemma Vector_ctor_move_eval st a o to :
  a ≠ o → vecs st !! o = Some to →
  ∃ s, Vector_ctor_move a o st = Ret () s ∧
       heap s = heap st ∧
       vecs s !! a = Some to ∧
       vecs s !! o = Some (mkVector (mkRawMemory Null 0) 0).
Proof.
  intros Hne Ho. unfold Vector_ctor_move.
  destruct (Vector_move_assign_distinct
              (set_vecs (<[a := mkVector (mkRawMemory Null 0) 0]> (vecs st)) st)
              a o (mkVector (mkRawMemory Null 0) 0) to Hne)
    as (s & Hrun & Hh & Ha' & Ho').
  { simpl. by rewrite lookup_insert_eq. }
  { simpl. by rewrite lookup_insert_ne. }
  exists s. by split_and!.
Qed.

End MoreRules.

(** ** The footprint of a member function

    A call on the vector at [a] writes to the object at [a], to the block
    that vector owns and to blocks it allocates itself, and to nothing
    else. The argument needs no knowledge of the contents of the buffers. *)

Definition block_of (p : ptr) : option nat :=
  if p is Ptr b _ then Some b else None.

(** What a call on the vector at [a] leaves alone, between the state [st]
    before and the state [s] after: every other vector object, and every
    block that existed in [st] other than the one holding [a]'s buffer. *)
Definition untouched {T} (st s : state T) (a : nat) : Prop :=
  (∀ o, o ≠ a → vecs s !! o = vecs st !! o) ∧
  (∀ b, b < next_block st → buffer_of st a ≫= block_of ≠ Some b →
        heap s !! b = heap st !! b).

Definition keeps_to {T A} (m : M T A) (a : nat) : Prop :=
  ∀ st, match m st with
        | Ret _ s | Throw s => untouched st s a
        | Undef => True
        end.

Section Footprint.
Context {T : Type} {ET : Element T}.
Variable plan : nat → bool.
Local Open Scope cpp_scope.

(** The call starts in [st0]; [P] marks the blocks the vector at [a] owns
    there. Blocks from [next_block st0] on are allocated during the call. *)
Variables (st0 : state T) (P : nat → Prop) (a : nat).

Definition owns (p : ptr) : Prop :=
  match p with
  | Ptr b _ => P b ∨ next_block st0 ≤ b
  | _ => True
  end.

Definition within (st : state T) : Prop :=
  next_block st0 ≤ next_block st ∧
  (∀ b, b < next_block st0 → ¬ P b → heap st !! b = heap st0 !! b) ∧
  (∀ o, o ≠ a → vecs st !! o = vecs st0 !! o) ∧
  (∀ t, vecs st !! a = Some t → owns (buffer_ (data_ t))).

(** [confined m R]: [m] stays within the footprint, and its result
    satisfies [R]. *)
Definition confined {A} (m : M T A) (R : A → Prop) : Prop :=
  ∀ st, within st →
    match m st with
    | Ret x s => within s ∧ R x
    | Throw s => within s
    | Undef => True
    end.

Lemma owns_ptr_add p n : owns p → owns (ptr_add p n).
Proof. destruct p as [|b i|]; simpl; [by destruct n|done..]. Qed.

Lemma owns_ptr_sub p n : owns p → owns (ptr_sub p n).
Proof.
  destruct p as [|b i|]; simpl; [by destruct n| |done].
  by case_decide.
Qed.

Lemma owns_ptr_offset p z : owns p → owns (ptr_offset p z).
Proof.
  intros Hp. unfold ptr_offset.
  case_decide; [by apply owns_ptr_add|by apply owns_ptr_sub].
Qed.

Lemma within_heap st h :
  within st →
  (∀ b, b < next_block st0 → ¬ P b → h !! b = heap st !! b) →
  within (set_heap h st).
Proof.
  intros (Hn & Hh & Hv & Ha) Hb. split_and!; simpl; try done.
  intros b Hlt HP. rewrite Hb by done. by apply Hh.
Qed.

Lemma confined_ret {A} (x : A) (R : A → Prop) : R x → confined (ret x) R.
Proof. by intros HR st Hst. Qed.

Lemma confined_bind {A B} (m : M T A) (f : A → M T B) R1 R :
  confined m R1 → (∀ x, R1 x → confined (f x) R) → confined (bind m f) R.
Proof.
  intros Hm Hf st Hst. specialize (Hm st Hst). unfold bind.
  destruct (m st) as [x s|s|]; [|done..].
  destruct Hm as [Hs Hx]. by apply Hf.
Qed.

Lemma confined_throw {A} (R : A → Prop) : confined throw R.
Proof. by intros st Hst. Qed.

Lemma confined_undef {A} (R : A → Prop) : confined undef R.
Proof. by intros st Hst. Qed.

Lemma confined_try_catch {A} (m hd : M T A) R :
  confined m R → confined hd R → confined (try_catch m hd) R.
Proof.
  intros Hm Hh st Hst. specialize (Hm st Hst). unfold try_catch.
  destruct (m st) as [x s|s|]; [done| |done]. by apply Hh.
Qed.

Lemma confined_unwinding {A} (m : M T A) (c : M T unit) R :
  confined m R → confined c (λ _, True) → confined (unwinding m c) R.
Proof.
  intros Hm Hc. apply confined_try_catch; [done|].
  eapply confined_bind; [exact Hc|]. intros _ _. apply confined_throw.
Qed.

Lemma confined_mono {A} (m : M T A) (R R' : A → Prop) :
  confined m R → (∀ x, R x → R' x) → confined m R'.
Proof.
  intros Hm HR st Hst. specialize (Hm st Hst).
  destruct (m st) as [x s|s|]; [|done..]. destruct Hm. split; auto.
Qed.

Lemma confined_if {A} (Q : Prop) `{!Decision Q} (m1 m2 : M T A) R :
  confined m1 R → confined m2 R → confined (if decide Q then m1 else m2) R.
Proof. by case_decide. Qed.

Lemma confined_if_bool {A} (c : bool) (m1 m2 : M T A) R :
  confined m1 R → confined m2 R → confined (if c then m1 else m2) R.
Proof. by destruct c. Qed.

(** *** Primitive steps *)

Lemma confined_may_throw : confined (may_throw plan) (λ _, True).
Proof.
  intros st Hst. unfold may_throw. by destruct (plan (ticks st)).
Qed.

Lemma confined_operator_new c : confined (operator_new plan c) owns.
Proof.
  intros st (Hn & Hh & Hv & Ha). unfold operator_new.
  case_decide; [done|]. unfold bind, may_throw.
  destruct (plan (ticks st)); simpl; [done|].
  split; [|right; lia].
  split_and!; simpl; [lia| |done..].
  intros b Hlt HP. rewrite lookup_insert_ne by lia. by apply Hh.
Qed.

Lemma confined_operator_delete p :
  owns p → confined (operator_delete p) (λ _, True).
Proof.
  intros Hp st Hst. unfold operator_delete.
  destruct p as [|b [|i]|]; [done| |done..].
  destruct (heap st !! b); [|done]. split; [|done].
  apply within_heap; [done|]. intros b' Hlt HP.
  apply lookup_delete_ne. intros ->. destruct Hp; [done|lia].
Qed.

Lemma confined_load_slot p : confined (load_slot p) (λ _, True).
Proof.
  intros st Hst. unfold load_slot. destruct p as [|b i|]; [done| |done].
  by destruct (heap st !! b ≫= (.!! i)).
Qed.

Lemma confined_store_slot p s :
  owns p → confined (store_slot p s) (λ _, True).
Proof.
  intros Hp st Hst. unfold store_slot. destruct p as [|b i|]; [done| |done].
  destruct (heap st !! b) as [l|]; [|done]. case_decide; [|done].
  split; [|done]. apply within_heap; [done|]. intros b' Hlt HP.
  apply lookup_insert_ne. intros ->. destruct Hp; [done|lia].
Qed.

Lemma confined_read p : confined (read p) (λ _, True).
Proof.
  eapply confined_bind; [apply confined_load_slot|]. intros [|x] _.
  - apply confined_undef.
  - by apply confined_ret.
Qed.

Lemma confined_load : confined (load a) (λ t, owns (buffer_ (data_ t))).
Proof.
  intros st Hst. unfold load. destruct (vecs st !! a) as [t|] eqn:Ht; [|done].
  split; [done|]. by apply Hst.
Qed.


Lemma confined_store t :
  owns (buffer_ (data_ t)) → confined (store a t) (λ _, True).
Proof.
  intros Ht st (Hn & Hh & Hv & Ha). split; [|done].
  split_and!; simpl; [done..| |].
  - intros o Ho. rewrite lookup_insert_ne by done. by apply Hv.
  - intros t'. rewrite lookup_insert_eq. by intros [= <-].
Qed.

Ltac confine :=
  repeat first
    [ eassumption
    | exact I
    | apply owns_ptr_add
    | apply owns_ptr_sub
    | apply owns_ptr_offset
    | apply confined_ret
    | apply confined_throw
    | apply confined_undef
    | apply confined_may_throw
    | apply confined_operator_new
    | apply confined_operator_delete
    | apply confined_load_slot
    | apply confined_store_slot
    | apply confined_read
    | apply confined_load
    | apply confined_store
    | apply confined_if
    | apply confined_if_bool
    | apply confined_unwinding
    | apply confined_try_catch
    | eapply confined_bind; [|intros ? ?] ];
  simpl; try exact I.

(** *** Element operations and algorithms *)

Lemma confined_destroy_at p : owns p → confined (destroy_at p) (λ _, True).
Proof. intros Hp. unfold destroy_at. confine. Qed.

Lemma confined_construct p x : owns p → confined (construct plan p x) (λ _, True).
Proof. intros Hp. unfold construct. confine. Qed.

Lemma confined_T_value_construct p :
  owns p → confined (T_value_construct plan p) (λ _, True).
Proof. intros Hp. unfold T_value_construct. confine. Qed.

Lemma confined_T_copy_construct d s :
  owns d → confined (T_copy_construct plan d s) (λ _, True).
Proof. intros Hd. unfold T_copy_construct. confine. Qed.

Lemma confined_T_move_construct d s :
  owns d → owns s → confined (T_move_construct plan d s) (λ _, True).
Proof. intros Hd Hs. unfold T_move_construct. confine. Qed.

Lemma confined_T_copy_assign d s :
  owns d → confined (T_copy_assign plan d s) (λ _, True).
Proof. intros Hd. unfold T_copy_assign. confine. Qed.

Lemma confined_T_move_assign d s :
  owns d → owns s → confined (T_move_assign plan d s) (λ _, True).
Proof. intros Hd Hs. unfold T_move_assign. confine. Qed.

Lemma confined_T_move_assign_temp d x :
  owns d → confined (T_move_assign_temp plan d x) (λ _, True).
Proof. intros Hd. unfold T_move_assign_temp. confine. Qed.

Lemma confined_uninitialized_copy_n s c d :
  owns d → confined (uninitialized_copy_n plan s c d) (λ _, True).
Proof.
  unfold uninitialized_copy_n. revert s d.
  induction c as [|c IH]; intros s d Hd; simpl; [by apply confined_ret|].
  eapply confined_bind; [by apply confined_T_copy_construct|]. intros _ _.
  apply confined_unwinding; [|by apply confined_destroy_at].
  apply IH. by apply owns_ptr_add.
Qed.

Lemma confined_uninitialized_move_n s c d :
  owns s → owns d → confined (uninitialized_move_n plan s c d) (λ _, True).
Proof.
  unfold uninitialized_move_n. revert s d.
  induction c as [|c IH]; intros s d Hs Hd; simpl; [by apply confined_ret|].
  eapply confined_bind; [by apply confined_T_move_construct|]. intros _ _.
  apply confined_unwinding; [|by apply confined_destroy_at].
  apply IH; by apply owns_ptr_add.
Qed.

Lemma confined_relocate_n s c d :
  owns s → owns d → confined (relocate_n plan s c d) (λ _, True).
Proof.
  intros Hs Hd. unfold relocate_n. apply confined_if_bool.
  - by apply confined_uninitialized_move_n.
  - by apply confined_uninitialized_copy_n.
Qed.

Lemma confined_uninitialized_value_construct_n p c :
  owns p → confined (uninitialized_value_construct_n plan p c) (λ _, True).
Proof.
  revert p. induction c as [|c IH]; intros p Hp; simpl; [by apply confined_ret|].
  eapply confined_bind; [by apply confined_T_value_construct|]. intros _ _.
  apply confined_unwinding; [|by apply confined_destroy_at].
  apply IH. by apply owns_ptr_add.
Qed.

Lemma confined_destroy_n p c : owns p → confined (destroy_n p c) (λ _, True).
Proof.
  revert p. induction c as [|c IH]; intros p Hp; simpl; [by apply confined_ret|].
  eapply confined_bind; [by apply confined_destroy_at|]. intros _ _.
  apply IH. by apply owns_ptr_add.
Qed.

Lemma confined_std_copy f l d :
  owns d → confined (std_copy plan f l d) (λ _, True).
Proof.
  intros Hd. unfold std_copy.
  destruct (ptr_diff l f) as [c|]; [|apply confined_undef].
  revert f d Hd. induction c as [|c IH]; intros f d Hd; simpl;
    [by apply confined_ret|].
  eapply confined_bind; [by apply confined_T_copy_assign|]. intros _ _.
  apply IH. by apply owns_ptr_add.
Qed.

Lemma confined_std_move f l d :
  owns f → owns d → confined (std_move plan f l d) (λ _, True).
Proof.
  intros Hf Hd. unfold std_move.
  destruct (ptr_diff l f) as [c|]; [|apply confined_undef].
  revert f d Hf Hd. induction c as [|c IH]; intros f d Hf Hd; simpl;
    [by apply confined_ret|].
  eapply confined_bind; [by apply confined_T_move_assign|]. intros _ _.
  apply IH; by apply owns_ptr_add.
Qed.

Lemma confined_std_move_backward f l d :
  owns l → owns d → confined (std_move_backward plan f l d) (λ _, True).
Proof.
  intros Hl Hd. unfold std_move_backward.
  destruct (ptr_diff l f) as [c|]; [|apply confined_undef].
  clear f. revert l d Hl Hd. induction c as [|c IH]; intros l d Hl Hd; simpl;
    [by apply confined_ret|].
  eapply confined_bind;
    [by apply confined_T_move_assign; apply owns_ptr_sub|]. intros _ _.
  apply IH; by apply owns_ptr_sub.
Qed.

(** *** Members *)

Lemma confined_get_size_ : confined (get_size_ a) (λ _, True).
Proof. unfold get_size_. confine. Qed.

Lemma confined_set_size_ n : confined (set_size_ a n) (λ _, True).
Proof. unfold set_size_. confine. Qed.

Lemma confined_GetAddress : confined (GetAddress a) owns.
Proof. unfold GetAddress. confine. Qed.

Lemma confined_end_ : confined (end_ a) owns.
Proof.
  unfold end_. eapply confined_bind; [apply confined_GetAddress|].
  intros b Hb. eapply confined_bind; [apply confined_get_size_|].
  intros n _. apply confined_ret. by apply owns_ptr_add.
Qed.

Lemma confined_RawMemory_ctor c :
  confined (RawMemory_ctor plan c) (λ r, owns (buffer_ r)).
Proof.
  unfold RawMemory_ctor, Allocate.
  eapply confined_bind; [|intros p Hp; apply confined_ret; exact Hp].
  apply confined_if; [apply confined_operator_new|by apply confined_ret].
Qed.

Lemma confined_RawMemory_dtor r :
  owns (buffer_ r) → confined (RawMemory_dtor r) (λ _, True).
Proof. intros Hr. by apply confined_operator_delete. Qed.

Lemma confined_RawMemory_Swap_local r :
  owns (buffer_ r) →
  confined (RawMemory_Swap_local a r) (λ r', owns (buffer_ r')).
Proof.
  intros Hr. unfold RawMemory_Swap_local, set_data_.
  eapply confined_bind; [apply confined_load|]. intros t Ht.
  eapply confined_bind; [|intros _ _; apply confined_ret; exact Ht].
  eapply confined_bind; [apply confined_load|]. intros t' _.
  by apply confined_store.
Qed.

Ltac confine_members :=
  repeat first
    [ eassumption
    | exact I
    | apply owns_ptr_add
    | apply owns_ptr_sub
    | apply owns_ptr_offset
    | apply confined_ret
    | apply confined_throw
    | apply confined_undef
    | apply confined_may_throw
    | apply confined_operator_delete
    | apply confined_load
    | apply confined_get_size_
    | apply confined_set_size_
    | apply confined_GetAddress
    | apply confined_end_
    | apply confined_RawMemory_ctor
    | apply confined_RawMemory_dtor
    | apply confined_RawMemory_Swap_local
    | apply confined_construct
    | apply confined_destroy_at
    | apply confined_destroy_n
    | apply confined_relocate_n
    | apply confined_uninitialized_copy_n
    | apply confined_uninitialized_value_construct_n
    | apply confined_T_move_construct
    | apply confined_T_move_assign_temp
    | apply confined_std_copy
    | apply confined_std_move
    | apply confined_std_move_backward
    | apply confined_if
    | apply confined_unwinding
    | apply confined_try_catch
    | eapply confined_bind; [|intros ? ?] ];
  simpl; try exact I.



Lemma confined_PushBack x : confined (PushBack plan a x) (λ _, True).
Proof. unfold PushBack. confine_members. Qed.









Lemma confined_Vector_ctor : confined (Vector_ctor a) (λ _, True).
Proof. unfold Vector_ctor. by apply confined_store. Qed.

Lemma confined_Vector_dtor : confined (Vector_dtor a) (λ _, True).
Proof.
  unfold Vector_dtor, Vector_dtor_local.
  eapply confined_bind; [apply confined_load|]. intros t Ht.
  eapply confined_bind.
  { eapply confined_bind; [by apply confined_destroy_n|].
    intros _ _. by apply confined_RawMemory_dtor. }
  intros _ _ st (Hn & Hh & Hv & Ha). split; [|done].
  split_and!; simpl; [done..| |].
  - intros o Ho. rewrite lookup_delete_ne by done. by apply Hv.
  - intros t'. by rewrite lookup_delete_eq.
Qed.


End Footprint.

(** The state in which a call ends, by return or by exception. *)
Definition final {T A} (o : outcome T A) : option (state T) :=
  match o with
  | Ret _ s | Throw s => Some s
  | Undef => None
  end.

Section Isolation.
Context {T : Type} {ET : Element T}.
Variable plan : nat → bool.
Local Open Scope cpp_scope.


Lemma keeps_to_final {A} (m : M T A) a st s :
  keeps_to m a → final (m st) = Some s → untouched st s a.
Proof.
  intros H Hs. specialize (H st).
  destruct (m st) as [x s'|s'|]; simpl in Hs; by simplify_eq.
Qed.

(** A vector with an object and a buffer of its own is not affected by what
    stays within the footprint of another. *)
Lemma vec_repr_untouched (st s : state T) a pa capa ys o po capo xs :
  heap_ok st → o ≠ a →
  vec_repr st a pa capa ys → vec_repr st o po capo xs → separate pa po →
  untouched st s a → vec_repr s o po capo xs.
Proof.
  intros Hok Hne (Ha & _ & Hpa) (Ho & [Hlen Hfit] & Hpo) Hsep [Hv Hh].
  split_and!; [by rewrite Hv|done|done|].
  destruct po as [|b [|i]|]; simpl in *; [done| |done..].
  rewrite Hh; [done| |].
  - destruct (decide (b < next_block st)) as [|Hge]; [done|].
    rewrite Hok in Hpo by lia. done.
  - unfold buffer_of. rewrite Ha. simpl.
    destruct pa as [|b' [|i']|]; simpl in *; [done| |done..].
    intros [= ->]. by apply (Hsep b).
Qed.

End Isolation.

(** ** Accounting of blocks

    Element operations and the algorithms over ranges neither allocate nor
    release, and do not touch the vector objects. *)

Definition blocks (p : ptr) : gset nat :=
  if p is Ptr b _ then {[b]} else ∅.


Section Blocks.
Context {T : Type} {ET : Element T}.
Variable plan : nat → bool.
Local Open Scope cpp_scope.

Definition same_blocks (st s : state T) : Prop :=
  vecs s = vecs st ∧ next_block s = next_block st ∧
  dom (heap s) = dom (heap st).

Definition steady {A} (m : M T A) : Prop :=
  ∀ st, match m st with
        | Ret _ s | Throw s => same_blocks st s
        | Undef => True
        end.

Lemma same_blocks_refl st : same_blocks st st.
Proof. done. Qed.

Lemma same_blocks_trans st s1 s2 :
  same_blocks st s1 → same_blocks s1 s2 → same_blocks st s2.
Proof.
  intros (Hv & Hn & Hd) (Hv' & Hn' & Hd'). split_and!; congruence.
Qed.

Lemma steady_ret {A} (x : A) : steady (ret x).
Proof. intros st. apply same_blocks_refl. Qed.

Lemma steady_throw {A} : steady (throw (A := A)).
Proof. intros st. apply same_blocks_refl. Qed.

Lemma steady_undef {A} : steady (undef (A := A)).
Proof. by intros st. Qed.

Lemma steady_bind {A B} (m : M T A) (f : A → M T B) :
  steady m → (∀ x, steady (f x)) → steady (bind m f).
Proof.
  intros Hm Hf st. specialize (Hm st). unfold bind.
  destruct (m st) as [x s|s|]; [|done..].
  specialize (Hf x s). destruct (f x s); [| |done];
    by eapply same_blocks_trans.
Qed.

Lemma steady_try_catch {A} (m hd : M T A) :
  steady m → steady hd → steady (try_catch m hd).
Proof.
  intros Hm Hh st. specialize (Hm st). unfold try_catch.
  destruct (m st) as [x s|s|]; [done| |done].
  specialize (Hh s). destruct (hd s); [| |done];
    by eapply same_blocks_trans.
Qed.

Lemma steady_unwinding {A} (m : M T A) (c : M T unit) :
  steady m → steady c → steady (unwinding m c).
Proof.
  intros Hm Hc. apply steady_try_catch; [done|].
  apply steady_bind; [done|]. intros _. apply steady_throw.
Qed.

Lemma steady_if_bool {A} (c : bool) (m1 m2 : M T A) :
  steady m1 → steady m2 → steady (if c then m1 else m2).
Proof. by destruct c. Qed.

Lemma steady_may_throw : steady (may_throw plan).
Proof. intros st. unfold may_throw. by destruct (plan (ticks st)). Qed.

Lemma steady_load_slot p : steady (load_slot p).
Proof.
  intros st. unfold load_slot. destruct p as [|b i|]; [done| |done].
  by destruct (heap st !! b ≫= (.!! i)).
Qed.

Lemma steady_store_slot p s : steady (store_slot p s).
Proof.
  intros st. unfold store_slot. destruct p as [|b i|]; [done| |done].
  destruct (heap st !! b) as [l|] eqn:Hb; [|done]. case_decide; [|done].
  split_and!; simpl; [done..|]. by apply dom_insert_lookup_L.
Qed.

Lemma steady_read p : steady (read p).
Proof.
  apply steady_bind; [apply steady_load_slot|]. intros [|x].
  - apply steady_undef.
  - apply steady_ret.
Qed.

Ltac steadily :=
  repeat first
    [ apply steady_ret
    | apply steady_throw
    | apply steady_undef
    | apply steady_may_throw
    | apply steady_load_slot
    | apply steady_store_slot
    | apply steady_read
    | apply steady_if_bool
    | apply steady_unwinding
    | apply steady_try_catch
    | apply steady_bind; [|intros ?] ].

Lemma steady_destroy_at p : steady (destroy_at p).
Proof. unfold destroy_at. steadily. Qed.

Lemma steady_construct p x : steady (construct plan p x).
Proof. unfold construct. steadily. Qed.

Lemma steady_T_copy_construct d s : steady (T_copy_construct plan d s).
Proof. unfold T_copy_construct. steadily. Qed.

Lemma steady_T_move_construct d s : steady (T_move_construct plan d s).
Proof. unfold T_move_construct. steadily. Qed.

Lemma steady_uninitialized_n step s c d :
  (∀ d s, steady (step d s)) → steady (uninitialized_n step s c d).
Proof.
  intros Hstep. revert s d.
  induction c as [|c IH]; intros s d; simpl; [apply steady_ret|].
  apply steady_bind; [done|]. intros _.
  apply steady_unwinding; [done|apply steady_destroy_at].
Qed.

Lemma steady_relocate_n s c d : steady (relocate_n plan s c d).
Proof.
  unfold relocate_n, uninitialized_move_n, uninitialized_copy_n.
  apply steady_if_bool; apply steady_uninitialized_n.
  - apply steady_T_move_construct.
  - apply steady_T_copy_construct.
Qed.

Lemma steady_destroy_n p c : steady (destroy_n p c).
Proof.
  revert p. induction c as [|c IH]; intros p; simpl; [apply steady_ret|].
  apply steady_bind; [apply steady_destroy_at|done].
Qed.

Lemma steady_spec {A} (m : M T A) st (Q : A → state T → Prop) E :
  steady m →
  (∀ r s, same_blocks st s → Q r s) → (∀ s, same_blocks st s → E s) →
  spec m st Q E True.
Proof.
  intros Hm HQ HE. specialize (Hm st). unfold spec.
  destruct (m st) as [r s|s|]; auto.
Qed.

(** Destruction is not a source of exceptions. *)
Lemma destroy_at_no_throw p (st s : state T) : destroy_at p st ≠ Throw s.
Proof.
  unfold destroy_at, read, bind, load_slot, store_slot, ret, undef.
  destruct p as [|b i|]; [done| |done].
  destruct (heap st !! b ≫= (.!! i)) as [[|x]|]; [done| |done].
  destruct (heap st !! b); [|done]. by case_decide.
Qed.

Lemma destroy_n_no_throw p c (st s : state T) : destroy_n p c st ≠ Throw s.
Proof.
  revert p st. induction c as [|c IH]; intros p st; simpl; [done|].
  unfold bind. pose proof (destroy_at_no_throw p st) as Hd.
  destruct (destroy_at p st) as [[] s1|s1|]; [apply IH|by destruct (Hd s1)|done].
Qed.

Lemma steady_spec_no_throw {A} (m : M T A) st (Q : A → state T → Prop) E :
  steady m → (∀ s, m st ≠ Throw s) →
  (∀ r s, same_blocks st s → Q r s) →
  spec m st Q E True.
Proof.
  intros Hm Hn HQ. specialize (Hm st). unfold spec.
  destruct (m st) as [r s|s|]; [auto|by destruct (Hn s)|done].
Qed.

(** Replacing the buffer of the vector at [a] by a new block of capacity
    [c] that [body] fills: when this returns, one block has been
    allocated and the former block released, and the vector object refers
    to the new block; when it throws, the allocated blocks and the vector
    objects are those before. *)
Lemma grow_accounts (body : RawMemory → M T unit) st a p cap sz c :
  (∀ nd, steady (body nd)) → c ≠ 0 →
  heap_ok st →
  vecs st !! a = Some (mkVector (mkRawMemory p cap) sz) →
  spec (new_data ← RawMemory_ctor plan c;
        unwinding (body new_data) (RawMemory_dtor new_data) ;;
        destroy_n p sz ;;
        new_data' ← RawMemory_Swap_local a new_data;
        RawMemory_dtor new_data')
       st
       (λ _ s, dom (heap s) = ({[next_block st]} ∪ dom (heap st)) ∖ blocks p ∧
               vecs s = <[a := mkVector (mkRawMemory (Ptr (next_block st) 0) c) sz]>
                          (vecs st))
       (λ s, dom (heap s) = dom (heap st) ∧ vecs s = vecs st)
       True.
Proof.
  intros Hbody Hc Hok Ha. destruct st as [h v n k]. simpl in *.
  assert (n ∉ dom h) as Hn by (apply not_elem_of_dom, Hok; simpl; lia).
  apply spec_bind. unfold RawMemory_ctor, Allocate.
  rewrite decide_True by done. apply spec_bind. unfold operator_new.
  case_decide; [by unfold spec, throw|].
  apply spec_bind. apply may_throw_spec; [|done]. intros k1.
  apply spec_lambda. simpl. apply spec_ret. simpl.
  apply spec_bind, spec_unwinding.
  apply steady_spec; [done| |].
  - intros [] s1 (Hv1 & Hn1 & Hd1). simpl in *.
    apply spec_bind.
    apply steady_spec_no_throw;
      [apply steady_destroy_n|apply destroy_n_no_throw|].
    intros [] s2 (Hv2 & Hn2 & Hd2). destruct s2 as [h2 v2 n2 k2]. simpl in *.
    assert (v2 = v) as -> by congruence.
    apply spec_bind. unfold RawMemory_Swap_local, set_data_.
    apply spec_bind. eapply load_spec; [exact Ha|].
    apply spec_bind, spec_bind. eapply load_spec; [exact Ha|].
    apply store_spec. simpl. apply spec_ret. simpl.
    unfold spec, RawMemory_dtor, Deallocate, operator_delete. simpl.
    rewrite dom_insert_L in Hd1.
    destruct p as [|b [|o]|]; simpl;
      [by rewrite Hd2, Hd1, difference_empty_L| |done..].
    destruct (h2 !! b) eqn:Hb; [|done]. simpl.
    by rewrite dom_delete_L, Hd2, Hd1.
  - intros s1 (Hv1 & Hn1 & Hd1). simpl in *.
    unfold spec, RawMemory_dtor, Deallocate, operator_delete. simpl.
    destruct (heap s1 !! n) eqn:Hb; [|done]. simpl. split; [|done].
    rewrite dom_delete_L, Hd1, dom_insert_L.
    rewrite difference_union_distr_l_L, difference_diag_L, union_empty_l_L.
    by apply difference_disjoint_L, disjoint_singleton_r.
Qed.

Lemma grow_blocks (body : RawMemory → M T unit) st a p cap sz c :
  (∀ nd, steady (body nd)) → c ≠ 0 →
  heap_ok st →
  vecs st !! a = Some (mkVector (mkRawMemory p cap) sz) →
  spec (new_data ← RawMemory_ctor plan c;
        unwinding (body new_data) (RawMemory_dtor new_data) ;;
        destroy_n p sz ;;
        new_data' ← RawMemory_Swap_local a new_data;
        RawMemory_dtor new_data')
       st
       (λ _ s, dom (heap s) = ({[next_block st]} ∪ dom (heap st)) ∖ blocks p)
       (λ s, dom (heap s) = dom (heap st))
       True.
Proof.
  intros Hbody Hc Hok Ha.
  eapply spec_mono; [by apply (grow_accounts body st a p cap sz c)| | |done].
  - by intros _ s [? _].
  - by intros s [? _].
Qed.

(** The steps that only read or write the vector object leave the heap
    alone and do not throw. *)
Definition heap_fixed {A} (m : M T A) : Prop :=
  ∀ st, match m st with
        | Ret _ s => heap s = heap st
        | Throw _ => False
        | Undef => True
        end.

Lemma heap_fixed_ret {A} (x : A) : heap_fixed (ret x).
Proof. by intros st. Qed.

Lemma heap_fixed_bind {A B} (m : M T A) (f : A → M T B) :
  heap_fixed m → (∀ x, heap_fixed (f x)) → heap_fixed (bind m f).
Proof.
  intros Hm Hf st. specialize (Hm st). unfold bind.
  destruct (m st) as [x s|s|]; [|done..].
  specialize (Hf x s). destruct (f x s); [congruence|done..].
Qed.

Lemma heap_fixed_load a : heap_fixed (load a).
Proof. intros st. unfold load. by destruct (vecs st !! a). Qed.

Lemma heap_fixed_store a t : heap_fixed (store a t).
Proof. by intros st. Qed.

Ltac heap_fixedly :=
  repeat first
    [ apply heap_fixed_ret
    | apply heap_fixed_load
    | apply heap_fixed_store
    | apply heap_fixed_bind; [|intros ?] ].

Lemma heap_fixed_spec {A} (m : M T A) st (Q : A → state T → Prop) E :
  heap_fixed m → (∀ r s, heap s = heap st → Q r s) → spec m st Q E True.
Proof.
  intros Hm HQ. specialize (Hm st). unfold spec.
  destruct (m st) as [r s|s|]; [auto|done..].
Qed.

Lemma Reserve_blocks st a p cap sz c :
  heap_ok st →
  vecs st !! a = Some (mkVector (mkRawMemory p cap) sz) →
  spec (Reserve plan a c) st
       (λ _ s, dom (heap s)
               = if decide (c ≤ cap) then dom (heap st)
                 else ({[next_block st]} ∪ dom (heap st)) ∖ blocks p)
       (λ s, dom (heap s) = dom (heap st))
       True.
Proof.
  intros Hok Ha. unfold Reserve. apply spec_bind.
  destruct st as [h v n k]. eapply load_spec; [exact Ha|]. simpl.
  case_decide; [by apply spec_ret|].
  apply (grow_blocks (λ nd, relocate_n plan p sz (buffer_ nd))
           (mkState h v n k) a p cap sz c); [|lia|done..].
  intros nd. apply steady_relocate_n.
Qed.

(** The part [PushBack], [EmplaceBack] share. *)
Lemma append_blocks st a p cap sz x :
  heap_ok st →
  vecs st !! a = Some (mkVector (mkRawMemory p cap) sz) →
  spec (if decide (cap = sz) then
          new_data ← RawMemory_ctor plan (grown sz);
          unwinding (construct plan (ptr_add (buffer_ new_data) sz) x ;;
                     relocate_n plan p sz (buffer_ new_data))
                    (RawMemory_dtor new_data) ;;
          destroy_n p sz ;;
          new_data' ← RawMemory_Swap_local a new_data;
          RawMemory_dtor new_data'
        else construct plan (ptr_add p sz) x)
       st
       (λ _ s, dom (heap s)
               = if decide (cap = sz)
                 then ({[next_block st]} ∪ dom (heap st)) ∖ blocks p
                 else dom (heap st))
       (λ s, dom (heap s) = dom (heap st))
       True.
Proof.
  intros Hok Ha. case_decide.
  - apply (grow_blocks
             (λ nd, construct plan (ptr_add (buffer_ nd) sz) x ;;
                    relocate_n plan p sz (buffer_ nd))
             st a p cap sz (grown sz)); [| |done..].
    + intros nd. apply steady_bind; [apply steady_construct|].
      intros _. apply steady_relocate_n.
    + pose proof (grown_gt sz). lia.
  - apply steady_spec; [apply steady_construct|..];
      by intros; match goal with H : same_blocks _ _ |- _ => destruct H as (_ & _ & ?) end.
Qed.

Lemma PushBack_blocks st a p cap sz x :
  heap_ok st →
  vecs st !! a = Some (mkVector (mkRawMemory p cap) sz) →
  spec (PushBack plan a x) st
       (λ _ s, dom (heap s)
               = if decide (cap = sz)
                 then ({[next_block st]} ∪ dom (heap st)) ∖ blocks p
                 else dom (heap st))
       (λ s, dom (heap s) = dom (heap st))
       True.
Proof.
  intros Hok Ha. unfold PushBack. apply spec_bind.
  destruct st as [h v n k]. eapply load_spec; [exact Ha|]. simpl.
  apply spec_bind.
  eapply spec_mono; [by apply (append_blocks (mkState h v n k) a p cap sz x)
                    |simpl|done..].
  intros [] s1 Hs1. apply heap_fixed_spec.
  - unfold get_size_, set_size_. heap_fixedly.
  - intros r s ->. done.
Qed.

Lemma EmplaceBack_blocks st a p cap sz x :
  heap_ok st →
  vecs st !! a = Some (mkVector (mkRawMemory p cap) sz) →
  spec (EmplaceBack plan a x) st
       (λ _ s, dom (heap s)
               = if decide (cap = sz)
                 then ({[next_block st]} ∪ dom (heap st)) ∖ blocks p
                 else dom (heap st))
       (λ s, dom (heap s) = dom (heap st))
       True.
Proof.
  intros Hok Ha. unfold EmplaceBack. apply spec_bind.
  destruct st as [h v n k]. eapply load_spec; [exact Ha|]. simpl.
  apply spec_bind.
  eapply spec_mono; [by apply (append_blocks (mkState h v n k) a p cap sz x)
                    |simpl|done..].
  intros [] s1 Hs1. apply heap_fixed_spec.
  - unfold GetAddress, get_size_, set_size_. heap_fixedly.
  - intros r s ->. done.
Qed.


(** *** Insertion at any position

    What [Emplace] does to the vector object and to the set of allocated
    blocks does not depend on the position it is given, nor on the
    contents of the buffer. *)





End Blocks.


(** ** The growth policy *)

Section Growth.
Context {T : Type} {ET : Element T}.
Variable plan : nat → bool.




End Growth.


(** ** Properties of the member functions *)

Section Members.
Context {T : Type} {ET : Element T}.
Variable plan : nat → bool.
Local Open Scope cpp_scope.


Lemma spec_total {A} (m : M T A) st (Q : A → state T → Prop) :
  spec m st Q (λ _, False) False → ∃ r s, m st = Ret r s ∧ Q r s.
Proof. unfold spec. destruct (m st) as [r s|s|]; [by eauto|done..]. Qed.

(** Reading the slot [i] of a vector's buffer. *)
Lemma read_slot (st : state T) a p cap xs i :
  vec_repr st a p cap xs →
  read (ptr_add p i) st
  = match xs !! i with Some x => Ret x st | None => Undef end.
Proof.
  intros (Ha & Hlen & Hbuf). unfold read, bind, load_slot.
  destruct p as [|b [|o]|]; simpl in Hbuf; [| |done..].
  - destruct xs as [|x xs]; [|done]. by destruct i.
  - simpl. rewrite Hbuf. simpl. rewrite slots_lookup.
    destruct (xs !! i); [done|]. by case_decide.
Qed.

(** X2. The observers agree with the contents and change nothing:
    [Size()] is the number of elements, [Capacity()] the capacity of the
    buffer, and [begin()], [end()] delimit the elements: [end() - begin()]
    is the size and the element of index [i] is read at [begin() + i]. *)
Theorem observers_read_representation (st : state T) a p cap xs :
  vec_repr st a p cap xs →
  Size a st = Ret (length xs) st ∧
  Capacity a st = Ret cap st ∧
  ∃ b e, begin_ a st = Ret b st ∧ end_ a st = Ret e st ∧
         ptr_diff e b = Some (length xs) ∧
         ∀ i x, xs !! i = Some x → read (ptr_add b i) st = Ret x st.
Proof.
  intros Hrep. pose proof Hrep as (Ha & Hlen & Hbuf).
  unfold Size, Capacity, begin_, end_, GetAddress, get_size_, bind, load, ret.
  rewrite !Ha. simpl. rewrite ?Ha. split_and!; [done..|].
  exists p, (ptr_add p (length xs)). split_and!; [done..| |].
  - eapply ptr_diff_add; [exact Hbuf|].
    rewrite length_app, length_map, length_replicate. lia.
  - intros i x Hi. by rewrite (read_slot st a p cap xs i Hrep), Hi.
Qed.

(** X3. [operator[]] with an index below the size reads that element and
    leaves the state as it is; with any other index, also one below the
    capacity, the access is undefined. *)
Theorem index_reads_element (st : state T) a p cap xs i :
  vec_repr st a p cap xs →
  at_ a i st = match xs !! i with Some x => Ret x st | None => Undef end.
Proof.
  intros Hrep. rewrite <-(read_slot st a p cap xs i Hrep).
  destruct Hrep as (Ha & _).
  unfold at_, GetAddress, bind, load, ret. by rewrite Ha.
Qed.

(** X4. [PopBack()] on a non-empty vector always returns: the last element
    is destroyed, the others stay where they are, buffer and capacity are
    kept, nothing is allocated and no operation that can fail is called. *)
Theorem PopBack_removes_last (st : state T) a p cap xs x :
  vec_repr st a p cap (xs ++ [x]) →
  ∃ s, PopBack a st = Ret () s ∧ vec_repr s a p cap xs ∧
       next_block s = next_block st ∧ ticks s = ticks st.
Proof.
  intros Hrep.
  destruct (spec_total _ _ _ (PopBack_spec st a p cap xs x Hrep))
    as ([] & s & Hrun & Hs & _ & Hn & Hk).
  by exists s.
Qed.

(** X5. [PopBack()] on an empty vector is undefined behaviour: it destroys
    the object before the start of the buffer. *)
Theorem PopBack_empty_undefined (st : state T) a p cap :
  vec_repr st a p cap [] → PopBack a st = Undef.
Proof.
  intros (Ha & _ & Hbuf).
  unfold PopBack, GetAddress, get_size_, bind, load, ret.
  rewrite Ha. simpl. rewrite Ha. simpl.
  by destruct p as [|b [|o]|].
Qed.

(** X6. A [PushBack] that returns followed by [PopBack] gives back the
    elements the vector had; the capacity stays the one the push left,
    and when the push did not grow the buffer is the same. *)
Theorem PushBack_PopBack_round_trip (st : state T) a p cap xs x s1 :
  heap_ok st → vec_repr st a p cap xs →
  PushBack plan a x st = Ret () s1 →
  ∃ s2 p', PopBack a s1 = Ret () s2 ∧
           vec_repr s2 a p' (if decide (cap = length xs) then grown cap else cap) xs ∧
           (length xs < cap → p' = p).
Proof.
  intros Hok Hrep Hrun.
  destruct (spec_Ret _ _ _ _ _ _ _ (PushBack_spec plan st a p cap xs x Hok Hrep) Hrun)
    as [_ Hrep1].
  destruct (spec_total _ _ _ (PopBack_spec s1 a _ _ xs x Hrep1))
    as ([] & s2 & Hrun2 & Hs2 & _).
  eexists s2, _. split_and!; [done..|].
  intros Hlt. rewrite decide_False by lia. done.
Qed.





(** X8. The destructor of a vector always returns: the object is gone, the
    block of its buffer is released, and every other block and object is
    as before. *)
Theorem Vector_dtor_releases (st : state T) a p cap xs :
  vec_repr st a p cap xs →
  ∃ s, Vector_dtor a st = Ret () s ∧
       vecs s = delete a (vecs st) ∧
       (∀ b, heap s !! b = if decide (p = Ptr b 0) then None else heap st !! b).
Proof.
  intros Hrep.
  destruct (spec_total _ _ _ (Vector_dtor_spec st a p cap xs Hrep))
    as ([] & s & Hrun & Hh & Hv & _).
  exists s. split_and!; [done..|].
  intros b. rewrite Hh. destruct Hrep as (_ & _ & Hbuf).
  destruct p as [|b' [|i]|]; simpl in *; try done.
  case_decide as Hb.
  - injection Hb as ->. by rewrite lookup_delete_eq.
  - rewrite lookup_delete_ne; [done|congruence].
Qed.


(** X10. The copy constructor leaves the source as it is and gives the new
    vector the same elements in a block of its own whose capacity is the
    number of elements, whatever the capacity of the source (no block at
    all for an empty source). When it throws, heap and vector objects are
    as before the call. *)
Theorem Vector_ctor_copy_copies (st : state T) a o po capo xs :
  heap_ok st → a ≠ o → vec_repr st o po capo xs →
  match Vector_ctor_copy plan a o st with
  | Ret _ s =>
      vec_repr s o po capo xs ∧
      ∃ pa, vec_repr s a pa (length xs) xs ∧ (xs ≠ [] → pa ≠ po)
  | Throw s => has_fault plan ∧ xs ≠ [] ∧ heap s = heap st ∧ vecs s = vecs st
  | Undef => False
  end.
Proof.
  intros Hok Hne Hrep.
  pose proof (Vector_ctor_copy_spec plan st a o po capo xs Hok Hne Hrep) as H.
  unfold spec in H.
  destruct (Vector_ctor_copy plan a o st) as [[] s|s|]; [|done..].
  destruct H as (_ & Ho & Ha). split; [done|].
  eexists. split; [exact Ha|]. intros Hxs. rewrite decide_False by done.
  intros <-. destruct Hrep as (_ & _ & Hbuf). simpl in Hbuf.
  rewrite Hok in Hbuf by lia. done.
Qed.

(** X11. A copy and its source are independent: after the copy
    constructor, whatever stays within the footprint of one of the two
    vectors (by X1, each of its modifying member functions) leaves the
    other with its buffer, capacity and elements. *)
Theorem copy_is_independent (st : state T) a o po capo xs s :
  heap_ok st → a ≠ o → vec_repr st o po capo xs →
  Vector_ctor_copy plan a o st = Ret () s →
  ∃ pa, vec_repr s a pa (length xs) xs ∧
        (∀ A (m : M T A) s', keeps_to m a → final (m s) = Some s' →
                             vec_repr s' o po capo xs) ∧
        (∀ A (m : M T A) s', keeps_to m o → final (m s) = Some s' →
                             vec_repr s' a pa (length xs) xs).
Proof.
  intros Hok Hne Hrep Hrun.
  destruct (spec_Ret _ _ _ _ _ _ _
              (Vector_ctor_copy_spec plan st a o po capo xs Hok Hne Hrep) Hrun)
    as (Hok' & Ho & Ha).
  assert (separate (if decide (xs = []) then Null else Ptr (next_block st) 0) po)
    as Hsep.
  { case_decide; intros b Hb; [done|]. injection Hb as <-.
    destruct Hrep as (_ & _ & Hbuf). intros ->. simpl in Hbuf.
    rewrite Hok in Hbuf by lia. done. }
  eexists. split; [exact Ha|]. split.
  - intros A m s' Hm Hs'.
    eapply (vec_repr_untouched s s' a); [done|done|exact Ha|exact Ho|exact Hsep|].
    by eapply keeps_to_final.
  - intros A m s' Hm Hs'.
    eapply (vec_repr_untouched s s' o); [done|done|exact Ho|exact Ha| |].
    + by apply separate_sym.
    + by eapply keeps_to_final.
Qed.

(** X12. Copy assignment between two distinct vectors, when it returns,
    leaves the source as it is and gives the destination the elements of
    the source: in its own buffer, with its capacity, when they fit; in a
    fresh block whose capacity is the size of the source otherwise. It
    returns whenever no operation fails. *)
Theorem Vector_copy_assign_copies (st : state T) a o pt capt xst po capo xso :
  heap_ok st → a ≠ o →
  vec_repr st a pt capt xst → vec_repr st o po capo xso → separate pt po →
  (∀ s, Vector_copy_assign plan a o st = Ret () s →
        vec_repr s o po capo xso ∧
        vec_repr s a
          (if decide (length xso ≤ capt) then pt else Ptr (next_block st) 0)
          (if decide (length xso ≤ capt) then capt else length xso) xso) ∧
  (¬ has_fault plan → returns (Vector_copy_assign plan a o st)).
Proof.
  intros Hok Hne Ha Ho Hsep.
  pose proof (Vector_copy_assign_spec plan st a o pt capt xst po capo xso
                Hok Hne Ha Ho Hsep) as H.
  split.
  - intros s Hrun.
    by destruct (spec_Ret _ _ _ _ _ _ _ H Hrun) as (_ & ? & ?).
  - intros Hnf. eapply spec_returns; [exact H| |tauto].
    intros s (Hf & _). by apply Hnf.
Qed.

(** X13. A copy assignment between two distinct vectors that throws leaves
    the source as it is. When the source did not fit the destination's
    capacity, nothing has changed at all. When it did fit, the destination
    keeps its buffer, its capacity and its size, with elements that may
    already have been assigned. *)
Theorem Vector_copy_assign_failure (st : state T) a o pt capt xst po capo xso s :
  heap_ok st → a ≠ o →
  vec_repr st a pt capt xst → vec_repr st o po capo xso → separate pt po →
  Vector_copy_assign plan a o st = Throw s →
  vec_repr s o po capo xso ∧
  (capt < length xso → heap s = heap st ∧ vecs s = vecs st) ∧
  (length xso ≤ capt → ∃ zs, length zs = length xst ∧ vec_repr s a pt capt zs).
Proof.
  intros Hok Hne Ha Ho Hsep Hrun.
  destruct (spec_Throw _ _ _ _ _ _
              (Vector_copy_assign_spec plan st a o pt capt xst po capo xso
                 Hok Hne Ha Ho Hsep) Hrun)
    as (_ & _ & Ho' & Hcase).
  split; [done|]. case_decide; split; intros; try lia; done.
Qed.


(** X14. The move constructor takes over the buffer of the source without
    touching the heap: the new vector has the source's buffer, capacity
    and elements, and the source is left empty with no buffer. *)
Theorem Vector_ctor_move_steals (st : state T) a o po capo xs :
  a ≠ o → vec_repr st o po capo xs →
  ∃ s, Vector_ctor_move a o st = Ret () s ∧ heap s = heap st ∧
       vec_repr s a po capo xs ∧ vec_repr s o Null 0 [].
Proof.
  intros Hne (Ho & [Hlen Hfit] & Hbuf).
  destruct (Vector_ctor_move_eval st a o _ Hne Ho) as (s & Hrun & Hh & Ha' & Ho').
  exists s. split_and!; [done..| |].
  - split_and!; [done..|]. by rewrite Hh.
  - split_and!; first [done|apply fits_0].
Qed.

(** X15. Move assignment does not release what the destination held: when
    the destination is not empty, its former block stays allocated with
    its elements alive after the assignment, and neither of the two
    vectors refers to it any more. *)
Theorem move_assign_abandons_destination (st : state T) d s pd capd x xs ps caps ys :
  d ≠ s →
  vec_repr st d pd capd (x :: xs) → vec_repr st s ps caps ys → separate pd ps →
  ∃ st', Vector_move_assign d s st = Ret () st' ∧
         buffer_holds (heap st') pd
           (map Live (x :: xs) ++ replicate (capd - length (x :: xs)) Raw) ∧
         buffer_of st' d ≠ Some pd ∧ buffer_of st' s ≠ Some pd.
Proof.
  intros Hne (Hd & _ & Hbd) (Hs & _ & _) Hsep.
  destruct (Vector_move_assign_distinct st d s _ _ Hne Hd Hs)
    as (st' & Hrun & Hh & Hd' & Hs').
  exists st'. split_and!; [done|by rewrite Hh|..].
  - unfold buffer_of. rewrite Hd'. simpl. intros [= ->].
    destruct pd as [|b [|o]|]; simpl in Hbd; try done. by apply (Hsep b).
  - unfold buffer_of. rewrite Hs'. simpl. intros [= <-]. done.
Qed.

(** X16. [Swap] between two distinct vectors always returns and exchanges
    buffers, capacities and elements; no element is copied or moved, the
    heap is not touched, no operation that can fail is called, and every
    other vector object is as before. *)
Theorem Swap_exchanges (st : state T) a b pa ca xs pb cb ys :
  a ≠ b → vec_repr st a pa ca xs → vec_repr st b pb cb ys →
  ∃ s, Swap a b st = Ret () s ∧ heap s = heap st ∧ ticks s = ticks st ∧
       vec_repr s a pb cb ys ∧ vec_repr s b pa ca xs ∧
       (∀ o, o ≠ a → o ≠ b → vecs s !! o = vecs st !! o).
Proof.
  intros Hne (Ha & [Hla Hfa] & Hba) (Hb & [Hlb Hfb] & Hbb).
  destruct st as [h v n k]. simpl in *.
  eexists. split; [by apply Swap_eval|]. simpl. split_and!; [done..| | |].
  - split_and!; simpl; [|done..].
    by rewrite lookup_insert_ne, lookup_insert_eq.
  - split_and!; simpl; [|done..]. by rewrite lookup_insert_eq.
  - intros o Hoa Hob. by rewrite !lookup_insert_ne.
Qed.

(** X17. Swapping twice restores the state exactly, and so does one swap
    of a vector with itself. *)
Theorem Swap_twice_restores (st : state T) a b ta tb :
  vecs st !! a = Some ta → vecs st !! b = Some tb →
  (Swap a b ;; Swap a b) st = Ret () st ∧ Swap a a st = Ret () st.
Proof.
  intros Ha Hb. split; [|by eapply Swap_self_eval].
  unfold bind. destruct (decide (a = b)) as [->|Hne].
  - by rewrite !(Swap_self_eval st b ta Ha).
  - destruct st as [h v n k]. simpl in *.
    rewrite (Swap_eval h v n k a b ta tb Hne Ha Hb).
    rewrite (Swap_eval h _ n k a b tb ta Hne).
    + f_equal. f_equal. by apply swap_back.
    + by rewrite lookup_insert_ne, lookup_insert_eq.
    + by rewrite lookup_insert_eq.
Qed.



(** Pushing the elements of a list one after the other. *)
Fixpoint PushBack_all (this : nat) (values : list T) : M T unit :=
  match values with
  | [] => ret ()
  | x :: values' => PushBack plan this x ;; PushBack_all this values'
  end.

(** The capacity after [n] pushes on a vector of [size] elements and
    capacity [cap]. *)
Fixpoint capacity_after (cap size n : nat) : nat :=
  match n with
  | 0 => cap
  | S n' => capacity_after (if decide (cap = size) then grown cap else cap)
                           (S size) n'
  end.


Lemma capacity_after_pow2 cap size n :
  (size = 0 ∧ cap = 0) ∨ (∃ k, cap = 2 ^ k ∧ size ≤ cap ∧ cap < 2 * size) →
  n ≠ 0 →
  ∃ k, capacity_after cap size n = 2 ^ k ∧
       size + n ≤ capacity_after cap size n ∧
       capacity_after cap size n < 2 * (size + n).
Proof.
  revert cap size. induction n as [|n IH]; intros cap size Hinv Hn; [done|].
  simpl.
  assert (∃ k, (if decide (cap = size) then grown cap else cap) = 2 ^ k ∧
               S size ≤ (if decide (cap = size) then grown cap else cap) ∧
               (if decide (cap = size) then grown cap else cap) < 2 * S size)
    as Hstep.
  { destruct Hinv as [[-> ->]|(k & -> & Hle & Hlt)].
    - exists 0. rewrite decide_True by done. unfold grown. simpl. lia.
    - pose proof (Nat.pow_nonzero 2 k) as Hnz. case_decide.
      + exists (S k). unfold grown. rewrite decide_False by lia.
        rewrite Nat.pow_succ_r'. lia.
      + exists k. lia. }
  destruct n as [|n].
  - simpl. destruct Hstep as (k & Hk & ? & ?). exists k.
    split; [done|]. lia.
  - destruct (IH _ (S size) (or_intror Hstep)) as (k & Hk & ? & ?); [done|].
    exists k. split; [done|]. lia.
Qed.

Lemma capacity_after_ge cap size n : cap ≤ capacity_after cap size n.
Proof.
  revert cap size. induction n as [|n IH]; intros cap size; simpl; [done|].
  etrans; [|apply IH]. case_decide; [|done].
  pose proof (grown_gt cap). lia.
Qed.

(** A sequence of pushes fails only when an operation fails or when a
    doubled capacity is more than [operator new] supplies. *)
Lemma PushBack_all_spec a ys : ∀ (st : state T) p cap xs,
  heap_ok st → vec_repr st a p cap xs →
  spec (PushBack_all a ys) st
    (λ _ s, heap_ok s ∧
            ∃ p', vec_repr s a p' (capacity_after cap (length xs) (length ys))
                           (xs ++ ys) ∧
                  (length xs + length ys ≤ cap → p' = p))
    (λ _, has_fault plan ∨
          ¬ fits (capacity_after cap (length xs) (length ys)))
    False.
Proof.
  induction ys as [|y ys IH]; intros st p cap xs Hok Hrep; simpl.
  - apply spec_ret. split; [done|]. exists p. by rewrite app_nil_r.
  - apply spec_bind.
    eapply spec_mono; [by apply PushBack_spec| | |done].
    2:{ intros s ([Hf|[Hc Hr]] & _); [by left|right].
        rewrite decide_True by done. intros Hfit. apply Hr.
        eapply fits_mono; [apply capacity_after_ge|exact Hfit]. }
    intros [] s1 (Hok1 & Hrep1). simpl.
    assert (length (xs ++ [y]) = S (length xs)) as Hlen
      by (rewrite length_app; simpl; lia).
    eapply spec_mono; [by eapply IH|simpl| |done].
    2:{ intros s. by rewrite Hlen. }
    intros [] s (Hoks & p' & Hs & Hp'). split; [done|].
    exists p'. rewrite Hlen in Hs, Hp'.
    rewrite <-app_assoc in Hs. split; [exact Hs|].
    intros Hle. destruct (decide (cap = length xs)); [lia|]. apply Hp'. lia.
Qed.

(** The default constructed vector. *)
Lemma empty_repr (st : state T) a :
  vec_repr (set_vecs (<[a := mkVector (mkRawMemory Null 0) 0]> (vecs st)) st)
           a Null 0 [].
Proof.
  split_and!; simpl; [by rewrite lookup_insert_eq|done|apply fits_0|done].
Qed.

(** X20. Pushing the elements of a non-empty list into a default
    constructed vector gives, when every push returns, a vector holding
    them in order whose capacity is a power of two, at least the size and
    less than twice the size; a push throws only when an operation fails
    or when an array of twice as many elements exceeds [PTRDIFF_MAX]
    bytes, and the behaviour is always defined. *)
Theorem pushes_from_empty (st : state T) a xs :
  heap_ok st → xs ≠ [] →
  match (Vector_ctor a ;; PushBack_all a xs) st with
  | Ret _ s => ∃ p c k, vec_repr s a p c xs ∧ c = 2 ^ k ∧
                        length xs ≤ c ∧ c < 2 * length xs
  | Throw _ => has_fault plan ∨ ¬ fits (2 * length xs)
  | Undef => False
  end.
Proof.
  intros Hok Hxs.
  pose (st1 := set_vecs (<[a := mkVector (mkRawMemory Null 0) 0]> (vecs st)) st).
  pose proof (empty_repr st a) as Hrep. fold st1 in Hrep.
  assert (heap_ok st1) as Hok1 by exact Hok.
  pose proof (PushBack_all_spec a xs st1 Null 0 [] Hok1 Hrep) as H.
  unfold spec in H. unfold bind, Vector_ctor, store. fold st1.
  destruct (capacity_after_pow2 0 0 (length xs)) as (k & Hk & ? & ?).
  { by left. }
  { by destruct xs. }
  destruct (PushBack_all a xs st1) as [[] s|s|]; [| |done].
  - destruct H as (_ & p' & Hs & _). simpl in Hs.
    exists p', (capacity_after 0 0 (length xs)), k. by split_and!.
  - destruct H as [Hf|Hr]; [by left|right]. intros Hfit. apply Hr.
    simpl. eapply fits_mono; [|exact Hfit]. simpl in *. lia.
Qed.


(** X22. The reference [EmplaceBack] returns designates the new element,
    which is also the one [operator[]] finds at the former size. *)
Theorem EmplaceBack_returns_reference (st : state T) a p cap xs x r s :
  heap_ok st → vec_repr st a p cap xs →
  EmplaceBack plan a x st = Ret r s →
  read r s = Ret x s ∧ at_ a (length xs) s = Ret x s.
Proof.
  intros Hok Hrep Hrun.
  destruct (spec_Ret _ _ _ _ _ _ _ (EmplaceBack_spec plan st a p cap xs x Hok Hrep) Hrun)
    as (_ & Hs & ->).
  pose proof (read_slot s a _ _ _ (length xs) Hs) as Hread.
  rewrite list_lookup_middle in Hread by done.
  split; [done|]. rewrite <-Hread. destruct Hs as (Ha & _).
  unfold at_, GetAddress, bind, load, ret. by rewrite Ha.
Qed.














(** X25. Growth replaces one block by one block: when [Reserve] beyond
    the capacity, or a [PushBack] or [EmplaceBack] on a full vector,
    returns, the allocated blocks are those before the call, plus the new
    buffer, minus the former buffer, which has been released. A push with
    room left allocates and releases nothing. *)
Theorem growth_replaces_one_block (st : state T) a p cap xs c x :
  heap_ok st → vec_repr st a p cap xs →
  (cap < c → ∀ s, Reserve plan a c st = Ret () s →
     dom (heap s) = ({[next_block st]} ∪ dom (heap st)) ∖ blocks p) ∧
  (∀ s, PushBack plan a x st = Ret () s →
     dom (heap s) = if decide (cap = length xs)
                    then ({[next_block st]} ∪ dom (heap st)) ∖ blocks p
                    else dom (heap st)) ∧
  (∀ r s, EmplaceBack plan a x st = Ret r s →
     dom (heap s) = if decide (cap = length xs)
                    then ({[next_block st]} ∪ dom (heap st)) ∖ blocks p
                    else dom (heap st)).
Proof.
  intros Hok (Ha & _ & _). split_and!.
  - intros Hc s Hrun.
    pose proof (spec_Ret _ _ _ _ _ _ _ (Reserve_blocks plan st a p cap _ c Hok Ha) Hrun)
      as Hs.
    simpl in Hs. by rewrite decide_False in Hs by lia.
  - intros s Hrun.
    exact (spec_Ret _ _ _ _ _ _ _ (PushBack_blocks plan st a p cap _ x Hok Ha) Hrun).
  - intros r s Hrun.
    exact (spec_Ret _ _ _ _ _ _ _ (EmplaceBack_blocks plan st a p cap _ x Hok Ha) Hrun).
Qed.

(** X26. A failed growth leaves no block behind, whatever the element
    type: when [Reserve], [PushBack] or [EmplaceBack] throws, the
    allocated blocks are exactly those before the call, also when
    relocation by a throwing move has left elements moved-from. *)
Theorem failed_growth_leaves_no_block (st : state T) a p cap xs c x s :
  heap_ok st → vec_repr st a p cap xs →
  Reserve plan a c st = Throw s ∨ PushBack plan a x st = Throw s ∨
  EmplaceBack plan a x st = Throw s →
  dom (heap s) = dom (heap st).
Proof.
  intros Hok (Ha & _ & _) [Hrun|[Hrun|Hrun]].
  - exact (spec_Throw _ _ _ _ _ _ (Reserve_blocks plan st a p cap _ c Hok Ha) Hrun).
  - exact (spec_Throw _ _ _ _ _ _ (PushBack_blocks plan st a p cap _ x Hok Ha) Hrun).
  - exact (spec_Throw _ _ _ _ _ _ (EmplaceBack_blocks plan st a p cap _ x Hok Ha) Hrun).
Qed.


Lemma spec_conj {A} (m : M T A) st (Q1 Q2 : A → state T → Prop) E1 E2 U1 U2 :
  spec m st Q1 E1 U1 → spec m st Q2 E2 U2 →
  spec m st (λ r s, Q1 r s ∧ Q2 r s) (λ s, E1 s ∧ E2 s) (U1 ∧ U2).
Proof. unfold spec. by destruct (m st). Qed.

Lemma confined_PushBack_all st0 P a xs :
  confined st0 P a (PushBack_all a xs) (λ _, True).
Proof.
  induction xs as [|x xs IH]; simpl; [by apply confined_ret|].
  eapply confined_bind; [apply confined_PushBack|]. by intros _ _.
Qed.

(** Pushes keep the account of blocks: those of [D], and the buffer. *)
Lemma PushBack_all_blocks a (D : gset nat) ys : ∀ (st : state T) p cap xs,
  heap_ok st → vec_repr st a p cap xs →
  dom (heap st) = D ∪ blocks p → blocks p ## D →
  spec (PushBack_all a ys) st
    (λ _ s, ∃ p' cap', vec_repr s a p' cap' (xs ++ ys) ∧
                       dom (heap s) = D ∪ blocks p' ∧ blocks p' ## D)
    (λ _, True) False.
Proof.
  induction ys as [|y ys IH]; intros st p cap xs Hok Hrep Hdom Hdisj; simpl.
  - apply spec_ret. exists p, cap. by rewrite app_nil_r.
  - apply spec_bind.
    pose proof Hrep as (Ha & _ & _).
    eapply spec_mono;
      [exact (spec_conj _ _ _ _ _ _ _ _
                (PushBack_spec plan st a p cap xs y Hok Hrep)
                (PushBack_blocks plan st a p cap _ y Hok Ha))
      |simpl|done|by intros [? _]].
    intros [] s1 ((Hok1 & Hrep1) & Hdom1).
    eapply spec_mono;
      [eapply (IH s1 _ _ (xs ++ [y])); [done|exact Hrep1|..]| |done..].
    3:{ intros [] s (p' & cap' & Hs & Hd). exists p', cap'.
        by rewrite <-app_assoc in Hs. }
    + rewrite Hdom1. case_decide; [|done]. simpl.
      assert (next_block st ∉ dom (heap st))
        by (apply not_elem_of_dom, Hok; lia).
      set_solver.
    + case_decide; [|done]. simpl.
      assert (next_block st ∉ dom (heap st))
        by (apply not_elem_of_dom, Hok; lia).
      set_solver.
Qed.

Lemma capacity_after_empty_le n : capacity_after 0 0 n ≤ 2 * n.
Proof.
  destruct n as [|n]; [done|].
  destruct (capacity_after_pow2 0 0 (S n)) as (k & _ & _ & Hlt);
    [by left|done|lia].
Qed.

(** X27. The lifetime of a vector leaves the heap as it found it:
    default construction, any number of pushes and the destructor, when
    they return, end with every block that existed before intact, every
    block allocated in between released, and the other vector objects
    unchanged. They do return unless an operation fails or an array of
    twice as many elements exceeds [PTRDIFF_MAX] bytes. *)
Theorem lifetime_restores_heap (st : state T) a xs :
  heap_ok st →
  match (Vector_ctor a ;; PushBack_all a xs ;; Vector_dtor a) st with
  | Ret _ s => heap s = heap st ∧ vecs s = delete a (vecs st)
  | Throw _ => has_fault plan ∨ ¬ fits (2 * length xs)
  | Undef => False
  end.
Proof.
  intros Hok.
  assert (confined st (λ _, False) a
            (PushBack_all a xs ;; Vector_dtor a) (λ _, True))
    as Hconf.
  { eapply confined_bind; [apply confined_PushBack_all|]. intros _ _.
    apply confined_Vector_dtor. }
  pose (st1 := set_vecs (<[a := mkVector (mkRawMemory Null 0) 0]> (vecs st)) st).
  specialize (Hconf st1). unfold bind, Vector_ctor, store in *.
  fold st1 in Hconf |- *.
  assert (within st (λ _, False) a st1) as Hin.
  { split_and!; simpl; [done..| |].
    - intros o Ho. by rewrite lookup_insert_ne.
    - intros t. rewrite lookup_insert_eq. by intros [= <-]. }
  specialize (Hconf Hin).
  pose proof (empty_repr st a) as Hrep. fold st1 in Hrep.
  assert (heap_ok st1) as Hok1 by exact Hok.
  pose proof (PushBack_all_blocks a (dom (heap st)) xs st1 Null 0 [] Hok1 Hrep)
    as Hpush.
  pose proof (PushBack_all_spec a xs st1 Null 0 [] Hok1 Hrep) as Hfail.
  unfold spec in Hpush, Hfail.
  destruct (PushBack_all a xs st1) as [[] s2|s2|].
  - destruct Hpush as (p' & cap' & Hrep2 & Hdom2 & Hdisj2);
      [simpl; set_solver|simpl; set_solver|].
    destruct (spec_total _ _ _ (Vector_dtor_spec s2 a p' cap' _ Hrep2))
      as ([] & s & Hrun & Hh & Hv & _).
    rewrite Hrun in Hconf |- *.
    destruct Hconf as [(_ & Hsame & Hothers & _) _].
    assert (dom (heap s) = dom (heap st)) as Hdom.
    { rewrite Hh. destruct Hrep2 as (_ & _ & Hbuf).
      destruct p' as [|b [|o]|]; simpl in *; [set_solver| |done..].
      rewrite dom_delete_L. set_solver. }
    split.
    + apply map_eq. intros b.
      destruct (decide (b < next_block st)) as [Hlt|Hge].
      * apply Hsame; [done|tauto].
      * rewrite (Hok b) by lia. apply not_elem_of_dom. rewrite Hdom.
        apply not_elem_of_dom, Hok. lia.
    + apply map_eq. intros o. destruct (decide (o = a)) as [->|Hne].
      * by rewrite Hv, !lookup_delete_eq.
      * rewrite lookup_delete_ne by done. by apply Hothers.
  - destruct Hfail as [Hf|Hr]; [by left|right]. intros Hfit. apply Hr.
    eapply fits_mono; [apply capacity_after_empty_le|exact Hfit].
  - apply Hpush; simpl; set_solver.
Qed.


End Members.

(** ** Concrete runs of the member functions *)

Lemma st_123_int : vec_repr (ET := int_elem) st_123 0 (Ptr 0 0) 4 [1; 2; 3].
Proof. apply st_123_repr, fits_int. lia. Qed.



Lemma st_two_ok : heap_ok st_two.
Proof.
  intros b Hb. simpl in *.
  rewrite lookup_insert_ne by lia. apply lookup_singleton_ne. lia.
Qed.

Lemma st_two_int : vec_repr (ET := int_elem) st_two 0 (Ptr 0 0) 4 [1; 2; 3].
Proof. apply st_two_repr, fits_int. lia. Qed.

Lemma st_two_repr_1 : vec_repr (ET := int_elem) st_two 1 (Ptr 1 0) 1 [7].
Proof.
  split_and!; simpl;
    [apply lookup_insert_eq|lia|apply fits_int; lia|apply lookup_insert_eq].
Qed.

Lemma st_two_separate : separate (Ptr 1 0) (Ptr 0 0).
Proof. intros b [= <-]. done. Qed.

Lemma st_reserved_repr :
  vec_repr (ET := int_elem) st_reserved 0 (Ptr 0 0) 1 [].
Proof.
  split_and!; simpl;
    [apply lookup_singleton_eq|lia|apply fits_int; lia
    |apply lookup_singleton_eq].
Qed.

(** No vector and no block. *)
Definition st_fresh : state nat := mkState ∅ ∅ 0 0.

Lemma st_fresh_ok : heap_ok st_fresh.
Proof. intros b _. apply lookup_empty. Qed.


Lemma observers_read_representation_witness :
  Size 0 st_123 = Ret 3 st_123 ∧
  Capacity 0 st_123 = Ret 4 st_123 ∧
  ∃ b e, begin_ 0 st_123 = Ret b st_123 ∧ end_ 0 st_123 = Ret e st_123 ∧
         ptr_diff e b = Some 3 ∧
         ∀ i x, [1; 2; 3] !! i = Some x → read (ptr_add b i) st_123 = Ret x st_123.
Proof.
  exact (observers_read_representation (ET := int_elem) st_123 0 (Ptr 0 0) 4
           [1; 2; 3] st_123_int).
Defined.

Lemma index_reads_element_witness :
  at_ 0 1 st_123 = Ret 2 st_123 ∧ at_ 0 3 st_123 = Undef.
Proof.
  split.
  - exact (index_reads_element (ET := int_elem) st_123 0 (Ptr 0 0) 4
             [1; 2; 3] 1 st_123_int).
  - exact (index_reads_element (ET := int_elem) st_123 0 (Ptr 0 0) 4
             [1; 2; 3] 3 st_123_int).
Defined.

Lemma PopBack_removes_last_witness :
  ∃ s, PopBack 0 st_123 = Ret () s ∧
       vec_repr (ET := int_elem) s 0 (Ptr 0 0) 4 [1; 2] ∧
       next_block s = next_block st_123 ∧ ticks s = ticks st_123.
Proof.
  exact (PopBack_removes_last (ET := int_elem) st_123 0 (Ptr 0 0) 4 [1; 2] 3
           st_123_int).
Defined.

Lemma PopBack_empty_undefined_witness : PopBack 0 st_reserved = Undef.
Proof.
  exact (PopBack_empty_undefined (ET := int_elem) st_reserved 0 (Ptr 0 0) 1
           st_reserved_repr).
Defined.

Lemma PushBack_PopBack_round_trip_witness :
  ∃ s1, PushBack (ET := int_elem) no_faults 0 4 st_123 = Ret () s1 ∧
        ∃ s2 p', PopBack 0 s1 = Ret () s2 ∧
                 vec_repr (ET := int_elem) s2 0 p' 4 [1; 2; 3] ∧
                 (3 < 4 → p' = Ptr 0 0).
Proof.
  eexists. split; [vm_compute; reflexivity|].
  apply (PushBack_PopBack_round_trip (ET := int_elem) no_faults st_123 0
           (Ptr 0 0) 4 [1; 2; 3] 4 _ (vec_state_ok _ _ _) st_123_int).
  vm_compute. reflexivity.
Defined.


Lemma Vector_dtor_releases_witness :
  ∃ s, Vector_dtor 0 st_123 = Ret () s ∧
       vecs s = delete 0 (vecs st_123) ∧
       (∀ b, heap s !! b
             = if decide (Ptr 0 0 = Ptr b 0) then None else heap st_123 !! b).
Proof.
  exact (Vector_dtor_releases (ET := int_elem) st_123 0 (Ptr 0 0) 4 [1; 2; 3]
           st_123_int).
Defined.


Lemma Vector_ctor_copy_copies_witness :
  ∃ s, Vector_ctor_copy (ET := int_elem) no_faults 1 0 st_123 = Ret () s ∧
       vec_repr (ET := int_elem) s 0 (Ptr 0 0) 4 [1; 2; 3] ∧
       ∃ pa, vec_repr (ET := int_elem) s 1 pa 3 [1; 2; 3] ∧
             ([1; 2; 3] ≠ [] → pa ≠ Ptr 0 0).
Proof.
  eexists. split; [vm_compute; reflexivity|].
  apply (Vector_ctor_copy_copies (ET := int_elem) no_faults st_123 1 0
           (Ptr 0 0) 4 [1; 2; 3] (vec_state_ok _ _ _)); [lia|exact st_123_int].
Defined.

Lemma copy_is_independent_witness :
  ∃ s, Vector_ctor_copy (ET := int_elem) no_faults 1 0 st_123 = Ret () s ∧
       ∃ pa, vec_repr (ET := int_elem) s 1 pa 3 [1; 2; 3] ∧
             (∀ A (m : M nat A) s', keeps_to m 1 → final (m s) = Some s' →
                vec_repr (ET := int_elem) s' 0 (Ptr 0 0) 4 [1; 2; 3]) ∧
             (∀ A (m : M nat A) s', keeps_to m 0 → final (m s) = Some s' →
                vec_repr (ET := int_elem) s' 1 pa 3 [1; 2; 3]).
Proof.
  eexists. split; [vm_compute; reflexivity|].
  apply (copy_is_independent (ET := int_elem) no_faults st_123 1 0 (Ptr 0 0) 4
           [1; 2; 3] _ (vec_state_ok _ _ _)); [lia|exact st_123_int|].
  vm_compute. reflexivity.
Defined.

Lemma Vector_copy_assign_copies_witness :
  ∃ s, Vector_copy_assign (ET := int_elem) no_faults 1 0 st_two = Ret () s ∧
       vec_repr (ET := int_elem) s 0 (Ptr 0 0) 4 [1; 2; 3] ∧
       vec_repr (ET := int_elem) s 1 (Ptr 2 0) 3 [1; 2; 3].
Proof.
  eexists. split; [vm_compute; reflexivity|].
  destruct (Vector_copy_assign_copies (ET := int_elem) no_faults st_two 1 0
              (Ptr 1 0) 1 [7] (Ptr 0 0) 4 [1; 2; 3] st_two_ok) as [Hret _];
    [lia|exact st_two_repr_1|exact st_two_int|exact st_two_separate|].
  apply Hret. vm_compute. reflexivity.
Defined.

(** The first element assignment throws, in place. *)
Lemma Vector_copy_assign_failure_witness :
  ∃ s, Vector_copy_assign (ET := int_elem) (fail_at 0) 0 1 st_two = Throw s ∧
       vec_repr (ET := int_elem) s 1 (Ptr 1 0) 1 [7] ∧
       (4 < 1 → heap s = heap st_two ∧ vecs s = vecs st_two) ∧
       (1 ≤ 4 → ∃ zs, length zs = 3 ∧
                      vec_repr (ET := int_elem) s 0 (Ptr 0 0) 4 zs).
Proof.
  eexists. split; [vm_compute; reflexivity|].
  apply (Vector_copy_assign_failure (ET := int_elem) (fail_at 0) st_two 0 1
           (Ptr 0 0) 4 [1; 2; 3] (Ptr 1 0) 1 [7] _ st_two_ok);
    [lia|exact st_two_int|exact st_two_repr_1
    |apply separate_sym; exact st_two_separate|].
  vm_compute. reflexivity.
Defined.

Lemma Vector_ctor_move_steals_witness :
  ∃ s, Vector_ctor_move 1 0 st_123 = Ret () s ∧ heap s = heap st_123 ∧
       vec_repr (ET := int_elem) s 1 (Ptr 0 0) 4 [1; 2; 3] ∧
       vec_repr (ET := int_elem) s 0 Null 0 [].
Proof.
  apply (Vector_ctor_move_steals (ET := int_elem) st_123 1 0 (Ptr 0 0) 4
           [1; 2; 3]); [lia|exact st_123_int].
Defined.

Lemma move_assign_abandons_destination_witness :
  ∃ st', Vector_move_assign 0 1 st_two = Ret () st' ∧
         buffer_holds (heap st') (Ptr 0 0) [Live 1; Live 2; Live 3; Raw] ∧
         buffer_of st' 0 ≠ Some (Ptr 0 0) ∧ buffer_of st' 1 ≠ Some (Ptr 0 0).
Proof.
  apply (move_assign_abandons_destination (ET := int_elem) st_two 0 1
           (Ptr 0 0) 4 1 [2; 3] (Ptr 1 0) 1 [7]);
    [lia|exact st_two_int|exact st_two_repr_1
    |apply separate_sym; exact st_two_separate].
Defined.

Lemma Swap_exchanges_witness :
  ∃ s, Swap 0 1 st_two = Ret () s ∧ heap s = heap st_two ∧
       ticks s = ticks st_two ∧
       vec_repr (ET := int_elem) s 0 (Ptr 1 0) 1 [7] ∧
       vec_repr (ET := int_elem) s 1 (Ptr 0 0) 4 [1; 2; 3] ∧
       (∀ o, o ≠ 0 → o ≠ 1 → vecs s !! o = vecs st_two !! o).
Proof.
  apply (Swap_exchanges (ET := int_elem) st_two 0 1 (Ptr 0 0) 4 [1; 2; 3]
           (Ptr 1 0) 1 [7]);
    [lia|exact st_two_int|exact st_two_repr_1].
Defined.

Lemma Swap_twice_restores_witness :
  bind (Swap 0 1) (λ _, Swap 0 1) st_two = Ret () st_two ∧
  Swap 0 0 st_two = Ret () st_two.
Proof.
  apply (Swap_twice_restores st_two 0 1
           (mkVector (mkRawMemory (Ptr 0 0) 4) 3)
           (mkVector (mkRawMemory (Ptr 1 0) 1) 1));
    vm_compute; reflexivity.
Defined.



Lemma pushes_from_empty_witness :
  ∃ s, bind (Vector_ctor 0) (λ _, PushBack_all (ET := int_elem) no_faults 0 [1; 2; 3])
            st_fresh = Ret () s ∧
       ∃ p c k, vec_repr (ET := int_elem) s 0 p c [1; 2; 3] ∧
                c = 2 ^ k ∧ 3 ≤ c ∧ c < 2 * 3.
Proof.
  eexists. split; [vm_compute; reflexivity|].
  apply (pushes_from_empty (ET := int_elem) no_faults st_fresh 0 [1; 2; 3]
           st_fresh_ok).
  discriminate.
Defined.

(** An element type of [2 ^ 62] bytes. *)
Definition huge_elem : Element nat :=
  {| value_init := 0; moved_from := λ x, x;
     is_nothrow_move_constructible := true; is_copy_constructible := true;
     sizeof_T := 2 ^ 62; sizeof_T_max := eq_refl |}.

(** With elements that large the second push is refused by
    [operator new], although no operation of the element type fails: the
    doubled capacity asks for [2 ^ 63] bytes. The exception leaves the
    vector [1] as it was. *)
Lemma second_push_refused :
  ¬ has_fault no_faults ∧
  ¬ fits (ET := huge_elem) (2 * length [1; 2]) ∧
  ∃ s, bind (Vector_ctor 0) (λ _, PushBack_all (ET := huge_elem) no_faults 0 [1; 2])
            st_fresh = Throw s ∧
       vec_repr (ET := huge_elem) s 0 (Ptr 0 0) 1 [1].
Proof.
  split; [intros [k Hk]; discriminate Hk|].
  split; [intros Hfit; vm_compute in Hfit; by apply Hfit|].
  eexists. split; [vm_compute; reflexivity|].
  split_and!;
    [vm_compute; reflexivity|simpl; lia
    |unfold fits; vm_compute; discriminate|vm_compute; reflexivity].
Qed.


Lemma EmplaceBack_returns_reference_witness :
  ∃ r s, EmplaceBack (ET := int_elem) no_faults 0 4 st_123 = Ret r s ∧
         read r s = Ret 4 s ∧ at_ 0 3 s = Ret 4 s.
Proof.
  eexists _, _. split; [vm_compute; reflexivity|].
  apply (EmplaceBack_returns_reference (ET := int_elem) no_faults st_123 0
           (Ptr 0 0) 4 [1; 2; 3] 4 _ _ (vec_state_ok _ _ _) st_123_int).
  vm_compute. reflexivity.
Defined.



Lemma growth_replaces_one_block_witness :
  ∃ s, Reserve (ET := int_elem) no_faults 0 8 st_123 = Ret () s ∧
       dom (heap s) = ({[1]} ∪ dom (heap st_123)) ∖ blocks (Ptr 0 0).
Proof.
  eexists. split; [vm_compute; reflexivity|].
  destruct (growth_replaces_one_block (ET := int_elem) no_faults st_123 0
              (Ptr 0 0) 4 [1; 2; 3] 8 0 (vec_state_ok _ _ _) st_123_int)
    as [Hres _].
  apply Hres; [lia|]. vm_compute. reflexivity.
Defined.

(** The push of the move-only counterexample: the first handle is left
    empty, and no block is lost. *)
Lemma failed_growth_leaves_no_block_witness :
  PushBack (ET := move_only_elem) (fail_at 3) 0 (Some 3) st_handles
  = Throw st_handles_thrown ∧
  dom (heap st_handles_thrown) = dom (heap st_handles).
Proof.
  split; [vm_compute; reflexivity|].
  apply (failed_growth_leaves_no_block (ET := move_only_elem) (fail_at 3)
           st_handles 0 (Ptr 0 0) 2 [Some 1; Some 2] 0 (Some 3) st_handles_thrown
           (vec_state_ok _ _ _)).
  - apply (vec_state_repr (ET := move_only_elem) [Some 1; Some 2] 2);
      [simpl; lia|apply fits_move_only; lia].
  - right. left. vm_compute. reflexivity.
Defined.

Lemma lifetime_restores_heap_witness :
  ∃ s, bind (Vector_ctor 1)
            (λ _, bind (PushBack_all (ET := int_elem) no_faults 1 [5; 6; 7])
                       (λ _, Vector_dtor 1)) st_123 = Ret () s ∧
       heap s = heap st_123 ∧ vecs s = delete 1 (vecs st_123).
Proof.
  eexists. split; [vm_compute; reflexivity|].
  exact (lifetime_restores_heap (ET := int_elem) no_faults st_123 1 [5; 6; 7]
           (vec_state_ok _ _ _)).
Defined.
